(** * Causeway: the structured-model core

    A shallow embedding of [src/pipeline/models/structured.py] (semirings and
    the Viterbi decoder) and of [src/pipeline/models.py] (featurized models,
    conjoined feature extractors, class rebalancing), with the properties the
    specification states about them.

    Conventions.
    - A Python call either returns or raises: [res A] is [Ok a] or
      [Raise e], threaded with [x ← c; k].
    - Trellis scores are values of a type [R] with the operations numpy
      applies to them ([Scalar R]); numpy's own scores are binary64 floats
      ([float_scalar]), integers serve for exact arithmetic.  The ratio of
      class rebalancing is a binary64 float.
    - A numpy array carries its shape beside its cells ([array2]). *)

From stdpp Require Import base option list sorting gmap strings pretty.
From Stdlib Require Import ZArith Lia Ring.
From Stdlib Require Floats Uint63.
Import PrimFloat SpecFloat FloatOps.

Local Open Scope Z_scope.
Local Open Scope nat_scope.

(** ** Exceptions and results *)

Inductive exn : Type :=
  | AssertionError
  | IndexError
  | ValueError
  | KeyError
  | UnrecognizedFlag
  | FeatureExtractionError
  | TypeError
  | ZeroDivisionError
  | NotImplementedError
  | OverflowError.

Inductive res (A : Type) : Type :=
  | Ok (a : A)
  | Raise (e : exn).
Arguments Ok {A} a.
Arguments Raise {A} e.

Definition rbind {A B} (c : res A) (k : A → res B) : res B :=
  match c with
  | Ok a => k a
  | Raise e => Raise e
  end.

Notation "x ← c ; k" := (rbind c (λ x, k))
  (at level 20, c at level 100, k at level 200, right associativity,
   format "'[v' x  ←  c ; '/' k ']'").
Notation "' p ← c ; k" := (rbind c (λ x, match x with p => k end))
  (at level 20, p pattern, c at level 100, k at level 200,
   right associativity).

(** [for x in l: s = f(s, x)], stopping at the first exception. *)
Fixpoint foldM {A S} (f : S → A → res S) (s : S) (l : list A) : res S :=
  match l with
  | [] => Ok s
  | x :: l' => s' ← f s x; foldM f s' l'
  end.

(** [[f(x) for x in l]], stopping at the first exception. *)
Fixpoint mapM {A B} (f : A → res B) (l : list A) : res (list B) :=
  match l with
  | [] => Ok []
  | x :: l' => y ← f x; ys ← mapM f l'; Ok (y :: ys)
  end.

Definition is_ok {A} (c : res A) : Prop := ∃ a, c = Ok a.

(** Python's [assert cond]. *)
Definition py_assert (cond : bool) : res unit :=
  if cond then Ok tt else Raise AssertionError.

(** ** Python indexing *)

(** A Python index into a sequence of length [n]: [0 ≤ i < n] counts from the
    front, [-n ≤ i < 0] from the back, anything else is an [IndexError]. *)
Definition py_index (n : nat) (i : Z) : res nat :=
  if decide (0 ≤ i < Z.of_nat n)%Z then Ok (Z.to_nat i)
  else if decide (- Z.of_nat n ≤ i < 0)%Z then Ok (Z.to_nat (Z.of_nat n + i))
  else Raise IndexError.

(** [l[i]] *)
Definition py_get {A} (l : list A) (i : Z) : res A :=
  k ← py_index (length l) i;
  match l !! k with
  | Some x => Ok x
  | None => Raise IndexError
  end.

(** [l[i] = x] *)
Definition py_set {A} (l : list A) (i : Z) (x : A) : res (list A) :=
  k ← py_index (length l) i;
  Ok (<[k := x]> l).

(** ** numpy arrays *)

(** A two-dimensional array: [shape0] rows of [shape1] cells. *)
Record array2 (A : Type) : Type := Array2 {
  shape0 : nat;
  shape1 : nat;
  rows : list (list A)
}.
Arguments Array2 {A} shape0 shape1 rows.
Arguments shape0 {A} a.
Arguments shape1 {A} a.
Arguments rows {A} a.

Definition wf_array2 {A} (a : array2 A) : Prop :=
  length (rows a) = shape0 a ∧ Forall (λ r, length r = shape1 a) (rows a).

(** [len(a)] is the length of the first axis. *)
Definition len {A} (a : array2 A) : nat := shape0 a.

(** [np.empty(shape)]: the cells hold whatever the allocator left there,
    [garbage] in the model. *)
Definition np_empty {A} (garbage : A) (s0 s1 : nat) : array2 A :=
  Array2 s0 s1 (replicate s0 (replicate s1 garbage)).

(** [a[i, j]] with Python integers. *)
Definition get2 {A} (a : array2 A) (i j : Z) : res A :=
  r ← py_get (rows a) i;
  py_get r j.

(** [a[:, j]] *)
Definition get_col {A} (a : array2 A) (j : Z) : res (list A) :=
  k ← py_index (shape1 a) j;
  mapM (λ r, match r !! k with Some x => Ok x | None => Raise IndexError end)
       (rows a).

(** [a[:, j] = v] for a one-dimensional [v]; the lengths must agree (numpy
    would also stretch a [v] of length one, which the decoder never passes). *)
Definition set_col {A} (a : array2 A) (j : Z) (v : list A) : res (array2 A) :=
  k ← py_index (shape1 a) j;
  if decide (length v = shape0 a)
  then Ok (Array2 (shape0 a) (shape1 a)
             (zip_with (λ r x, <[k := x]> r) (rows a) v))
  else Raise ValueError.

(** [a[:, j] = x] for a scalar [x]. *)
Definition fill_col {A} (a : array2 A) (j : Z) (x : A) : res (array2 A) :=
  k ← py_index (shape1 a) j;
  Ok (Array2 (shape0 a) (shape1 a) (map (λ r, <[k := x]> r) (rows a))).

(** A reduction [f] along [axis=0]: one result per column.  With no rows
    every column is empty, and numpy raises what [f] raises on an empty
    array even when there is no column either. *)
Definition reduce_axis0 {A B} (f : list A → res B) (a : array2 A)
  : res (list B) :=
  if decide (shape0 a = 0)
  then y ← f []; Ok (replicate (shape1 a) y)
  else mapM (λ j, col ← get_col a (Z.of_nat j); f col) (seq 0 (shape1 a)).

(** The transition weights: [ndim] is 2 (one matrix) or 3 (one matrix per
    transition). *)
Inductive ndarray (A : Type) : Type :=
  | Dim2 (a : array2 A)
  | Dim3 (slices : list (array2 A)).
Arguments Dim2 {A} a.
Arguments Dim3 {A} slices.

Definition ndim {A} (a : ndarray A) : nat :=
  match a with Dim2 _ => 2 | Dim3 _ => 3 end.

(** ** Scalars *)

Class Scalar (R : Type) : Type := {
  Rzero : R;
  Rone : R;
  Radd : R → R → R;
  Rmul : R → R → R;
  Rgtb : R → R → bool
}.

(** [-np.inf] is kept symbolic. *)
Inductive ext (R : Type) : Type :=
  | NegInf
  | Fin (r : R).
Arguments NegInf {R}.
Arguments Fin {R} r.

Section numpy_reductions.
Context {R : Type} `{Scalar R}.

(** [np.sum] of a one-dimensional array, the entries added in order from
    zero; empty sums to zero.  (numpy adds a float array of 8 entries or
    more in blocks, which may round differently; where no addition rounds,
    the sum is the same.) *)
Definition np_sum (l : list R) : res R := Ok (foldl Radd Rzero l).

(** [np.max]: no identity, so an empty array raises. *)
Definition np_max (l : list R) : res R :=
  match l with
  | [] => Raise ValueError
  | x :: l' => Ok (foldl (λ m y, if Rgtb y m then y else m) x l')
  end.

(** [np.argmax]: the index of the first occurrence of the maximum. *)
Fixpoint argmax_from (best_i : nat) (best : R) (i : nat) (l : list R) : nat :=
  match l with
  | [] => best_i
  | x :: l' =>
      if Rgtb x best then argmax_from i x (S i) l'
      else argmax_from best_i best (S i) l'
  end.

Definition np_argmax (l : list R) : res nat :=
  match l with
  | [] => Raise ValueError
  | x :: l' => Ok (argmax_from 0 x 1 l')
  end.
End numpy_reductions.

(** ** Semirings ([structured.py], class [Semiring]) *)

Module Semiring.
Section defs.
Context {R : Type} `{Scalar R}.

(** The fields hold numpy functions.  [sum] and [arg_sum] are reductions,
    given here on a one-dimensional array and applied along [axis=0] through
    [reduce_axis0]; [multiply] is a binary ufunc, given on scalars and
    applied cell by cell. *)
Record t : Type := Make {
  sum : list R → res R;
  multiply : R → R → R;
  additive_identity : ext R;
  multiplicative_identity : R;
  arg_sum : option (list R → res nat)
}.

(** count/probability *)
Definition PLUS_MULTIPLY : t := Make np_sum Rmul (Fin Rzero) Rone None.
Definition MAX_MULTIPLY : t := Make np_max Rmul NegInf Rone (Some np_argmax).
Definition MAX_PLUS : t := Make np_max Radd NegInf Rzero (Some np_argmax).

End defs.
Arguments t R : clear implicits.
End Semiring.

(** ** The Viterbi decoder ([structured.py], class [ViterbiDecoder]) *)

Module ViterbiDecoder.
Section defs.
Context {R : Type} `{Scalar R}.
(** The type of the caller's state labels. *)
Context {L : Type}.
(** What the cast of [np.NaN] to [int32] leaves in the array: numpy does not
    fix it (it is [-2147483648] on x86). *)
Variable nan_as_int32 : Z.
(** What [np.empty] finds in memory, for a float and for an [int32] cell. *)
Variable garbage : R.
Variable garbage32 : Z.

Record t : Type := Make {
  possible_states : option (list L);
  semiring : Semiring.t R
}.

(** [best_state_path] is an [int32] array of state indices, or a list of the
    caller's labels when [possible_states] is given. *)
Inductive state_path : Type :=
  | StateIndices (p : list Z)
  | StateLabels (p : list L).

Inductive viterbi_result : Type :=
  | ScoreAndPath (summed_score : R) (best_state_path : state_path)
  | ScoreOnly (summed_score : R).

(** [multiply(w, col[:, np.newaxis])]: cell [(i, j)] is [multiply(w[i, j],
    col[i])].  The first axes must agree (numpy would also stretch an axis of
    length one, which no trellis of the documented shapes needs). *)
Definition multiply_newaxis (sr : Semiring.t R) (w : array2 R) (col : list R)
  : res (array2 R) :=
  if decide (shape0 w = length col)
  then Ok (Array2 (shape0 w) (shape1 w)
             (zip_with (λ r x, map (λ wij, Semiring.multiply sr wij x) r)
                       (rows w) col))
  else Raise ValueError.

(** [multiply(u, v)] on one-dimensional arrays of one length. *)
Definition multiply_vec (sr : Semiring.t R) (u v : list R) : res (list R) :=
  if decide (length u = length v)
  then Ok (zip_with (Semiring.multiply sr) u v)
  else Raise ValueError.

(** [a[indices, range(len(a))]]: cell [k] is [a[indices[k], k]]; the two
    index arrays must have one length. *)
Definition take_diagonal (a : array2 R) (indices : list nat) : res (list R) :=
  if decide (length indices = len a)
  then mapM (λ ik, get2 a (Z.of_nat ik.1) (Z.of_nat ik.2))
            (zip indices (seq 0 (len a)))
  else Raise IndexError.

(** One turn of the loop [for column_index in range(1, num_columns)].  The
    state is [(path_scores, predecessors)]. *)
Definition viterbi_column (sr : Semiring.t R) (return_best_path : bool)
    (node_scores : array2 R) (transition_weights : ndarray R)
    (st : array2 R * array2 Z) (column_index : nat)
  : res (array2 R * array2 Z) :=
  let '(path_scores, predecessors) := st in
  (* Find best predecessor state for each state. *)
  pred_transition_weights ←
    match transition_weights with
    | Dim3 slices (* transition_scores_by_item *) =>
        py_get slices (Z.of_nat column_index - 1)
    | Dim2 w => Ok w
    end;
  previous ← get_col path_scores (Z.of_nat column_index - 1);
  predecessor_scores ←
    multiply_newaxis sr pred_transition_weights previous;
  ' (summed_scores, predecessors) ←
    (if return_best_path then
       match Semiring.arg_sum sr with
       | Some arg_sum =>
           predecessor_indices ← reduce_axis0 arg_sum predecessor_scores;
           predecessors ← set_col predecessors (Z.of_nat column_index)
                                  (map Z.of_nat predecessor_indices);
           summed_scores ← take_diagonal predecessor_scores predecessor_indices;
           Ok (summed_scores, predecessors)
       | None => Raise TypeError
       end
     else
       summed_scores ← reduce_axis0 (Semiring.sum sr) predecessor_scores;
       Ok (summed_scores, predecessors));
  nodes ← get_col node_scores (Z.of_nat column_index);
  new_scores ← multiply_vec sr nodes summed_scores;
  path_scores ← set_col path_scores (Z.of_nat column_index) new_scores;
  Ok (path_scores, predecessors).

(** One turn of [for i in reversed(range(1, num_columns))]:
    [best_state_path[i - 1] = predecessors[best_state_path[i], i]]. *)
Definition reconstruct_step (predecessors : array2 Z)
    (best_state_path : list Z) (i : nat) : res (list Z) :=
  state ← py_get best_state_path (Z.of_nat i);
  predecessor ← get2 predecessors state (Z.of_nat i);
  py_set best_state_path (Z.of_nat i - 1) predecessor.

Definition reconstruct (predecessors : array2 Z) (best_state_path : list Z)
    (num_columns : nat) : res (list Z) :=
  foldM (reconstruct_step predecessors) best_state_path
        (rev (seq 1 (num_columns - 1))).

Definition run_viterbi (self : t) (node_scores : array2 R)
    (transition_weights : ndarray R) (return_best_path : bool)
  : res viterbi_result :=
  let sr := semiring self in
  _ ← py_assert (bool_decide (is_Some (Semiring.arg_sum sr))
                 || negb return_best_path);
  (* Declare arrays and initialize to base case values *)
  let path_scores :=
    np_empty garbage (shape0 node_scores) (shape1 node_scores) in
  first ← get_col node_scores 0;
  path_scores ← set_col path_scores 0 first;
  predecessors ←
    (if return_best_path
     then fill_col (np_empty garbage32 (shape0 node_scores)
                             (shape1 node_scores))
                   0 nan_as_int32
     else Ok (np_empty garbage32 0 0) (* unbound in the source *));
  (* Recursive case: compute each trellis column based on previous column *)
  let num_columns := shape1 node_scores in
  ' (path_scores, predecessors) ←
    foldM (viterbi_column sr return_best_path node_scores transition_weights)
          (path_scores, predecessors) (seq 1 (num_columns - 1));
  if return_best_path then
    match Semiring.arg_sum sr with
    | Some arg_sum =>
        (* Now reconstruct the best sequence from the predecessors matrix. *)
        let best_state_path := replicate num_columns garbage32 in
        final ← get_col path_scores (-1);
        best_final_index ← arg_sum final;
        best_state_path ←
          py_set best_state_path (-1) (Z.of_nat best_final_index);
        summed_score ← get2 path_scores (Z.of_nat best_final_index) (-1);
        best_state_path ← reconstruct predecessors best_state_path num_columns;
        match possible_states self with
        | Some (s :: states) =>
            labels ← mapM (py_get (s :: states)) best_state_path;
            Ok (ScoreAndPath summed_score (StateLabels labels))
        | _ => Ok (ScoreAndPath summed_score (StateIndices best_state_path))
        end
    | None => Raise TypeError
    end
  else
    final ← get_col path_scores (-1);
    summed_score ← Semiring.sum sr final;
    Ok (ScoreOnly summed_score).

(** [decode] always asks for the path and returns only the path. *)
Definition decode (self : t) (node_scores : array2 R)
    (transition_weights : ndarray R) : res state_path :=
  r ← run_viterbi self node_scores transition_weights true;
  match r with
  | ScoreAndPath _ best_path => Ok best_path
  | ScoreOnly _ => Raise TypeError
  end.

End defs.
Arguments t R L : clear implicits.
Arguments state_path L : clear implicits.
Arguments viterbi_result R L : clear implicits.
End ViterbiDecoder.

(** ** Integer scores

    Integers are scores that doubles hold exactly; they instantiate [Scalar]
    for the examples. *)

#[export] Instance Z_scalar : Scalar Z := {
  Rzero := 0%Z;
  Rone := 1%Z;
  Radd := Z.add;
  Rmul := Z.mul;
  Rgtb := Z.gtb
}.

(** The scores of numpy: binary64 floats.  [x > y] is false when either is
    NaN. *)
#[export] Instance float_scalar : Scalar float := {
  Rzero := 0%float;
  Rone := 1%float;
  Radd := add;
  Rmul := mul;
  Rgtb := λ x y, ltb y x
}.

(** The shape tuple with the cells, as [np.array(rows)] makes it. *)
Definition np_array {A} (rs : list (list A)) : array2 A :=
  Array2 (length rs) (length (default [] (head rs))) rs.

(** ** Strings *)

(** [s.split(sep)] for a one-character separator. *)
Fixpoint split (sep : Ascii.ascii) (s : string) : list string :=
  match s with
  | EmptyString => [EmptyString]
  | String c s' =>
      if decide (c = sep) then EmptyString :: split sep s'
      else match split sep s' with
           | w :: ws => String c w :: ws
           | [] => [String c EmptyString]
           end
  end.

(** [sep.join(l)] *)
Fixpoint join (sep : string) (l : list string) : string :=
  match l with
  | [] => EmptyString
  | [x] => x
  | x :: l' => (x +:+ sep +:+ join sep l')%string
  end.

(** [itertools.product] of the lists [ls]: the tuples in lexicographic
    order, the last component changing fastest. *)
Fixpoint product {A} (ls : list (list A)) : list (list A) :=
  match ls with
  | [] => [[]]
  | l :: ls' => flat_map (λ x, map (cons x) (product ls')) l
  end.

(** ** The feature-name dictionary *)

Module NameDictionary.

(** Modelled from the spec: [util.NameDictionary] is imported by
    [pipeline/models.py] and is not among the sources.  The spec makes it a
    bidirectional mapping between feature names and dense integer indices,
    contiguous and assigned in first-seen order; the test reads its
    [names_to_ids]; the model code calls [clear], [insert], [len], truth
    and lookup by name, which raises [KeyError] for an unknown name. *)
Record t : Type := Make {
  names_to_ids : gmap string nat;
  ids_to_names : list string
}.

Definition empty : t := Make ∅ [].

Definition clear (d : t) : t := empty.

Definition len (d : t) : nat := length (ids_to_names d).

Definition insert (entry : string) (d : t) : t :=
  match names_to_ids d !! entry with
  | Some _ => d
  | None => Make (<[entry := len d]> (names_to_ids d)) (ids_to_names d ++ [entry])
  end.

Definition getitem (d : t) (entry : string) : res nat :=
  match names_to_ids d !! entry with
  | Some i => Ok i
  | None => Raise KeyError
  end.

(** Truth of the object, as [assert d] tests it: it has a length. *)
Definition truth (d : t) : bool := negb (Nat.eqb (len d) 0).

End NameDictionary.

(** The names of a list in the order of their first occurrence. *)
Fixpoint first_seen (names : list string) : list string :=
  match names with
  | [] => []
  | name :: rest => name :: filter (λ other, other ≠ name) (first_seen rest)
  end.

(** The two directions of a dictionary agree: the index of a name is its
    position in [ids_to_names]. *)
Definition bidirectional (d : NameDictionary.t) : Prop :=
  ∀ name i, NameDictionary.names_to_ids d !! name = Some i
            ↔ NameDictionary.ids_to_names d !! i = Some name.

(** ** Feature extractors *)

Inductive FeatureTypes : Type := Categorical | Numerical.

Global Instance FeatureTypes_eq_dec : EqDecision FeatureTypes.
Proof. solve_decision. Defined.

Module FeatureExtractor.
Section defs.
Context {Part V TrainingData : Type}.

(** Modelled from the spec: the class [pipeline.feature_extractors.
    FeatureExtractor] is not among the sources.  The spec gives its
    interface: a stable name, a declared feature type, a training step, the
    subfeature names over a collection of parts; [models.py] also calls
    [extract] (whose results [ConjoinedFeatureExtractor.extract] joins as
    strings) and [extract_all] (one name-to-value mapping per part, iterated
    with [iteritems]).  [None] is Python's [None]. *)
Record t : Type := Make {
  name : string;
  feature_type : FeatureTypes;
  train : list Part → option TrainingData;
  extract_subfeature_names : list Part → list string;
  extract : Part → string;
  extract_all : list Part → list (list (string * V))
}.

End defs.
Arguments t Part V TrainingData : clear implicits.
End FeatureExtractor.

(** Modelled from the spec: a categorical [FeatureExtractor(name, fn)] as the
    test builds it.  The spec and the test give its subfeature names over
    parts, [name=value] for every distinct value of [fn]; here in first-seen
    order.  Its other methods are not exercised. *)
Definition categorical_extractor {Part V TrainingData : Type}
    (name : string) (fn : Part → Z)
  : FeatureExtractor.t Part V TrainingData :=
  let subfeature (part : Part) := (name +:+ "=" +:+ pretty (fn part))%string in
  FeatureExtractor.Make name Categorical
    (λ _, None)
    (λ parts, foldl (λ names part,
                       if decide (subfeature part ∈ names) then names
                       else names ++ [subfeature part]) [] parts)
    subfeature
    (λ _, []).

Module ConjoinedFeatureExtractor.
Section defs.
Context {Part V TrainingData : Type}.
Local Abbreviation extractor := (FeatureExtractor.t Part V TrainingData).
(** Modelled from the spec: [extract_all] is inherited from the absent base
    class; how it is computed from the instance's [extract] is a
    parameter. *)
Variable inherited_extract_all :
  (Part → string) → list Part → list (list (string * V)).

Definition SEPARATOR_char : Ascii.ascii := Ascii.ascii_of_nat 58.
Definition SEPARATOR : string := String SEPARATOR_char EmptyString.

Record t : Type := Make {
  name : string;
  feature_type : FeatureTypes;
  _extractors : list extractor
}.

Definition init (name : string) (extractors : list extractor) : res t :=
  _ ← foldM (λ _ e,
               if decide (FeatureExtractor.feature_type e ≠ Categorical)
               then Raise FeatureExtractionError
               else Ok tt) tt extractors;
  Ok (Make name Categorical extractors).

Definition extract_subfeature_names (self : t) (parts : list Part)
  : list string :=
  let subfeature_name_components :=
    map (λ e, FeatureExtractor.extract_subfeature_names e parts)
        (_extractors self) in
  map (join SEPARATOR) (product subfeature_name_components).

(** The loop trains every component and the method returns [None]. *)
Definition train (self : t) (parts : list Part) : option TrainingData :=
  let _ := map (λ e, FeatureExtractor.train e parts) (_extractors self) in
  None.

Definition extract (self : t) (part : Part) : string :=
  join SEPARATOR (map (λ e, FeatureExtractor.extract e part) (_extractors self)).

(** The instance seen through the [FeatureExtractor] interface. *)
Definition as_extractor (self : t) : extractor :=
  FeatureExtractor.Make (name self) (feature_type self)
    (train self) (extract_subfeature_names self) (extract self)
    (inherited_extract_all (extract self)).

End defs.
End ConjoinedFeatureExtractor.

(** ** Featurized models ([models.py], class [FeaturizedModel]) *)

Module FeaturizedModel.
Section defs.
Context {Part V TrainingData : Type}.
Local Abbreviation extractor := (FeatureExtractor.t Part V TrainingData).
Variable inherited_extract_all :
  (Part → string) → list Part → list (list (string * V)).

(** [part_type] is a class object; the model keeps what [isinstance(part,
    part_type)] answers. *)
Record t : Type := Make {
  part_type : Part → bool;
  feature_name_dictionary : NameDictionary.t;
  feature_extractors : list extractor;
  feature_training_data : option TrainingData;
  save_featurized : bool
}.

(** The subclass hooks; the base class raises [NotImplementedError]. *)
Variable _featurized_train : t → list Part → res t.
Variable _featurized_test : t → list Part → res t.

(** One turn of [for feature_name in selected_features] in [__init__]: the
    extractor appended to [self.feature_extractors]. *)
Definition resolve (feature_extractors : list extractor)
    (feature_name : string) : res extractor :=
  let extractor_names :=
    split ConjoinedFeatureExtractor.SEPARATOR_char feature_name in
  if decide (1 < length extractor_names) then
    let extractors :=
      filter (λ e, FeatureExtractor.name e ∈ extractor_names)
             feature_extractors in
    if decide (length extractors ≠ length extractor_names)
    then Raise UnrecognizedFlag
    else
      conjoined ← ConjoinedFeatureExtractor.init feature_name extractors;
      Ok (ConjoinedFeatureExtractor.as_extractor inherited_extract_all
            conjoined)
  else
    (* the generator stops at the first extractor of that name *)
    match list_find (λ e, FeatureExtractor.name e = feature_name)
                    feature_extractors with
    | Some (_, e) => Ok e
    | None => Raise UnrecognizedFlag
    end.

Definition init (part_type : Part → bool)
    (feature_extractors : list extractor) (selected_features : list string)
    (save_featurized : bool) : res t :=
  extractors ←
    foldM (λ acc feature_name,
             e ← resolve feature_extractors feature_name;
             Ok (acc ++ [e]))
          [] selected_features;
  Ok (Make part_type NameDictionary.empty extractors None save_featurized).

(** One turn of [for extractor in self.feature_extractors] in [train]. *)
Definition register (parts : list Part) (self : t) (e : extractor) : t :=
  let training_data := FeatureExtractor.train e parts in
  let subfeature_names := FeatureExtractor.extract_subfeature_names e parts in
  Make (part_type self)
       (foldl (λ d subfeature_name, NameDictionary.insert subfeature_name d)
              (feature_name_dictionary self) subfeature_names)
       (feature_extractors self)
       training_data
       (save_featurized self).

(** [train] up to the call of the hook: the state the hook receives. *)
Definition register_features (self : t) (parts : list Part) : t :=
  (* Reset state in case we've been previously trained. *)
  let self := Make (part_type self)
                   (NameDictionary.clear (feature_name_dictionary self))
                   (feature_extractors self)
                   None
                   (save_featurized self) in
  (* Build feature name dictionary. *)
  foldl (register parts) self (feature_extractors self).

Definition train (self : t) (parts : list Part) : res t :=
  let self := register_features self parts in
  _featurized_train self parts.

Definition test (self : t) (parts : list Part) : res t :=
  _ ← py_assert (NameDictionary.truth (feature_name_dictionary self));
  _featurized_test self parts.

End defs.
Arguments t Part V TrainingData : clear implicits.
End FeaturizedModel.

(** Every subfeature name the configured extractors produce over the parts,
    in extractor-list order. *)
Definition all_subfeature_names {Part V TrainingData : Type}
    (self : FeaturizedModel.t Part V TrainingData) (parts : list Part)
  : list string :=
  concat (map (λ e, FeatureExtractor.extract_subfeature_names e parts)
              (FeaturizedModel.feature_extractors self)).

(** ** Featurization ([models.py], [ClassifierModel._featurize]) *)

(** A [scipy.sparse.lil_matrix]: its shape and its stored cells. *)
Record lil_matrix (V : Type) : Type := LilMatrix {
  lil_shape : nat * nat;
  lil_cells : gmap (nat * nat) V
}.
Arguments LilMatrix {V} lil_shape lil_cells.
Arguments lil_shape {V} _.
Arguments lil_cells {V} _.

(** [m[i, j] = v] on a matrix of dtype [F]: the value is converted to the
    dtype ([astype]; [np.float32] in [_featurize]), and a value that is zero
    in the dtype is not stored: it removes what the cell held. *)
Definition lil_set {V F} (astype : V → F) (is_zero : F → bool)
    (m : lil_matrix F) (i j : nat) (v : V) : res (lil_matrix F) :=
  if decide (i < (lil_shape m).1 ∧ j < (lil_shape m).2)
  then
    let x := astype v in
    Ok (LilMatrix (lil_shape m)
          (if is_zero x then delete (i, j) (lil_cells m)
           else <[(i, j) := x]> (lil_cells m)))
  else Raise IndexError.

(** [try: body  except KeyError: handler] *)
Definition try_except_KeyError {A} (body : res A) (handler : res A) : res A :=
  match body with
  | Raise KeyError => handler
  | other => other
  end.

Module ClassifierModel.
Section defs.
Context {Part V TrainingData : Type}.
(** The cells of the feature matrix: [dtype=np.float32]. *)
Context {F : Type}.
Local Abbreviation model := (FeaturizedModel.t Part V TrainingData).
(** [part.label] *)
Variable label : Part → Z.
(** [subfeature_value == 0] *)
Variable is_zero : V → bool.
(** [np.float32(subfeature_value)], and whether a [float32] is zero. *)
Variable to_float32 : V → F.
Variable float32_is_zero : F → bool.

(** The body of [for subfeature_name, subfeature_value in ...iteritems()].
    The state is the matrix with the debug messages logged so far. *)
Definition featurize_cell (self : model) (part_index : nat)
    (st : lil_matrix F * list string) (item : string * V)
  : res (lil_matrix F * list string) :=
  let '(features, debug_log) := st in
  let '(subfeature_name, subfeature_value) := item in
  if is_zero subfeature_value
  then Ok st (* Don't bother setting 0's in a sparse matrix. *)
  else
    try_except_KeyError
      (feature_index ← NameDictionary.getitem
                         (FeaturizedModel.feature_name_dictionary self)
                         subfeature_name;
       features ← lil_set to_float32 float32_is_zero features part_index
                           feature_index subfeature_value;
       Ok (features, debug_log))
      (Ok (features,
           debug_log ++
             [("Ignoring unknown subfeature: " +:+ subfeature_name)%string])).

(** [_featurize] returns [(features, labels)]; the third component is what it
    logged at debug level.  (The copies kept on [self] under
    [save_featurized] and the timing are left out.) *)
Definition _featurize (self : model) (parts : list Part)
  : res (lil_matrix F * list Z * list string) :=
  let relevant_parts := filter (λ part, FeaturizedModel.part_type self part = true)
                               parts in
  let features : lil_matrix F :=
    LilMatrix (length relevant_parts,
               NameDictionary.len (FeaturizedModel.feature_name_dictionary self))
              ∅ in
  let labels := map label relevant_parts in
  ' (features, debug_log) ←
    foldM (λ st e,
             let feature_values_by_part := FeatureExtractor.extract_all e parts in
             foldM (λ st indexed,
                      foldM (featurize_cell self indexed.1) st indexed.2)
                   st (imap pair feature_values_by_part))
          (features, []) (FeaturizedModel.feature_extractors self);
  Ok (features, labels, debug_log).

End defs.
End ClassifierModel.

(** The cells are [float32]: the value of a float or of an integer rounded
    to 24 bits of precision, as numpy casts what is assigned to the matrix.
    A [float32] is held as the sign, mantissa and exponent of its value. *)
Definition float32_of_float (x : float) : spec_float :=
  match Prim2SF x with
  | S754_finite s m e => binary_normalize 24 128 (cond_Zopp s (Z.pos m)) e s
  | other => other
  end.

Definition float32_of_int (z : Z) : spec_float :=
  binary_normalize 24 128 z 0 false.

Definition float32_is_zero (x : spec_float) : bool :=
  match x with
  | S754_zero _ => true
  | _ => false
  end.

(** ** Class rebalancing ([models.py], [ClassBalancingModelWrapper]) *)

(** The ratio is a Python float, that is a binary64 ([float('inf')] by
    default); an integer given for it has the same effect as its float
    while the products below stay under [2^53]. *)

(** The conversion of an [int64] to [float64]: the nearest float. *)
Definition float_of_int (z : Z) : float :=
  if (z <? 0)%Z then (- of_uint63 (Uint63.of_Z (- z)))%float
  else of_uint63 (Uint63.of_Z z).

(** [int(x)] of a float truncates toward zero; it raises on NaN and on the
    infinities. *)
Definition py_int (x : float) : res Z :=
  match Prim2SF x with
  | S754_nan => Raise ValueError
  | S754_infinity _ => Raise OverflowError
  | S754_zero _ => Ok 0%Z
  | S754_finite s m e => Ok (cond_Zopp s (Z.shiftl (Z.pos m) e))
  end.

(** [l[:k]] *)
Definition py_prefix {A} (l : list A) (k : Z) : list A :=
  if decide (0 ≤ k)%Z then take (Z.to_nat k) l
  else take (length l - Z.to_nat (- k)) l.

(** [np.tile(l, (k,))] *)
Definition np_tile {A} (l : list A) (k : Z) : res (list A) :=
  if decide (0 ≤ k)%Z then Ok (mjoin (replicate (Z.to_nat k) l))
  else Raise ValueError.

(** [np.cumsum] *)
Fixpoint cumsum_from (acc : Z) (l : list Z) : list Z :=
  match l with
  | [] => []
  | x :: l' => (acc + x)%Z :: cumsum_from (acc + x)%Z l'
  end.
Definition np_cumsum (l : list Z) : list Z := cumsum_from 0%Z l.

(** [a[lo:hi] = new] on the first axis, for non-negative bounds: the slice
    is clipped to the array and [new] must fill it row for row. *)
Definition assign_slice {A} (a : list A) (lo hi : nat) (new : list A)
  : res (list A) :=
  let lo' := lo `min` length a in
  let hi' := lo' `max` (hi `min` length a) in
  if decide (length new = hi' - lo')
  then Ok (take lo' a ++ new ++ drop hi' a)
  else Raise ValueError.

(** [a[indices]] for an array of row indices. *)
Definition take_rows {A} (a : list A) (indices : list nat) : res (list A) :=
  mapM (λ i, match a !! i with Some x => Ok x | None => Raise IndexError end)
       indices.

(** [np.unique(labels, return_inverse=True, return_counts=True)] *)
Definition np_unique (labels : list Z) : list Z * list nat * list nat :=
  let label_set := merge_sort Z.le (remove_dups labels) in
  let label_indices :=
    map (λ l, default 0 (fst <$> list_find (λ u, u = l) label_set)) labels in
  let label_counts :=
    map (λ u, length (filter (λ l, l = u) labels)) label_set in
  (label_set, label_indices, label_counts).

(** [a.max()] of an integer array *)
Definition max_of (l : list nat) : res nat :=
  match l with
  | [] => Raise ValueError
  | x :: l' => Ok (foldl Nat.max x l')
  end.

Module ClassBalancingModelWrapper.
Section defs.
Context {V : Type}.
(** The cell of a fresh [lil_matrix]. *)
Variable zero : V.
(** What [np.empty] finds in memory. *)
Variable garbage : Z.
(** [FLAGS.rebalance_stochastically] *)
Variable rebalance_stochastically : bool.
(** [np.random.choice(population, size)] *)
Variable random_choice : list nat → Z → list nat.

(** [int(min(max_count - current_count, (ratio - 1) * current_count))]: the
    counts are [int64], the product is a [float64], and [min(a, b)] keeps
    [a] unless [b < a], the integer compared as a float. *)
Definition count_to_add (ratio : float) (max_count current_count : nat)
  : res Z :=
  let room := (Z.of_nat max_count - Z.of_nat current_count)%Z in
  (* -1 adjusts for the current_count we already have *)
  let allowed :=
    ((ratio - 1) * float_of_int (Z.of_nat current_count))%float in
  if (allowed <? float_of_int room)%float then py_int allowed else Ok room.

Definition counts_to_add (ratio : float) (label_counts : list nat)
  : res (list Z) :=
  max_count ← max_of label_counts;
  mapM (count_to_add ratio max_count) label_counts.

(** The rows picked for class [j]: [indices] after the [if]/[else]. *)
Definition pick_indices (label_indices : list nat) (count : Z) (j : nat)
  : res (list nat) :=
  (* np.where(label_indices==j)[0] *)
  let label_row_indices :=
    omap (λ ij : nat * nat, if decide (ij.2 = j) then Some ij.1 else None)
         (imap pair label_indices) in
  if rebalance_stochastically then
    Ok (random_choice label_row_indices count)
  else
    full_repetitions ←
      (if decide (length label_row_indices = 0) then Raise ZeroDivisionError
       else Ok (count `div` Z.of_nat (length label_row_indices))%Z);
    indices ← np_tile label_row_indices full_repetitions;
    let still_needed := (count - Z.of_nat (length indices))%Z in
    if decide (still_needed ≠ 0%Z)
    then Ok (indices ++ py_prefix label_row_indices still_needed)
    else Ok indices.

(** One turn of [for j in xrange(len(label_set))].  The state is
    [(rebalanced_data, rebalanced_labels)]. *)
Definition rebalance_class (data : array2 V) (labels : list Z)
    (label_indices : list nat) (counts : list Z) (slices : list Z)
    (st : list (list V) * list Z) (j : nat)
  : res (list (list V) * list Z) :=
  let '(rebalanced_data, rebalanced_labels) := st in
  count ← py_get counts (Z.of_nat j);
  indices ← pick_indices label_indices count j;
  (* Only bother to actually rebalance if there are changes to be made *)
  if decide (length indices ≠ 0) then
    lo ← py_get slices (Z.of_nat j);
    hi ← py_get slices (Z.of_nat j + 1);
    new_data ← take_rows (rows data) indices;
    rebalanced_data ←
      assign_slice rebalanced_data (Z.to_nat lo) (Z.to_nat hi) new_data;
    new_labels ← take_rows labels indices;
    rebalanced_labels ←
      assign_slice rebalanced_labels (Z.to_nat lo) (Z.to_nat hi) new_labels;
    Ok (rebalanced_data, rebalanced_labels)
  else Ok st.

Definition rebalance (data : array2 V) (labels : list Z) (ratio : float)
  : res (array2 V * list Z) :=
  if (ratio <=? 1)%float
  then Ok (data, labels) (* No increase *)
  else
    let '(label_set, label_indices, label_counts) := np_unique labels in
    counts ← counts_to_add ratio label_counts;
    let rows_to_add := foldl Z.add 0%Z counts in
    if decide (rows_to_add = 0%Z) then Ok (data, labels)
    else
      let rebalanced_data :=
        replicate (Z.to_nat rows_to_add) (replicate (shape1 data) zero) in
      let rebalanced_labels := replicate (Z.to_nat rows_to_add) garbage in
      let slices := 0%Z :: np_cumsum counts in
      ' (rebalanced_data, rebalanced_labels) ←
        foldM (rebalance_class data labels label_indices counts slices)
              (rebalanced_data, rebalanced_labels)
              (seq 0 (length label_set));
      Ok (Array2 (shape0 data + Z.to_nat rows_to_add) (shape1 data)
                 (rows data ++ rebalanced_data),
          labels ++ rebalanced_labels).

End defs.
End ClassBalancingModelWrapper.

(** ** The trellis by enumeration

    What the specification compares the decoder with: every state path
    scored on its own. *)

Section brute_force.
Context {R : Type} `{Scalar R}.

(** Cell [(i, j)] of a matrix. *)
Definition at2 (a : array2 R) (i j : nat) : R :=
  default Rzero (rows a !! i ≫= (.!! j)).

(** The weight of the transition from state [i] at position [t] to state
    [j] at position [t + 1]. *)
Definition transition_at (transition_weights : ndarray R) (t i j : nat) : R :=
  match transition_weights with
  | Dim2 w => at2 w i j
  | Dim3 slices => from_option (λ w, at2 w i j) Rzero (slices !! t)
  end.

Definition state_at (path : list nat) (t : nat) : nat := default 0 (path !! t).

(** The product of the node scores along the path, times the product of the
    weights of its transitions. *)
Definition path_score (node_scores : array2 R) (transition_weights : ndarray R)
    (path : list nat) : R :=
  Rmul
    (foldl (λ acc t, Rmul acc (at2 node_scores (state_at path t) t))
           Rone (seq 0 (length path)))
    (foldl (λ acc t, Rmul acc (transition_at transition_weights t
                                  (state_at path t) (state_at path (S t))))
           Rone (seq 0 (length path - 1))).

(** All state paths over [num_positions] positions. *)
Fixpoint all_paths (num_states num_positions : nat) : list (list nat) :=
  match num_positions with
  | 0 => [[]]
  | S n =>
      flat_map (λ s, map (λ p, p ++ [s]) (all_paths num_states n))
               (seq 0 num_states)
  end.

Definition brute_force_score (node_scores : array2 R)
    (transition_weights : ndarray R) : R :=
  foldl Radd Rzero
        (map (path_score node_scores transition_weights)
             (all_paths (shape0 node_scores) (shape1 node_scores))).

(** The shapes the docstring of [run_viterbi] asks for. *)
Definition valid_trellis (node_scores : array2 R)
    (transition_weights : ndarray R) : Prop :=
  wf_array2 node_scores ∧ 1 ≤ shape1 node_scores ∧
  let square (w : array2 R) :=
    wf_array2 w ∧ shape0 w = shape0 node_scores
    ∧ shape1 w = shape0 node_scores in
  match transition_weights with
  | Dim2 w => square w
  | Dim3 slices =>
      length slices = shape1 node_scores - 1 ∧ Forall square slices
  end.

(** A trellis of [num_states] by [num_positions] whose node scores all equal
    [node_score] and whose transition weights all equal [weight]. *)
Definition constant_nodes (num_states num_positions : nat) (node_score : R)
  : array2 R :=
  Array2 num_states num_positions
         (replicate num_states (replicate num_positions node_score)).

Definition constant_transitions (by_item : bool)
    (num_states num_positions : nat) (weight : R) : ndarray R :=
  let w := Array2 num_states num_states
                  (replicate num_states (replicate num_states weight)) in
  if by_item then Dim3 (replicate (num_positions - 1) w) else Dim2 w.

End brute_force.

(** ** The forward recursion

    The score column the loop of [run_viterbi] writes at position [t] when no
    path is asked for, by recursion on [t]. *)

Section forward.
Context {R : Type} `{Scalar R}.

(** The value of [semiring.sum] where it returns. *)
Definition sum_of (sr : Semiring.t R) (l : list R) : R :=
  match Semiring.sum sr l with
  | Ok x => x
  | Raise _ => Rzero
  end.

Fixpoint forward (sr : Semiring.t R) (node_scores : array2 R)
    (transition_weights : ndarray R) (t j : nat) : R :=
  match t with
  | 0 => at2 node_scores j 0
  | S t' =>
      Semiring.multiply sr (at2 node_scores j t)
        (sum_of sr
           (map (λ i, Semiring.multiply sr
                        (transition_at transition_weights t' i j)
                        (forward sr node_scores transition_weights t' i))
                (seq 0 (shape0 node_scores))))
  end.

End forward.

Global Instance wf_array2_dec {A} (a : array2 A) : Decision (wf_array2 a).
Proof. unfold wf_array2. apply _. Defined.

Global Instance valid_trellis_dec `{Scalar R} (node_scores : array2 R)
  (transition_weights : ndarray R) :
  Decision (valid_trellis node_scores transition_weights).
Proof. unfold valid_trellis. destruct transition_weights; apply _. Defined.

(** Backpointer arrays that agree at every column index from 1 on. *)
Definition agree_from_column1 (p1 p2 : array2 Z) : Prop :=
  shape0 p1 = shape0 p2 ∧ shape1 p1 = shape1 p2 ∧
  Forall2 (λ r1 r2, length r1 = length r2 ∧ ∀ j, 1 ≤ j → r1 !! j = r2 !! j)
          (rows p1) (rows p2).

(** The score of the path that stays in one state of a constant trellis, after
    [t] transitions. *)
Fixpoint constant_score {R} (sr : Semiring.t R) (node_score weight : R)
    (t : nat) : R :=
  match t with
  | 0 => node_score
  | S t' =>
      Semiring.multiply sr node_score
        (Semiring.multiply sr weight (constant_score sr node_score weight t'))
  end.

(** The invariant of the decoding loop on a constant trellis: the score
    column last written, of index [c], is constant, and the backpointers
    written so far, in columns 1 to [c], all point to state 0. *)
Definition tied_columns {R} (sr : Semiring.t R)
    (num_states num_positions : nat) (node_score weight : R) (c : nat)
    (st : array2 R * array2 Z) : Prop :=
  wf_array2 st.1 ∧ shape0 st.1 = num_states ∧ shape1 st.1 = num_positions
  ∧ get_col st.1 (Z.of_nat c)
    = Ok (replicate num_states (constant_score sr node_score weight c))
  ∧ wf_array2 st.2 ∧ shape0 st.2 = num_states ∧ shape1 st.2 = num_positions
  ∧ ∀ i r j, rows st.2 !! i = Some r → 1 ≤ j ≤ c → r !! j = Some 0%Z.

(** The trellis of the specification's scenario: states A and B, three
    positions, the second favouring B. *)
Definition example_nodes : array2 Z := np_array [[1; 1; 1]; [1; 2; 1]]%Z.
Definition example_transitions : ndarray Z := Dim2 (np_array [[1; 1]; [1; 1]]%Z).
Definition example_states : list string := ["A"; "B"]%string.

(** A trellis of integer scores whose paths do not add up exactly in
    binary64: as the integers, and as the floats numpy holds for them. *)
Definition large_nodes_exact : array2 Z :=
  np_array [[9007199254740992; 1]; [1; 1]]%Z.
Definition large_transitions_exact : ndarray Z :=
  Dim2 (np_array [[1; 1]; [1; 1]]%Z).
Definition large_nodes : array2 float :=
  np_array [[9007199254740992; 1]; [1; 1]]%float.
Definition large_transitions : ndarray float :=
  Dim2 (np_array [[1; 1]; [1; 1]]%float).

(** The node scores 0.1, 0.2 (state 0) and 0.3, 0.4 (state 1) as numpy reads
    them, with every transition weight 1. *)
Definition decimal_nodes : array2 float :=
  np_array [[0x1.999999999999ap-4; 0x1.999999999999ap-3];
            [0x1.3333333333333p-2; 0x1.999999999999ap-2]]%float.
Definition decimal_transitions : ndarray float :=
  Dim2 (np_array [[1; 1]; [1; 1]]%float).

(** The extractors of the test: [identity] and [add1] over integer parts. *)
Definition identity_extractor : FeatureExtractor.t Z Z unit :=
  categorical_extractor "identity" (λ x, x).
Definition add1_extractor : FeatureExtractor.t Z Z unit :=
  categorical_extractor "add1" (λ x, (x + 1)%Z).

(** A subclass whose hooks do nothing. *)
Definition no_hook (self : FeaturizedModel.t Z Z unit) (parts : list Z)
  : res (FeaturizedModel.t Z Z unit) := Ok self.

(** An [extract_all] for the conjoined extractor of the examples: the joined
    value as an indicator. *)
Definition indicator_extract_all (extract : Z → string) (parts : list Z)
  : list (list (string * Z)) :=
  map (λ part, [(extract part, 1%Z)]) parts.

(** The model of the test: [identity], [add1] and their conjunction. *)
Definition example_model : FeaturizedModel.t Z Z unit :=
  FeaturizedModel.Make (λ _, true) NameDictionary.empty
    [identity_extractor; add1_extractor;
     ConjoinedFeatureExtractor.as_extractor indicator_extract_all
       (ConjoinedFeatureExtractor.Make "identity:add1" Categorical
          [identity_extractor; add1_extractor])]
    None false.

(** The data of [SmallClassBalancingTest]: three rows of class 1 and one of
    class 0. *)
Definition example_data : array2 Z :=
  np_array [[1; 2; 3]; [4; 5; 6]; [7; 8; 9]; [10; 11; 12]]%Z.
Definition example_labels : list Z := [1; 1; 0; 1]%Z.

(** A stand-in for [np.random.choice]: the first member, [size] times. *)
Definition first_member_choice (population : list nat) (size : Z) : list nat :=
  replicate (Z.to_nat size) (default 0 (head population)).

(** How many rows carry the label. *)
Definition count_label (label : Z) (labels : list Z) : nat :=
  length (filter (λ l, l = label) labels).

(** A row and its label are a copy of a row of the data with that label. *)
Definition copy_of {V} (data : array2 V) (labels : list Z)
    (row : list V) (label : Z) : Prop :=
  ∃ i, rows data !! i = Some row ∧ labels !! i = Some label.

(** What [np.random.choice(population, size)] is relied on for, where
    [rebalance] calls it (on the rows of a class, of which there is at least
    one, for a size that is not negative): [size] draws, each from the
    population. *)
Definition draws_from_population (random_choice : list nat → Z → list nat)
  : Prop :=
  ∀ population size,
    population ≠ [] → (0 ≤ size)%Z →
    length (random_choice population size) = Z.to_nat size
    ∧ Forall (λ i, i ∈ population) (random_choice population size).

(** The labels appended by [rebalance]: for each class in turn, its label
    as many times as rows are added for it. *)
Definition added_labels (label_set : list Z) (counts : list nat) : list Z :=
  concat (zip_with (λ label count, replicate count label) label_set counts).

(** Integers form a commutative semiring. *)
Definition Z_semi_ring : semi_ring_theory (R:=Z) Rzero Rone Radd Rmul eq.
Proof.
  constructor; simpl; intros; lia.
Defined.


(** ** The best-path recursion

    What the loop of [run_viterbi] writes when a path is asked for and
    [arg_sum] is [np.argmax]: the score column and the backpointers, by
    recursion on the position. *)

Section best_path_recursion.
Context {R : Type} `{Scalar R}.

(** The index [np.argmax] returns, where it returns. *)
Definition argmax_of (l : list R) : nat :=
  match np_argmax l with
  | Ok k => k
  | Raise _ => 0
  end.

(** [viterbi_scores t j] is [path_scores[j, t]];
    the scores of the predecessors of [j] are the column
    [multiply(transition[i, j], path_scores[i, t - 1])] over [i]. *)
Fixpoint viterbi_scores (sr : Semiring.t R) (node_scores : array2 R)
    (transition_weights : ndarray R) (t j : nat) : R :=
  match t with
  | 0 => at2 node_scores j 0
  | S t' =>
      let predecessor_scores :=
        map (λ i, Semiring.multiply sr
                    (transition_at transition_weights t' i j)
                    (viterbi_scores sr node_scores transition_weights t' i))
            (seq 0 (shape0 node_scores)) in
      Semiring.multiply sr (at2 node_scores j t)
        (default Rzero
           (predecessor_scores !! argmax_of predecessor_scores))
  end.

(** [best_predecessor t j] is [predecessors[j, t + 1]]. *)
Definition best_predecessor (sr : Semiring.t R) (node_scores : array2 R)
    (transition_weights : ndarray R) (t j : nat) : nat :=
  argmax_of
    (map (λ i, Semiring.multiply sr
                 (transition_at transition_weights t i j)
                 (viterbi_scores sr node_scores transition_weights t i))
         (seq 0 (shape0 node_scores))).

(** The path the backward loop rebuilds from [state] at position [t]. *)
Fixpoint best_path_to (sr : Semiring.t R) (node_scores : array2 R)
    (transition_weights : ndarray R) (t state : nat) : list nat :=
  match t with
  | 0 => [state]
  | S t' =>
      best_path_to sr node_scores transition_weights t'
        (best_predecessor sr node_scores transition_weights t' state)
      ++ [state]
  end.

(** The state [run_viterbi] ends the best path in. *)
Definition best_final_state (sr : Semiring.t R) (node_scores : array2 R)
    (transition_weights : ndarray R) : nat :=
  argmax_of (map (viterbi_scores sr node_scores transition_weights
                    (shape1 node_scores - 1))
                 (seq 0 (shape0 node_scores))).

Definition best_path (sr : Semiring.t R) (node_scores : array2 R)
    (transition_weights : ndarray R) : list nat :=
  best_path_to sr node_scores transition_weights (shape1 node_scores - 1)
    (best_final_state sr node_scores transition_weights).

(** The score of a path as the loop accumulates it: the node score at a
    position, combined by the semiring's [multiply] with the weight of the
    transition into it and the score of the path up to the position
    before. *)
Fixpoint score_upto (sr : Semiring.t R) (node_scores : array2 R)
    (transition_weights : ndarray R) (path : list nat) (t : nat) : R :=
  match t with
  | 0 => at2 node_scores (state_at path 0) 0
  | S t' =>
      Semiring.multiply sr (at2 node_scores (state_at path t) t)
        (Semiring.multiply sr
           (transition_at transition_weights t' (state_at path t')
              (state_at path t))
           (score_upto sr node_scores transition_weights path t'))
  end.

Definition chain_score (sr : Semiring.t R) (node_scores : array2 R)
    (transition_weights : ndarray R) (path : list nat) : R :=
  score_upto sr node_scores transition_weights path (length path - 1).

(** [x <= y] as numpy's [>] decides it. *)
Definition not_greater (x y : R) : Prop := Rgtb x y = false.

(** The path as [run_viterbi] returns it. *)
Definition returned_path {L} (possible_states : option (list L))
    (path : list nat) : res (ViterbiDecoder.state_path L) :=
  match possible_states with
  | Some (s :: states) =>
      labels ← mapM (py_get (s :: states)) (map Z.of_nat path);
      Ok (ViterbiDecoder.StateLabels labels)
  | _ => Ok (ViterbiDecoder.StateIndices (map Z.of_nat path))
  end.

End best_path_recursion.

(** A trellis of binary64 scores that are 0.0 or 1.0: two states, three
    items; state 0 is ruled out at the second item, state 1 at the third,
    and no transition leads from state 0 to state 1. *)
Definition binary_nodes : array2 float :=
  np_array [[1; 0; 1]; [1; 1; 0]]%float.
Definition binary_transitions : ndarray float :=
  Dim2 (np_array [[1; 0]; [1; 1]]%float).
Definition zero_or_one (x : float) : Prop := x = 0%float ∨ x = 1%float.

(** Natural numbers as non-negative scores. *)
Definition N_scalar : Scalar N := {|
  Rzero := 0%N;
  Rone := 1%N;
  Radd := N.add;
  Rmul := N.mul;
  Rgtb := λ x y, N.ltb y x
|}.

(** The invariant of the decoding loop when a path is asked for: the score
    column last written, of index [c], and the backpointers of the columns 1
    to [c] are those of the recursion. *)
Definition decoded_columns {R} `{Scalar R} (sr : Semiring.t R)
    (node_scores : array2 R) (transition_weights : ndarray R) (c : nat)
    (st : array2 R * array2 Z) : Prop :=
  wf_array2 st.1 ∧ shape0 st.1 = shape0 node_scores
  ∧ shape1 st.1 = shape1 node_scores
  ∧ get_col st.1 (Z.of_nat c)
    = Ok (map (viterbi_scores sr node_scores transition_weights c)
              (seq 0 (shape0 node_scores)))
  ∧ wf_array2 st.2 ∧ shape0 st.2 = shape0 node_scores
  ∧ shape1 st.2 = shape1 node_scores
  ∧ ∀ j r c', rows st.2 !! j = Some r → 1 ≤ c' ≤ c →
      r !! c' = Some (Z.of_nat (best_predecessor sr node_scores
                                  transition_weights (c' - 1) j)).

(** ** Selecting the feature extractors *)

(** The extractor [FeaturizedModel.__init__] takes for a simple name: the
    first one in [feature_extractors] that has the name. *)
Definition first_named {Part V TrainingData : Type}
    (feature_extractors : list (FeatureExtractor.t Part V TrainingData))
    (feature_name : string) (e : FeatureExtractor.t Part V TrainingData)
  : Prop :=
  ∃ i, feature_extractors !! i = Some e
       ∧ FeatureExtractor.name e = feature_name
       ∧ ∀ j e', feature_extractors !! j = Some e' → j < i →
           FeatureExtractor.name e' ≠ feature_name.

(** A numerical extractor for the examples: the part itself as the value of
    the one feature [size]. *)
Definition size_extractor : FeatureExtractor.t Z Z unit :=
  FeatureExtractor.Make "size" Numerical
    (λ _, None)
    (λ _, ["size"]%string)
    (λ _, "size"%string)
    (λ parts, map (λ part, [("size"%string, part)]) parts).

(** ** What [_featurize] writes *)

Section featurize_writes.
Context {Part V TrainingData F : Type}.
Variable is_zero : V → bool.
Variable to_float32 : V → F.
Variable float32_is_zero : F → bool.

(** The loops of [_featurize] reach the assignment
    [features[part_index, feature_name_dictionary[name]] = value]: some
    configured extractor gives, for the part at [part_index] of [parts], the
    non-zero [value] under a [name] the dictionary knows. *)
Definition writes_cell (self : FeaturizedModel.t Part V TrainingData)
    (parts : list Part) (part_index : nat) (name : string) (value : V)
  : Prop :=
  ∃ e mapping,
    e ∈ FeaturizedModel.feature_extractors self
    ∧ FeatureExtractor.extract_all e parts !! part_index = Some mapping
    ∧ (name, value) ∈ mapping
    ∧ is_zero value = false
    ∧ is_Some (NameDictionary.names_to_ids
                 (FeaturizedModel.feature_name_dictionary self) !! name).

(** What cell [(i, j)] holds after [features[i, j] = value]: the value as a
    [float32], or nothing when that is zero. *)
Definition cell_after (value : V) : option F :=
  let x := to_float32 value in
  if float32_is_zero x then None else Some x.

(** The matrix between two assignments: it has one row per relevant part
    and one column per dictionary entry, and every stored cell holds the
    [float32] of a value written there by such an assignment. *)
Definition featurizing (self : FeaturizedModel.t Part V TrainingData)
    (parts : list Part) (st : lil_matrix F * list string) : Prop :=
  let dictionary := FeaturizedModel.feature_name_dictionary self in
  let relevant_parts :=
    filter (λ part, FeaturizedModel.part_type self part = true) parts in
  lil_shape st.1 = (length relevant_parts, NameDictionary.len dictionary)
  ∧ ∀ i j x, lil_cells st.1 !! (i, j) = Some x →
      i < length relevant_parts
      ∧ float32_is_zero x = false
      ∧ ∃ name v, x = to_float32 v
                  ∧ writes_cell self parts i name v
                  ∧ NameDictionary.names_to_ids dictionary !! name = Some j.

(** The cell of the part at [key.1] under the name [key.2] is as the last
    assignment to it left it. *)
Definition written (self : FeaturizedModel.t Part V TrainingData)
    (parts : list Part) (key : nat * string)
    (st : lil_matrix F * list string) : Prop :=
  ∃ v j,
    writes_cell self parts key.1 key.2 v
    ∧ NameDictionary.names_to_ids
        (FeaturizedModel.feature_name_dictionary self) !! key.2 = Some j
    ∧ lil_cells st.1 !! (key.1, j) = cell_after v.

(** An assignment to a row the matrix does not have. *)
Definition misplaced (self : FeaturizedModel.t Part V TrainingData)
    (parts : list Part) (part_index : nat) (item : string * V) : Prop :=
  writes_cell self parts part_index item.1 item.2
  ∧ length (filter (λ part, FeaturizedModel.part_type self part = true) parts)
    ≤ part_index.

End featurize_writes.

(** A model whose part type takes the part [1] only. *)
Definition ones_only_model : FeaturizedModel.t Z Z unit :=
  FeaturizedModel.register_features
    (FeaturizedModel.Make (λ part, Z.eqb part 1)
       (FeaturizedModel.feature_name_dictionary example_model)
       (FeaturizedModel.feature_extractors example_model)
       None false)
    [1; 2]%Z.

(** ** Class balancing *)

(** [ratio <= 1.0] is false: the ratios for which [rebalance] goes on to
    add rows, those above 1 (and NaN, which compares false). *)
Definition above_one (ratio : float) : Prop := (ratio <=? 1)%float = false.

(** The binary64 float of a positive integer below [2^53]: the integer
    shifted to a mantissa of 53 bits. *)
Definition float_of_positive (p : positive) : spec_float :=
  S754_finite false
    (Pos.shiftl p (Z.to_N (53 - Z.pos (digits2_pos p))))
    (Z.pos (digits2_pos p) - 53).

(** [a.astype(dtype)], cell by cell. *)
Definition array2_map {A B} (f : A → B) (a : array2 A) : array2 B :=
  Array2 (shape0 a) (shape1 a) (map (map f) (rows a)).

Definition ndarray_map {A B} (f : A → B) (w : ndarray A) : ndarray B :=
  match w with
  | Dim2 w => Dim2 (array2_map f w)
  | Dim3 slices => Dim3 (map (array2_map f) slices)
  end.

(** A trellis of integer scores, all at least 1. *)
Definition positive_scores (node_scores : array2 Z)
    (transition_weights : ndarray Z) : Prop :=
  (∀ j t, j < shape0 node_scores → t < shape1 node_scores →
     (1 ≤ at2 node_scores j t)%Z)
  ∧ (∀ t i j, S t < shape1 node_scores →
       i < shape0 node_scores → j < shape0 node_scores →
       (1 ≤ transition_at transition_weights t i j)%Z).

(** A float that is not below zero: a zero, a positive number, plus
    infinity, or NaN. *)
Definition nonneg_or_nan (x : spec_float) : Prop :=
  match x with
  | S754_zero _ | S754_nan => True
  | S754_infinity s | S754_finite s _ _ => s = false
  end.

(** ** Shared functions of the pipeline stages ([causality/stages/__init__.py]) *)

(** [l.remove(x)]: the list without the first item equal to [x];
    [ValueError] when there is none. *)
Fixpoint list_remove {A} `{EqDecision A} (x : A) (l : list A) : res (list A) :=
  match l with
  | [] => Raise ValueError
  | y :: l' =>
      if decide (y = x) then Ok l'
      else l'' ← list_remove x l'; Ok (y :: l'')
  end.

Section stages.
(** The tokens of a sentence, with Python's [==] on them as equality;
    an argument that is absent is [None]. *)
Context {Token : Type} `{EqDecision Token}.
Variable start_offset : Token → Z.

Definition token_pair : Type := option Token * option Token.

Definition starts_before (token_1 token_2 : option Token) : bool :=
  (* None, if present as an argument, should be second. *)
  match token_2, token_1 with
  | None, _ => true
  | Some _, None => false
  | Some token_2, Some token_1 =>
      Z.gtb (start_offset token_2) (start_offset token_1)
  end.

Definition normalize_order (pair : token_pair) : token_pair :=
  if starts_before pair.1 pair.2 then pair else (pair.2, pair.1).

(** The body of [for found_pair in found_pairs].  The state is
    [(expected_pairs, tp, fp)] with the pairs handed so far to
    [tp_pairs.append] and to [fp_pairs.append]. *)
Definition match_found
    (st : list token_pair * nat * nat * list token_pair * list token_pair)
    (found_pair : token_pair)
  : list token_pair * nat * nat * list token_pair * list token_pair :=
  let '(expected_pairs, tp, fp, tp_pairs, fp_pairs) := st in
  match list_remove found_pair expected_pairs with
  | Ok expected_pairs =>
      (expected_pairs, tp + 1, fp, tp_pairs ++ [found_pair], fp_pairs)
  | Raise _ (* ValueError: found_pair wasn't in expected_pairs *) =>
      (expected_pairs, tp, fp + 1, tp_pairs, fp_pairs ++ [found_pair])
  end.

(** [match_causation_pairs] returns [(tp, fp, fn)]; the second component is
    what it records: the pairs it appends, in order, to [tp_pairs], to
    [fp_pairs] and to [fn_pairs] (each ignored by the source when the list
    is [None]). *)
Definition match_causation_pairs (expected_pairs found_pairs : list token_pair)
  : (nat * nat * nat)
    * (list token_pair * list token_pair * list token_pair) :=
  let found_pairs := map normalize_order found_pairs in
  let expected_pairs := map normalize_order expected_pairs in
  let '(expected_pairs, tp, fp, tp_pairs, fp_pairs) :=
    foldl match_found (expected_pairs, 0, 0, [], []) found_pairs in
  let fn := 0 + length expected_pairs in
  ((tp, fp, fn), (tp_pairs, fp_pairs, expected_pairs)).

(** The first token of the pair starts no later than the second; an absent
    token comes second. *)
Definition first_starts_first (pair : token_pair) : Prop :=
  match pair with
  | (_, None) => True
  | (None, Some _) => False
  | (Some token_1, Some token_2) =>
      (start_offset token_1 ≤ start_offset token_2)%Z
  end.

(** Two tokens, not the same, that start at the same offset. *)
Definition tied_start (pair : token_pair) : Prop :=
  match pair with
  | (Some token_1, Some token_2) =>
      start_offset token_1 = start_offset token_2 ∧ token_1 ≠ token_2
  | _ => False
  end.

End stages.

(** ** Structured models ([structured.py], class [StructuredModel]) *)

Module StructuredModel.
Section defs.
Context {Instance Part Scores Output : Type}.

(** The decoder with the hooks a subclass defines (the base class raises
    [NotImplementedError] in both). *)
Record t : Type := Make {
  decoder : Instance → list Part → Scores → res Output;
  _make_parts : Instance → res (list Part);
  _score_parts : Instance → list Part → res Scores
}.

Definition test (self : t) (instances : list Instance) : res (list Output) :=
  parts_by_instance ← mapM (_make_parts self) instances;
  foldM (λ outputs_by_instance (item : Instance * list Part),
           let '(instance, instance_parts) := item in
           part_scores ← _score_parts self instance instance_parts;
           output ← decoder self instance instance_parts part_scores;
           Ok (outputs_by_instance ++ [output]))
        [] (zip instances parts_by_instance).

End defs.
Arguments t Instance Part Scores Output : clear implicits.
End StructuredModel.

(** [structured.py], class [SequenceScores] *)
Record SequenceScores (R : Type) : Type := MakeSequenceScores {
  node_scores : array2 R;
  transition_weights : ndarray R
}.
Arguments MakeSequenceScores {R} node_scores transition_weights.
Arguments node_scores {R} _.
Arguments transition_weights {R} _.

(** [ViterbiDecoder.decode(instance, instance_parts, scores)] as the decoder
    of a structured model. *)
Definition viterbi_decoder {R} `{Scalar R} {L Instance Part : Type}
    (nan_as_int32 : Z) (garbage : R) (garbage32 : Z)
    (self : ViterbiDecoder.t R L)
    (instance : Instance) (instance_parts : list Part)
    (scores : SequenceScores R) : res (ViterbiDecoder.state_path L) :=
  ViterbiDecoder.decode nan_as_int32 garbage garbage32 self
    (node_scores scores) (transition_weights scores).

(** ** CRF models ([models.py], class [CRFModel]) *)

Module CRFModel.
Section defs.
Context {Observation Part V : Type}.

Record ObservationWithContext : Type := MakeObservationWithContext {
  observation : Observation;
  sequence : list Observation;
  index : nat;
  part : Part
}.

(** What [CRFModel] uses of a feature extractor: its name, and [extract],
    whose result is handed to [dict.update]: a dictionary from feature names
    to values. *)
Record extractor : Type := MakeExtractor {
  name : string;
  extract : ObservationWithContext → gmap string V
}.

(** The fields of [CRFModel] that featurization reads. *)
Record t : Type := Make {
  feature_extractors : list extractor
}.

(** [__init__] keeps the extractors whose name is selected. *)
Definition init (all_extractors : list extractor)
    (selected_features : list string) : t :=
  Make (filter (λ e, name e ∈ selected_features) all_extractors).

(** [feature_values.update(d)]: the entries of [d] replace those of
    [feature_values]. *)
Definition dict_update (feature_values d : gmap string V) : gmap string V :=
  d ∪ feature_values.

Definition featurize_observation_sequence (self : t)
    (observation_sequence : list Observation) (part : Part)
  : list (gmap string V) :=
  imap (λ i observation,
          foldl (λ feature_values feature_extractor,
                   let extractor_arg :=
                     MakeObservationWithContext observation
                       observation_sequence i part in
                   dict_update feature_values
                     (extract feature_extractor extractor_arg))
                ∅ (feature_extractors self))
       observation_sequence.

End defs.
Arguments t Observation Part V : clear implicits.
Arguments extractor Observation Part V : clear implicits.
Arguments ObservationWithContext Observation Part : clear implicits.
End CRFModel.

(** A structured model for the examples: it cannot make the parts of the
    instance [2], and cannot score any. *)
Definition unscorable_model
  : StructuredModel.t Z Z (SequenceScores Z) (ViterbiDecoder.state_path unit) :=
  StructuredModel.Make
    (viterbi_decoder (-2147483648) 0%Z 0%Z
       (ViterbiDecoder.Make None Semiring.MAX_PLUS))
    (λ instance, if Z.eqb instance 2 then Raise NotImplementedError
                 else Ok [instance])
    (λ _ _, Raise ValueError).
(** * Properties *)

(** ** Results, indices and arrays *)

Lemma rbind_ok {A B} (c : res A) (k : A → res B) b :
  rbind c k = Ok b ↔ ∃ a, c = Ok a ∧ k a = Ok b.
Proof.
  destruct c as [a|e]; simpl; split.
  - eauto.
  - by intros (a' & [= <-] & ?).
  - done.
  - by intros (? & ? & ?).
Qed.

Lemma mapM_ok {A B} (f : A → res B) (g : A → B) (l : list A) :
  Forall (λ x, f x = Ok (g x)) l → mapM f l = Ok (map g l).
Proof.
  induction 1 as [|x l Hx _ IH]; simpl; [done|].
  by rewrite Hx, IH.
Qed.

Lemma mapM_ext {A B} (f g : A → res B) (l : list A) :
  Forall (λ x, f x = g x) l → mapM f l = mapM g l.
Proof.
  induction 1 as [|x l Hx _ IH]; simpl; [done|].
  by rewrite Hx, IH.
Qed.

Lemma mapM_seq_ok {B} (f : nat → res B) (g : nat → B) (start n : nat) :
  (∀ i, start ≤ i < start + n → f i = Ok (g i)) →
  mapM f (seq start n) = Ok (map g (seq start n)).
Proof.
  intros Hf. apply mapM_ok, Forall_forall. intros i Hi.
  apply elem_of_seq in Hi. apply Hf. lia.
Qed.

Lemma foldM_app {A S} (f : S → A → res S) (s : S) (l1 l2 : list A) :
  foldM f s (l1 ++ l2) = rbind (foldM f s l1) (λ s', foldM f s' l2).
Proof.
  revert s. induction l1 as [|x l1 IH]; intros s; simpl; [done|].
  destruct (f s x); simpl; [apply IH|done].
Qed.

Lemma list_eq_map_seq {A} (f : nat → A) (l : list A) (n : nat) :
  length l = n → (∀ i, i < n → l !! i = Some (f i)) → l = map f (seq 0 n).
Proof.
  intros Hlen Hl. apply list_eq. intros i.
  destruct (decide (i < n)) as [Hi|Hi].
  - rewrite Hl by done. rewrite list_lookup_fmap, lookup_seq_lt by done. done.
  - rewrite !lookup_ge_None_2; [done| |lia].
    rewrite length_map, length_seq. lia.
Qed.

Lemma py_index_nat (n k : nat) : k < n → py_index n (Z.of_nat k) = Ok k.
Proof.
  intros Hk. unfold py_index. rewrite decide_True by lia.
  by rewrite Nat2Z.id.
Qed.

Lemma py_index_pred (n k : nat) :
  1 ≤ k → k ≤ n → py_index n (Z.of_nat k - 1) = Ok (k - 1).
Proof.
  intros H1 Hk. replace (Z.of_nat k - 1)%Z with (Z.of_nat (k - 1)) by lia.
  apply py_index_nat. lia.
Qed.

Lemma py_index_last (n : nat) : 1 ≤ n → py_index n (-1) = Ok (n - 1).
Proof.
  intros Hn. unfold py_index. rewrite decide_False by lia.
  rewrite decide_True by lia. f_equal. lia.
Qed.

Lemma py_index_lt (n : nat) (i : Z) (k : nat) : py_index n i = Ok k → k < n.
Proof.
  unfold py_index. repeat case_decide; intros [= <-]; lia.
Qed.

Lemma py_get_nat {A} (l : list A) (k : nat) (x : A) :
  l !! k = Some x → py_get l (Z.of_nat k) = Ok x.
Proof.
  intros Hk. unfold py_get.
  rewrite py_index_nat by (by eapply lookup_lt_Some). simpl. by rewrite Hk.
Qed.

Lemma py_set_nat {A} (l : list A) (k : nat) (x : A) :
  k < length l → py_set l (Z.of_nat k) x = Ok (<[k := x]> l).
Proof. intros Hk. unfold py_set. by rewrite py_index_nat. Qed.

Section array_facts.
Context {A : Type}.
Implicit Types (a : array2 A) (v : list A).

Lemma wf_np_empty (x : A) (s0 s1 : nat) : wf_array2 (np_empty x s0 s1).
Proof.
  split; simpl; [by rewrite length_replicate|].
  apply Forall_forall. intros r [-> _]%elem_of_replicate.
  by rewrite length_replicate.
Qed.

Lemma get_col_lookup a (k : nat) v :
  length v = length (rows a) → k < shape1 a →
  (∀ i r, rows a !! i = Some r → r !! k = v !! i ∧ is_Some (v !! i)) →
  get_col a (Z.of_nat k) = Ok v.
Proof.
  intros Hlen Hk Hv. unfold get_col. rewrite py_index_nat by done. simpl.
  revert v Hlen Hv. induction (rows a) as [|r rs IH]; intros [|x v] Hlen Hv;
    simplify_eq/=; [done|].
  destruct (Hv 0 r eq_refl) as [-> _]. simpl.
  rewrite IH with (v := v); [done|done|].
  intros i r' Hi. apply (Hv (S i) r' Hi).
Qed.

Lemma get_col_length a (j : Z) v :
  get_col a j = Ok v → length v = length (rows a).
Proof.
  unfold get_col. destruct (py_index _ _) as [k|]; simpl; [|done].
  revert v. induction (rows a) as [|r rs IH]; intros v; simpl.
  - by intros [= <-].
  - destruct (r !! k); simpl; [|done].
    destruct (mapM _ rs) as [v'|]; simpl; [|done].
    intros [= <-]. simpl. f_equal. by apply IH.
Qed.

Lemma set_col_spec a (k : nat) v :
  wf_array2 a → k < shape1 a → length v = shape0 a →
  ∃ a', set_col a (Z.of_nat k) v = Ok a' ∧ wf_array2 a'
        ∧ shape0 a' = shape0 a ∧ shape1 a' = shape1 a
        ∧ get_col a' (Z.of_nat k) = Ok v
        ∧ (∀ i r, rows a !! i = Some r →
             ∃ x, v !! i = Some x ∧ rows a' !! i = Some (<[k := x]> r)).
Proof.
  intros [Hrows Hcols] Hk Hv. unfold set_col.
  rewrite py_index_nat by done. simpl. rewrite decide_True by done.
  eexists. split; [done|].
  assert (Hlookup : ∀ i r, rows a !! i = Some r →
     ∃ x, v !! i = Some x
          ∧ zip_with (λ r x, <[k := x]> r) (rows a) v !! i
            = Some (<[k := x]> r)).
  { intros i r Hi.
    destruct (lookup_lt_is_Some_2 v i) as [x Hx].
    { rewrite Hv, <- Hrows. by eapply lookup_lt_Some. }
    exists x. split; [done|].
    rewrite lookup_zip_with, Hi. simpl. by rewrite Hx. }
  assert (Hlen : length (zip_with (λ r x, <[k := x]> r) (rows a) v)
                 = shape0 a).
  { rewrite length_zip_with. lia. }
  repeat split; simpl; try done.
  - apply Forall_forall. intros r' Hr'.
    apply elem_of_lookup_zip_with in Hr' as (i & r & x & -> & Hr & _).
    rewrite length_insert.
    by eapply (proj1 (Forall_forall _ _) Hcols), list_elem_of_lookup_2.
  - apply get_col_lookup; simpl; [lia|done|].
    intros i r' Hi.
    destruct (lookup_lt_is_Some_2 (rows a) i) as [r Hr].
    { rewrite Hrows, <- Hlen. by eapply lookup_lt_Some. }
    destruct (Hlookup i r Hr) as (x & Hx & Hix).
    rewrite Hix in Hi. injection Hi as <-.
    rewrite Hx. split; [|by eexists].
    apply list_lookup_insert_eq.
    rewrite (proj1 (Forall_forall _ _) Hcols r); [done|].
    by eapply list_elem_of_lookup_2.
Qed.

End array_facts.

(** ** The forward pass *)

Section forward_facts.
Context {R : Type} `{Scalar R}.
Implicit Types (a w : array2 R) (sr : Semiring.t R).

Lemma map_const_seq {A} (y : A) (start n : nat) :
  map (λ _, y) (seq start n) = replicate n y.
Proof. revert start. induction n; intros start; simpl; [done|by f_equal]. Qed.

Lemma at2_lookup a (i j : nat) (r : list R) :
  rows a !! i = Some r → at2 a i j = default Rzero (r !! j).
Proof. intros Hr. unfold at2. by rewrite Hr. Qed.

Lemma get_col_at2 a (k : nat) :
  wf_array2 a → k < shape1 a →
  get_col a (Z.of_nat k) = Ok (map (λ i, at2 a i k) (seq 0 (shape0 a))).
Proof.
  intros [Hrows Hcols] Hk. apply get_col_lookup; [|done|].
  { by rewrite length_map, length_seq. }
  intros i r Hr.
  assert (i < shape0 a) by (rewrite <- Hrows; by eapply lookup_lt_Some).
  rewrite list_lookup_fmap, lookup_seq_lt by done. simpl.
  rewrite (at2_lookup _ _ _ _ Hr).
  destruct (lookup_lt_is_Some_2 r k) as [x Hx].
  { rewrite (proj1 (Forall_forall _ _) Hcols r); [done|].
    by eapply list_elem_of_lookup_2. }
  rewrite Hx. split; [done|by eexists].
Qed.

Lemma multiply_newaxis_spec sr w (f : nat → R) :
  wf_array2 w →
  ∃ p, ViterbiDecoder.multiply_newaxis sr w (map f (seq 0 (shape0 w))) = Ok p
       ∧ wf_array2 p ∧ shape0 p = shape0 w ∧ shape1 p = shape1 w
       ∧ ∀ i j, i < shape0 w → j < shape1 w →
           at2 p i j = Semiring.multiply sr (at2 w i j) (f i).
Proof.
  intros [Hrows Hcols]. unfold ViterbiDecoder.multiply_newaxis.
  rewrite decide_True by (by rewrite length_map, length_seq).
  eexists. split; [done|].
  assert (Hlookup : ∀ i, i < shape0 w → ∃ r,
    rows w !! i = Some r ∧ length r = shape1 w ∧
    zip_with (λ r x, map (λ wij, Semiring.multiply sr wij x) r)
      (rows w) (map f (seq 0 (shape0 w))) !! i
    = Some (map (λ wij, Semiring.multiply sr wij (f i)) r)).
  { intros i Hi.
    destruct (lookup_lt_is_Some_2 (rows w) i) as [r Hr]; [lia|].
    exists r. split; [done|]. split.
    { eapply (proj1 (Forall_forall _ _) Hcols), list_elem_of_lookup_2, Hr. }
    rewrite lookup_zip_with, Hr. simpl.
    by rewrite list_lookup_fmap, lookup_seq_lt. }
  repeat split; simpl; try done.
  - rewrite length_zip_with, length_map, length_seq. lia.
  - apply Forall_forall. intros r' Hr'.
    apply elem_of_lookup_zip_with in Hr' as (i & r & x & -> & Hr & _).
    rewrite length_map.
    eapply (proj1 (Forall_forall _ _) Hcols), list_elem_of_lookup_2, Hr.
  - intros i j Hi Hj. destruct (Hlookup i Hi) as (r & Hr & Hlen & Hp).
    rewrite (at2_lookup _ _ _ _ Hr). unfold at2. simpl. rewrite Hp. simpl.
    rewrite list_lookup_fmap.
    destruct (lookup_lt_is_Some_2 r j) as [x ->]; [lia|]. done.
Qed.

Lemma reduce_axis0_sum sr (p : array2 R) :
  wf_array2 p →
  (∀ l, length l = shape0 p → is_ok (Semiring.sum sr l)) →
  reduce_axis0 (Semiring.sum sr) p
  = Ok (map (λ j, sum_of sr (map (λ i, at2 p i j) (seq 0 (shape0 p))))
            (seq 0 (shape1 p))).
Proof.
  intros Hwf Hsum. unfold reduce_axis0. case_decide as Hrows.
  - destruct (Hsum []) as [y Hy]; [by rewrite Hrows|].
    rewrite Hy. simpl. f_equal. rewrite Hrows. simpl.
    unfold sum_of. rewrite Hy. symmetry. apply map_const_seq.
  - apply mapM_seq_ok. intros j Hj.
    rewrite get_col_at2 by (done || lia). simpl.
    destruct (Hsum (map (λ i, at2 p i j) (seq 0 (shape0 p)))) as [y Hy].
    { by rewrite length_map, length_seq. }
    unfold sum_of. by rewrite Hy.
Qed.


Lemma zip_with_map_diag {A B C D} (f : B → C → D) (g : A → B) (h : A → C)
    (l : list A) :
  zip_with f (map g l) (map h l) = map (λ x, f (g x) (h x)) l.
Proof. induction l; simpl; [done|by f_equal]. Qed.

Lemma transition_slice (node : array2 R) (tw : ndarray R) (c : nat) :
  valid_trellis node tw → S c < shape1 node →
  ∃ w, match tw with
       | Dim3 slices => py_get slices (Z.of_nat (S c) - 1)
       | Dim2 w => Ok w
       end = Ok w
       ∧ wf_array2 w ∧ shape0 w = shape0 node ∧ shape1 w = shape0 node
       ∧ ∀ i j, transition_at tw c i j = at2 w i j.
Proof.
  intros (_ & _ & Htw) Hc. destruct tw as [w|slices]; simpl in *.
  - exists w. destruct Htw as (? & ? & ?). done.
  - destruct Htw as [Hlen Hall].
    destruct (lookup_lt_is_Some_2 slices c) as [w Hw]; [lia|].
    exists w. replace (Z.of_nat (S c) - 1)%Z with (Z.of_nat c) by lia.
    rewrite (py_get_nat _ _ _ Hw).
    pose proof (proj1 (Forall_forall _ _) Hall w
                  (list_elem_of_lookup_2 _ _ _ Hw)) as (? & ? & ?).
    split_and!; [done..|]. intros i j. by rewrite Hw.
Qed.

Section score_only.
Variables (nan_as_int32 : Z) (garbage : R) (garbage32 : Z).
Context {L : Type}.
Variables (sr : Semiring.t R) (node : array2 R) (tw : ndarray R).
Hypothesis Hvalid : valid_trellis node tw.
Hypothesis Hsum :
  ∀ l, length l = shape0 node → is_ok (Semiring.sum sr l).

Lemma viterbi_column_score (ps : array2 R) (pr : array2 Z) (c : nat) :
  S c < shape1 node →
  wf_array2 ps → shape0 ps = shape0 node → shape1 ps = shape1 node →
  get_col ps (Z.of_nat c)
  = Ok (map (forward sr node tw c) (seq 0 (shape0 node))) →
  ∃ ps', ViterbiDecoder.viterbi_column sr false node tw (ps, pr) (S c)
         = Ok (ps', pr)
         ∧ wf_array2 ps' ∧ shape0 ps' = shape0 node
         ∧ shape1 ps' = shape1 node
         ∧ get_col ps' (Z.of_nat (S c))
           = Ok (map (forward sr node tw (S c)) (seq 0 (shape0 node))).
Proof.
  intros Hc Hwf Hs0 Hs1 Hprev.
  destruct (transition_slice node tw c Hvalid Hc)
    as (w & Hw & Hwfw & Hw0 & Hw1 & Hat).
  unfold ViterbiDecoder.viterbi_column. rewrite Hw. simpl.
  replace (Z.of_nat (S c) - 1)%Z with (Z.of_nat c) by lia.
  rewrite Hprev. simpl. rewrite <- Hw0.
  destruct (multiply_newaxis_spec sr w (forward sr node tw c) Hwfw)
    as (p & -> & Hwfp & Hp0 & Hp1 & Hp).
  simpl. rewrite reduce_axis0_sum; [|done|].
  2:{ intros l Hl. apply Hsum. congruence. }
  simpl. destruct Hvalid as (Hwfn & _ & _).
  rewrite get_col_at2 by done. simpl.
  unfold ViterbiDecoder.multiply_vec.
  rewrite decide_True
    by (rewrite !length_map, !length_seq; congruence).
  simpl. rewrite Hp1, Hp0, Hw1, Hw0, zip_with_map_diag.
  destruct (set_col_spec ps (S c)
    (map (λ j, Semiring.multiply sr (at2 node j (S c))
           (sum_of sr (map (λ i, at2 p i j) (seq 0 (shape0 node)))))
         (seq 0 (shape0 node))))
    as (ps' & -> & Hwf' & Hs0' & Hs1' & Hcol & _); [done|lia| |].
  { rewrite length_map, length_seq. done. }
  simpl. exists ps'. split_and!; [done|done|congruence|congruence|].
  rewrite Hcol. f_equal. apply map_ext_in. intros j Hj%in_seq.
  simpl. do 2 f_equal.
  apply map_ext_in. intros i Hi%in_seq.
  rewrite Hp by lia. by rewrite Hat.
Qed.

Lemma viterbi_loop_score (n c : nat) (ps : array2 R) (pr : array2 Z) :
  c + n < shape1 node →
  wf_array2 ps → shape0 ps = shape0 node → shape1 ps = shape1 node →
  get_col ps (Z.of_nat c)
  = Ok (map (forward sr node tw c) (seq 0 (shape0 node))) →
  ∃ ps', foldM (ViterbiDecoder.viterbi_column sr false node tw) (ps, pr)
               (seq (S c) n) = Ok (ps', pr)
         ∧ wf_array2 ps' ∧ shape0 ps' = shape0 node
         ∧ shape1 ps' = shape1 node
         ∧ get_col ps' (Z.of_nat (c + n))
           = Ok (map (forward sr node tw (c + n)) (seq 0 (shape0 node))).
Proof.
  revert c ps. induction n as [|n IH]; intros c ps Hc Hwf Hs0 Hs1 Hcol.
  - exists ps. rewrite Nat.add_0_r. by simpl.
  - change (seq (S c) (S n)) with (S c :: seq (S (S c)) n).
    cbn [foldM].
    destruct (viterbi_column_score ps pr c) as (ps1 & -> & ? & ? & ? & ?);
      [lia|done..|].
    cbn [rbind]. destruct (IH (S c) ps1) as (ps' & -> & ? & ? & ? & Hcol');
      [lia|done..|].
    exists ps'. replace (c + S n) with (S c + n) by lia. done.
Qed.

Lemma run_viterbi_score_only (self : ViterbiDecoder.t R L) :
  ViterbiDecoder.semiring self = sr →
  ViterbiDecoder.run_viterbi nan_as_int32 garbage garbage32 self node tw false
  = Ok (ViterbiDecoder.ScoreOnly
          (sum_of sr (map (forward sr node tw (shape1 node - 1))
                          (seq 0 (shape0 node))))).
Proof.
  intros Hself. unfold ViterbiDecoder.run_viterbi.
  rewrite Hself, orb_true_r. cbn [py_assert rbind].
  destruct Hvalid as (Hwfn & Hpos & _).
  pose proof (get_col_at2 node 0 Hwfn Hpos) as Hfirst.
  change (Z.of_nat 0) with 0%Z in Hfirst. rewrite Hfirst. cbn [rbind].
  destruct (set_col_spec
    (np_empty garbage (shape0 node) (shape1 node)) 0
    (map (λ i, at2 node i 0) (seq 0 (shape0 node))))
    as (ps0 & Hset & Hwf0 & Hs0 & Hs1 & Hcol & _);
    [apply wf_np_empty|simpl; lia|by rewrite length_map, length_seq|].
  change (Z.of_nat 0) with 0%Z in Hset. rewrite Hset. cbn [rbind].
  simpl in Hs0, Hs1.
  destruct (viterbi_loop_score (shape1 node - 1) 0 ps0
              (np_empty garbage32 0 0))
    as (ps' & -> & Hwf' & Hs0' & Hs1' & Hcol'); [lia|done..|].
  cbn [rbind]. simpl in Hcol'.
  unfold get_col in *. rewrite Hs1' in *.
  rewrite py_index_last by done.
  rewrite py_index_nat in Hcol' by lia. simpl in *. rewrite Hcol'. simpl.
  destruct (Hsum (map (forward sr node tw (shape1 node - 1))
                      (seq 0 (shape0 node))))
    as [y Hy]; [by rewrite length_map, length_seq|].
  unfold sum_of. by rewrite Hy.
Qed.

End score_only.
End forward_facts.

(** ** The forward pass against the enumeration *)

Section sum_product.
Context {R : Type} `{Scalar R}.
Hypothesis Rsemiring : semi_ring_theory Rzero Rone Radd Rmul eq.
Add Ring R_semiring : Rsemiring.

Local Abbreviation Σ l := (foldl Radd Rzero l).

Lemma foldl_add_from (a : R) (l : list R) :
  foldl Radd a l = Radd a (Σ l).
Proof.
  revert a. induction l as [|x l IH]; intros a; simpl.
  - ring.
  - rewrite IH, (IH (Radd Rzero x)). ring.
Qed.

Lemma sum_cons (x : R) (l : list R) : Σ (x :: l) = Radd x (Σ l).
Proof. simpl. rewrite foldl_add_from. ring. Qed.

Lemma sum_app (l1 l2 : list R) : Σ (l1 ++ l2) = Radd (Σ l1) (Σ l2).
Proof. rewrite foldl_app. apply foldl_add_from. Qed.

Lemma sum_flat_map {A B} (f : B → R) (g : A → list B) (l : list A) :
  Σ (map f (flat_map g l)) = Σ (map (λ x, Σ (map f (g x))) l).
Proof.
  induction l as [|x l IH]; [done|].
  cbn [flat_map map]. rewrite map_app, sum_app, sum_cons. by rewrite IH.
Qed.

Lemma sum_mul_l (c : R) (l : list R) :
  Rmul c (Σ l) = Σ (map (Rmul c) l).
Proof.
  induction l as [|x l IH].
  - simpl. ring.
  - cbn [map]. rewrite !sum_cons, <- IH. ring.
Qed.

Lemma prod_ext (f g : nat → R) (a : R) (l : list nat) :
  (∀ t, t ∈ l → f t = g t) →
  foldl (λ acc t, Rmul acc (f t)) a l = foldl (λ acc t, Rmul acc (g t)) a l.
Proof.
  revert a. induction l as [|t l IH]; intros a Hfg; simpl; [done|].
  rewrite Hfg by left. apply IH. intros t' Ht'. apply Hfg. by right.
Qed.

Lemma all_paths_length (num_states n : nat) (p : list nat) :
  p ∈ all_paths num_states n → length p = n.
Proof.
  revert p. induction n as [|n IH]; intros p; simpl.
  - by intros ->%list_elem_of_singleton.
  - intros (s & _ & Hp)%list_elem_of_In%in_flat_map.
    apply in_map_iff in Hp as (q & <- & Hq%list_elem_of_In).
    rewrite length_app, (IH q Hq). simpl. lia.
Qed.

Lemma state_at_app_l (p : list nat) (j t : nat) :
  t < length p → state_at (p ++ [j]) t = state_at p t.
Proof. intros Ht. unfold state_at. by rewrite lookup_app_l. Qed.

Lemma state_at_app_r (p : list nat) (j : nat) :
  state_at (p ++ [j]) (length p) = j.
Proof.
  unfold state_at. rewrite lookup_app_r by done.
  by rewrite Nat.sub_diag.
Qed.

Lemma path_score_single (node : array2 R) (tw : ndarray R) (j : nat) :
  path_score node tw [j] = at2 node j 0.
Proof. unfold path_score. simpl. unfold state_at. simpl. ring. Qed.

Lemma path_score_snoc (node : array2 R) (tw : ndarray R) (p : list nat)
    (m j : nat) :
  length p = S m →
  path_score node tw (p ++ [j])
  = Rmul (at2 node j (S m))
         (Rmul (transition_at tw m (state_at p m) j) (path_score node tw p)).
Proof.
  intros Hlen. unfold path_score.
  rewrite length_app, Hlen. simpl length.
  replace (S m + 1) with (S (S m)) by lia.
  replace (S (S m) - 1) with (S m) by lia.
  replace (S m - 1) with m by lia.
  assert (Hj : state_at (p ++ [j]) (S m) = j).
  { rewrite <- Hlen. apply state_at_app_r. }
  rewrite (seq_S (S m)), (seq_S m), !foldl_app. cbn [foldl].
  rewrite !Nat.add_0_l, Hj.
  rewrite (state_at_app_l p j m) by lia.
  rewrite (prod_ext (λ t, at2 node (state_at (p ++ [j]) t) t)
                    (λ t, at2 node (state_at p t) t)).
  2:{ intros t Ht%elem_of_seq. rewrite state_at_app_l by lia. done. }
  rewrite (prod_ext
    (λ t, transition_at tw t (state_at (p ++ [j]) t)
            (state_at (p ++ [j]) (S t)))
    (λ t, transition_at tw t (state_at p t) (state_at p (S t)))).
  2:{ intros t Ht%elem_of_seq. rewrite !state_at_app_l by lia. done. }
  ring.
Qed.

Lemma forward_sum_of_paths (node : array2 R) (tw : ndarray R) (t j : nat) :
  forward Semiring.PLUS_MULTIPLY node tw t j
  = Σ (map (λ p, path_score node tw (p ++ [j]))
           (all_paths (shape0 node) t)).
Proof.
  revert j. induction t as [|t IH]; intros j.
  - simpl. rewrite path_score_single. ring.
  - cbn [forward all_paths]. unfold sum_of. cbn.
    rewrite sum_flat_map, sum_mul_l, map_map. f_equal.
    apply map_ext_in. intros i _.
    rewrite IH, !sum_mul_l, !map_map. f_equal.
    apply map_ext_in. intros q Hq%list_elem_of_In%all_paths_length.
    assert (Hi : state_at (q ++ [i]) t = i).
    { rewrite <- Hq. apply state_at_app_r. }
    rewrite (path_score_snoc node tw (q ++ [i]) t j).
    2:{ rewrite length_app, Hq. simpl. lia. }
    by rewrite Hi.
Qed.


(** With exact arithmetic the sum of the last forward column is the sum over
    all state paths. *)
Lemma forward_pass_brute_force (node_scores : array2 R)
    (transition_weights : ndarray R) :
  1 ≤ shape1 node_scores →
  sum_of Semiring.PLUS_MULTIPLY
    (map (forward Semiring.PLUS_MULTIPLY node_scores transition_weights
            (shape1 node_scores - 1))
         (seq 0 (shape0 node_scores)))
  = brute_force_score node_scores transition_weights.
Proof.
  intros Hpos. unfold sum_of, brute_force_score. cbn.
  destruct (shape1 node_scores) as [|n]; [lia|].
  replace (S n - 1) with n by lia. cbn [all_paths].
  rewrite sum_flat_map. f_equal. apply map_ext_in. intros j _.
  rewrite map_map. apply forward_sum_of_paths.
Qed.

End sum_product.

(** The enumeration lists every path over the states once. *)
Lemma all_paths_elem_of (num_states n : nat) (p : list nat) :
  p ∈ all_paths num_states n
  ↔ length p = n ∧ Forall (λ s, s < num_states) p.
Proof.
  revert p. induction n as [|n IH]; intros p; simpl.
  - rewrite list_elem_of_singleton. split.
    + by intros ->.
    + intros [Hlen _]. by destruct p.
  - rewrite list_elem_of_In, in_flat_map. split.
    + intros (s & Hs%in_seq & Hp%in_map_iff).
      destruct Hp as (q & <- & Hq%list_elem_of_In%IH).
      destruct Hq as [<- Hq]. rewrite length_app. simpl.
      split; [lia|]. apply Forall_app. split; [done|].
      apply Forall_singleton. lia.
    + intros [Hlen Hall].
      destruct (decide (p = [])) as [->|Hne]; [done|].
      destruct (exists_last Hne) as (q & s & ->).
      rewrite length_app in Hlen. simpl in Hlen.
      apply Forall_app in Hall as [Hq Hs%Forall_inv].
      simpl in Hs. exists s. split; [apply in_seq; lia|].
      apply in_map_iff. exists q. split; [done|].
      apply list_elem_of_In, IH. split; [lia|done].
Qed.

Lemma all_paths_NoDup (num_states n : nat) : NoDup (all_paths num_states n).
Proof.
  induction n as [|n IH]; simpl.
  - apply NoDup_singleton.
  - assert (Hbind : ∀ l : list nat,
      flat_map (λ s, map (λ p, p ++ [s]) (all_paths num_states n)) l
      = l ≫= (λ s, (λ p, p ++ [s]) <$> all_paths num_states n)).
    { intros l. induction l as [|s l IHl]; simpl; [done|]. by rewrite IHl. }
    rewrite Hbind. apply NoDup_bind.
    + intros s1 s2 p _ _ (q1 & -> & _)%list_elem_of_fmap
        (q2 & Heq & _)%list_elem_of_fmap.
      by apply app_inj_tail in Heq as [_ ->].
    + intros s _. apply NoDup_fmap_2; [|done].
      intros q1 q2 Heq. by apply app_inj_tail in Heq as [-> _].
    + apply NoDup_seq.
Qed.

Lemma all_paths_count (num_states n : nat) :
  length (all_paths num_states n) = num_states ^ n.
Proof.
  induction n as [|n IH]; simpl; [done|].
  rewrite <- IH. generalize (all_paths num_states n). intros paths.
  assert (Hlen : ∀ l : list nat,
    length (flat_map (λ s, map (λ p, p ++ [s]) paths) l)
    = length l * length paths).
  { intros l. induction l as [|s l IHl]; simpl; [done|].
    by rewrite length_app, length_map, IHl. }
  by rewrite Hlen, length_seq.
Qed.

Lemma valid_trellis_by_decide `{Scalar R} (node : array2 R) (tw : ndarray R) :
  bool_decide (valid_trellis node tw) = true → valid_trellis node tw.
Proof. apply bool_decide_eq_true_1. Qed.

Lemma mapM_lookup {A B} (f : A → res B) (l : list A) (v : list B) (i : nat)
    (x : B) :
  mapM f l = Ok v → v !! i = Some x → ∃ y, l !! i = Some y ∧ f y = Ok x.
Proof.
  revert v i. induction l as [|y l IH]; intros v i; simpl.
  - by intros [= <-].
  - destruct (f y) as [b|] eqn:Hy; simpl; [|done].
    destruct (mapM f l) as [v'|]; simpl; [|done].
    intros [= <-]. destruct i as [|i]; simpl.
    + intros [= <-]. eauto.
    + by apply IH.
Qed.

Lemma get2_of_get_col {A} (a : array2 A) (j : Z) (v : list A) (i : nat)
    (x : A) :
  wf_array2 a → get_col a j = Ok v → v !! i = Some x →
  get2 a (Z.of_nat i) j = Ok x.
Proof.
  intros [_ Hcols]. unfold get_col.
  destruct (py_index (shape1 a) j) as [k|] eqn:Hk; simpl; [|done].
  intros Hv Hx. destruct (mapM_lookup _ _ _ _ _ Hv Hx) as (r & Hr & Hrk).
  unfold get2. rewrite (py_get_nat _ _ _ Hr). simpl. unfold py_get.
  rewrite (proj1 (Forall_forall _ _) Hcols r)
    by (by eapply list_elem_of_lookup_2).
  rewrite Hk. simpl. by destruct (r !! k).
Qed.

Lemma py_index_0 (n : nat) : 1 ≤ n → py_index n 0 = Ok 0.
Proof. intros Hn. by apply (py_index_nat n 0). Qed.

Lemma get_col_last {A} (a : array2 A) :
  1 ≤ shape1 a → get_col a (-1) = get_col a (Z.of_nat (shape1 a - 1)).
Proof.
  intros Hpos. unfold get_col.
  by rewrite py_index_last, py_index_nat by lia.
Qed.

(** ** Asking for a path *)

Section best_path.
Context {R : Type} `{Scalar R} {L : Type}.
Variables (nan_as_int32 : Z) (garbage : R) (garbage32 : Z).
Implicit Types (self : ViterbiDecoder.t R L) (sr : Semiring.t R).

(** C7.  Asking for the best path from a semiring without [arg_sum] raises
    at the assertion, whatever the trellis (also one on which the trellis
    computation would itself raise); without the path the call returns a
    score on every valid trellis, whether or not [arg_sum] is defined, as
    long as the semiring's [sum] is defined on a column of states. *)
Theorem run_viterbi_best_path_needs_arg_sum self (node_scores : array2 R)
    (transition_weights : ndarray R) :
  (Semiring.arg_sum (ViterbiDecoder.semiring self) = None →
   ViterbiDecoder.run_viterbi nan_as_int32 garbage garbage32 self
     node_scores transition_weights true = Raise AssertionError)
  ∧ (valid_trellis node_scores transition_weights →
     (∀ l, length l = shape0 node_scores →
           is_ok (Semiring.sum (ViterbiDecoder.semiring self) l)) →
     ∃ score,
       ViterbiDecoder.run_viterbi nan_as_int32 garbage garbage32 self
         node_scores transition_weights false
       = Ok (ViterbiDecoder.ScoreOnly score)).
Proof.
  split.
  - intros Hnone. unfold ViterbiDecoder.run_viterbi. rewrite Hnone.
    rewrite bool_decide_false by (by intros [? ?]). done.
  - intros Hvalid Hsum. eexists.
    by apply (run_viterbi_score_only nan_as_int32 garbage garbage32
                (ViterbiDecoder.semiring self)).
Qed.


(** C10.  On a trellis of one position, with a semiring that defines
    [arg_sum], [run_viterbi] returns the entry of column 0 that [arg_sum]
    selects and the one-element path of its index, or of its label when
    [possible_states] is given; the transition weights, whatever they are, do
    not enter the result. *)
Theorem run_viterbi_single_position self (node_scores : array2 R)
    (transition_weights : ndarray R) (arg_sum : list R → res nat) (k : nat) :
  Semiring.arg_sum (ViterbiDecoder.semiring self) = Some arg_sum →
  wf_array2 node_scores → shape1 node_scores = 1 →
  arg_sum (map (λ i, at2 node_scores i 0) (seq 0 (shape0 node_scores)))
  = Ok k →
  k < shape0 node_scores →
  (ViterbiDecoder.possible_states self = None
   ∨ ViterbiDecoder.possible_states self = Some [] →
   ViterbiDecoder.run_viterbi nan_as_int32 garbage garbage32 self
     node_scores transition_weights true
   = Ok (ViterbiDecoder.ScoreAndPath (at2 node_scores k 0)
           (ViterbiDecoder.StateIndices [Z.of_nat k])))
  ∧ (∀ states label,
       ViterbiDecoder.possible_states self = Some states →
       states !! k = Some label →
       ViterbiDecoder.run_viterbi nan_as_int32 garbage garbage32 self
         node_scores transition_weights true
       = Ok (ViterbiDecoder.ScoreAndPath (at2 node_scores k 0)
               (ViterbiDecoder.StateLabels [label]))).
Proof.
  intros Harg Hwf Hone Hk Hlt.
  assert (Hrun : ∀ path,
    match ViterbiDecoder.possible_states self with
    | Some (s :: states) =>
        labels ← mapM (py_get (s :: states)) [Z.of_nat k];
        Ok (ViterbiDecoder.ScoreAndPath (at2 node_scores k 0)
              (ViterbiDecoder.StateLabels labels))
    | _ => Ok (ViterbiDecoder.ScoreAndPath (at2 node_scores k 0)
                 (ViterbiDecoder.StateIndices [Z.of_nat k]))
    end = Ok path →
    ViterbiDecoder.run_viterbi nan_as_int32 garbage garbage32 self
      node_scores transition_weights true = Ok path).
  { intros path Hpath. unfold ViterbiDecoder.run_viterbi.
    rewrite Harg, bool_decide_true by (by eexists). cbn [orb py_assert rbind].
    pose proof (get_col_at2 node_scores 0 Hwf ltac:(lia)) as Hfirst.
    change (Z.of_nat 0) with 0%Z in Hfirst. rewrite Hfirst. cbn [rbind].
    destruct (set_col_spec
      (np_empty garbage (shape0 node_scores) (shape1 node_scores)) 0
      (map (λ i, at2 node_scores i 0) (seq 0 (shape0 node_scores))))
      as (ps0 & Hset & Hwf0 & Hs0 & Hs1 & Hcol & _);
      [apply wf_np_empty|simpl; lia|by rewrite length_map, length_seq|].
    change (Z.of_nat 0) with 0%Z in Hset. rewrite Hset. cbn [rbind].
    simpl in Hs0, Hs1. rewrite Hone in *.
    unfold fill_col. cbn [np_empty shape0 shape1 rows].
    rewrite py_index_0 by lia. cbn [rbind seq foldM Nat.sub].
    rewrite get_col_last by lia. rewrite Hs1. cbn [Nat.sub].
    rewrite Hcol. cbn [rbind]. rewrite Hk. cbn [rbind].
    cbn [replicate]. unfold py_set at 1. cbn [length].
    rewrite py_index_last by lia. cbn [rbind Nat.sub].
    assert (Hget : get2 ps0 (Z.of_nat k) (-1) = Ok (at2 node_scores k 0)).
    { apply (get2_of_get_col ps0 _
               (map (λ i, at2 node_scores i 0) (seq 0 (shape0 node_scores))));
        [done| |].
      - rewrite get_col_last by lia. by rewrite Hs1.
      - by rewrite list_lookup_fmap, lookup_seq_lt. }
    rewrite Hget. cbn [rbind].
    unfold ViterbiDecoder.reconstruct. cbn [Nat.sub seq rev foldM rbind].
    cbn [insert list_insert]. exact Hpath. }
  split.
  - intros [Hnone|Hnil]; apply Hrun; by rewrite ?Hnone, ?Hnil.
  - intros states label Hstates Hlabel. apply Hrun. rewrite Hstates.
    destruct states as [|s states]; [done|].
    cbn [mapM]. rewrite (py_get_nat _ _ _ Hlabel). done.
Qed.


(** *** The sentinel of column 0 *)

Lemma foldM_ext_in {A S} (f g : S → A → res S) (s : S) (l : list A) :
  (∀ s' x, x ∈ l → f s' x = g s' x) → foldM f s l = foldM g s l.
Proof.
  revert s. induction l as [|x l IH]; intros s Hfg; simpl; [done|].
  rewrite Hfg by left. destruct (g s x); simpl; [|done].
  apply IH. intros s' y Hy. apply Hfg. by right.
Qed.

Lemma py_index_of_nat (n i k : nat) : py_index n (Z.of_nat i) = Ok k → k = i.
Proof.
  unfold py_index. repeat case_decide; intros [= <-]; lia.
Qed.

Lemma get2_agree (p1 p2 : array2 Z) (state : Z) (i : nat) :
  agree_from_column1 p1 p2 → 1 ≤ i →
  get2 p1 state (Z.of_nat i) = get2 p2 state (Z.of_nat i).
Proof.
  intros (_ & _ & Hrows) Hi. unfold get2, py_get.
  rewrite (Forall2_length _ _ _ Hrows).
  destruct (py_index (length (rows p2)) state) as [k|]; simpl; [|done].
  destruct (rows p1 !! k) as [r1|] eqn:Hr1.
  - destruct (Forall2_lookup_l _ _ _ _ _ Hrows Hr1) as (r2 & -> & Hlen & Hr).
    simpl. rewrite Hlen.
    destruct (py_index (length r2) (Z.of_nat i)) as [j|] eqn:Hj; simpl;
      [|done].
    apply py_index_of_nat in Hj as ->. by rewrite Hr.
  - destruct (rows p2 !! k) as [r2|] eqn:Hr2; [|done].
    destruct (Forall2_lookup_r _ _ _ _ _ Hrows Hr2) as (r1 & Hr1' & _).
    congruence.
Qed.

Lemma reconstruct_agree (p1 p2 : array2 Z) (best_state_path : list Z)
    (num_columns : nat) :
  agree_from_column1 p1 p2 →
  ViterbiDecoder.reconstruct p1 best_state_path num_columns
  = ViterbiDecoder.reconstruct p2 best_state_path num_columns.
Proof.
  intros Hagree. unfold ViterbiDecoder.reconstruct.
  apply foldM_ext_in. intros bsp i Hi.
  apply list_elem_of_In in Hi. rewrite <- in_rev in Hi. apply in_seq in Hi.
  unfold ViterbiDecoder.reconstruct_step.
  destruct (py_get bsp (Z.of_nat i)) as [state|]; simpl; [|done].
  by rewrite (get2_agree p1 p2 state i) by (done || lia).
Qed.

Lemma set_col_agree (p1 p2 : array2 Z) (c : nat) (v : list Z) :
  agree_from_column1 p1 p2 →
  match set_col p1 (Z.of_nat c) v, set_col p2 (Z.of_nat c) v with
  | Ok p1', Ok p2' => agree_from_column1 p1' p2'
  | Raise e1, Raise e2 => e1 = e2
  | _, _ => False
  end.
Proof.
  intros (Hs0 & Hs1 & Hrows). unfold set_col. rewrite Hs0, Hs1.
  destruct (py_index (shape1 p2) (Z.of_nat c)) as [k|]; simpl; [|done].
  case_decide; [|done]. split_and!; simpl; [done..|].
  assert (Hv : Forall2 (=) v v) by (by apply Forall_Forall2_diag, Forall_true).
  revert Hv. generalize v at 2 4. intros v' Hv.
  induction Hrows as [|r1 r2 rs1 rs2 [Hlen Hr] _ IH] in v, v', Hv |- *;
    simpl; [done|].
  destruct Hv as [|x ? v v' <- Hv]; simpl; [done|].
  constructor; [|by apply IH].
  split; [by rewrite !length_insert|].
  intros j Hj. destruct (decide (k = j)) as [->|Hne].
  - destruct (decide (j < length r1)).
    + rewrite !list_lookup_insert_eq by lia. done.
    + rewrite !list_insert_ge by lia. by apply Hr.
  - rewrite !list_lookup_insert_ne by done. by apply Hr.
Qed.

Lemma viterbi_column_agree (sr : Semiring.t R) (return_best_path : bool)
    (node : array2 R) (tw : ndarray R) (ps : array2 R) (p1 p2 : array2 Z)
    (c : nat) :
  agree_from_column1 p1 p2 →
  match ViterbiDecoder.viterbi_column sr return_best_path node tw (ps, p1) c,
        ViterbiDecoder.viterbi_column sr return_best_path node tw (ps, p2) c
  with
  | Ok (ps1, p1'), Ok (ps2, p2') => ps1 = ps2 ∧ agree_from_column1 p1' p2'
  | Raise e1, Raise e2 => e1 = e2
  | _, _ => False
  end.
Proof.
  intros Hagree. unfold ViterbiDecoder.viterbi_column.
  destruct (match tw with Dim2 _ => _ | Dim3 _ => _ end) as [w|];
    cbn [rbind]; [|done].
  destruct (get_col ps (Z.of_nat c - 1)) as [previous|]; cbn [rbind]; [|done].
  destruct (ViterbiDecoder.multiply_newaxis sr w previous) as [scores|];
    cbn [rbind]; [|done].
  destruct return_best_path.
  - destruct (Semiring.arg_sum sr) as [arg_sum|]; cbn [rbind]; [|done].
    destruct (reduce_axis0 arg_sum scores) as [indices|]; cbn [rbind]; [|done].
    pose proof (set_col_agree p1 p2 c (map Z.of_nat indices) Hagree) as Hset.
    destruct (set_col p1 (Z.of_nat c) (map Z.of_nat indices)) as [p1'|],
      (set_col p2 (Z.of_nat c) (map Z.of_nat indices)) as [p2'|];
      cbn [rbind]; try done.
    destruct (ViterbiDecoder.take_diagonal scores indices) as [summed|];
      cbn [rbind]; [|done].
    destruct (get_col node (Z.of_nat c)) as [nodes|]; cbn [rbind]; [|done].
    destruct (ViterbiDecoder.multiply_vec sr nodes summed) as [new|];
      cbn [rbind]; [|done].
    destruct (set_col ps (Z.of_nat c) new); cbn [rbind]; done.
  - destruct (reduce_axis0 (Semiring.sum sr) scores) as [summed|];
      cbn [rbind]; [|done].
    destruct (get_col node (Z.of_nat c)) as [nodes|]; cbn [rbind]; [|done].
    destruct (ViterbiDecoder.multiply_vec sr nodes summed) as [new|];
      cbn [rbind]; [|done].
    destruct (set_col ps (Z.of_nat c) new); cbn [rbind]; done.
Qed.

Lemma viterbi_loop_agree (sr : Semiring.t R) (return_best_path : bool)
    (node : array2 R) (tw : ndarray R) (columns : list nat)
    (ps : array2 R) (p1 p2 : array2 Z) :
  agree_from_column1 p1 p2 →
  match foldM (ViterbiDecoder.viterbi_column sr return_best_path node tw)
              (ps, p1) columns,
        foldM (ViterbiDecoder.viterbi_column sr return_best_path node tw)
              (ps, p2) columns
  with
  | Ok (ps1, p1'), Ok (ps2, p2') => ps1 = ps2 ∧ agree_from_column1 p1' p2'
  | Raise e1, Raise e2 => e1 = e2
  | _, _ => False
  end.
Proof.
  revert ps p1 p2. induction columns as [|c columns IH];
    intros ps p1 p2 Hagree; cbn [foldM]; [done|].
  pose proof (viterbi_column_agree sr return_best_path node tw ps p1 p2 c
                Hagree) as Hstep.
  destruct (ViterbiDecoder.viterbi_column _ _ _ _ (ps, p1) c) as [[ps1 p1']|],
    (ViterbiDecoder.viterbi_column _ _ _ _ (ps, p2) c) as [[ps2 p2']|];
    cbn [rbind]; try done.
  destruct Hstep as [<- Hagree']. by apply IH.
Qed.

Lemma fill_col_agree (a : array2 Z) (x y : Z) :
  match fill_col a 0 x, fill_col a 0 y with
  | Ok p1, Ok p2 => agree_from_column1 p1 p2
  | Raise e1, Raise e2 => e1 = e2
  | _, _ => False
  end.
Proof.
  unfold fill_col.
  destruct (py_index (shape1 a) 0) as [k|] eqn:Hk; simpl; [|done].
  apply (py_index_of_nat _ 0) in Hk as ->.
  split_and!; [done..|].
  induction (rows a) as [|r rs IH]; simpl; constructor; [|done].
  split; [by rewrite !length_insert|].
  intros j Hj. by rewrite !list_lookup_insert_ne by lia.
Qed.

(** C9.  The reconstruction loop depends on the backpointers only through
    the columns of index 1 and above, and the result of [run_viterbi] is the
    same whatever value the sentinel leaves in column 0. *)
Theorem run_viterbi_sentinel_never_read self (node_scores : array2 R)
    (transition_weights : ndarray R) :
  (∀ (p1 p2 : array2 Z) (best_state_path : list Z) (num_columns : nat),
     agree_from_column1 p1 p2 →
     ViterbiDecoder.reconstruct p1 best_state_path num_columns
     = ViterbiDecoder.reconstruct p2 best_state_path num_columns)
  ∧ (∀ sentinel : Z,
       ViterbiDecoder.run_viterbi sentinel garbage garbage32 self
         node_scores transition_weights true
       = ViterbiDecoder.run_viterbi nan_as_int32 garbage garbage32 self
           node_scores transition_weights true).
Proof.
  split; [apply reconstruct_agree|].
  intros sentinel. unfold ViterbiDecoder.run_viterbi.
  destruct (py_assert _); cbn [rbind]; [|done].
  destruct (get_col node_scores 0) as [first|]; cbn [rbind]; [|done].
  destruct (set_col _ 0 first) as [ps0|]; cbn [rbind]; [|done].
  pose proof (fill_col_agree
    (np_empty garbage32 (shape0 node_scores) (shape1 node_scores))
    sentinel nan_as_int32) as Hfill.
  destruct (fill_col _ 0 sentinel) as [p1|], (fill_col _ 0 nan_as_int32)
    as [p2|]; cbn [rbind]; try (done || congruence).
  pose proof (viterbi_loop_agree (ViterbiDecoder.semiring self) true
    node_scores transition_weights (seq 1 (shape1 node_scores - 1))
    ps0 p1 p2 Hfill) as Hloop.
  destruct (foldM _ (ps0, p1) _) as [[ps1 p1']|],
    (foldM _ (ps0, p2) _) as [[ps2 p2']|]; cbn [rbind]; try (done || congruence).
  destruct Hloop as [<- Hagree].
  destruct (Semiring.arg_sum _) as [arg_sum|]; [|done].
  destruct (get_col ps1 (-1)) as [final|]; cbn [rbind]; [|done].
  destruct (arg_sum final) as [best|]; cbn [rbind]; [|done].
  destruct (py_set _ (-1) _) as [bsp|]; cbn [rbind]; [|done].
  destruct (get2 ps1 _ _); cbn [rbind]; [|done].
  by rewrite (reconstruct_agree p1' p2' bsp _ Hagree).
Qed.


(** *** Ties *)

Lemma map_replicate {A B} (f : A → B) (n : nat) (x : A) :
  map f (replicate n x) = replicate n (f x).
Proof. induction n; simpl; [done|by f_equal]. Qed.

Lemma mapM_map {A B C} (f : B → res C) (g : A → B) (l : list A) :
  mapM f (map g l) = mapM (λ x, f (g x)) l.
Proof. induction l as [|x l IH]; simpl; [done|]. by rewrite IH. Qed.

Lemma get_col_constant {A} (x : A) (s0 s1 j : nat) :
  j < s1 →
  get_col (Array2 s0 s1 (replicate s0 (replicate s1 x))) (Z.of_nat j)
  = Ok (replicate s0 x).
Proof.
  intros Hj. apply get_col_lookup; simpl; [by rewrite !length_replicate|done|].
  intros i r [-> Hi]%lookup_replicate.
  by rewrite !lookup_replicate_2 by done.
Qed.

Lemma get2_constant {A} (x : A) (s0 s1 i j : nat) :
  i < s0 → j < s1 →
  get2 (Array2 s0 s1 (replicate s0 (replicate s1 x))) (Z.of_nat i)
       (Z.of_nat j) = Ok x.
Proof.
  intros Hi Hj. unfold get2. simpl.
  rewrite (py_get_nat _ i (replicate s1 x)) by (by apply lookup_replicate_2).
  simpl. apply py_get_nat. by apply lookup_replicate_2.
Qed.

Section ties.
Hypothesis Rgtb_irrefl : ∀ x : R, Rgtb x x = false.

Lemma argmax_from_replicate (best_i i n : nat) (x : R) :
  argmax_from best_i x i (replicate n x) = best_i.
Proof.
  revert i. induction n as [|n IH]; intros i; simpl; [done|].
  by rewrite Rgtb_irrefl.
Qed.

Lemma np_argmax_replicate (n : nat) (x : R) :
  1 ≤ n → np_argmax (replicate n x) = Ok 0.
Proof.
  intros Hn. destruct n as [|n]; [lia|]. simpl.
  by rewrite argmax_from_replicate.
Qed.

Variables (sr : Semiring.t R) (num_states num_positions : nat).
Variables (node_score weight : R) (by_item : bool).
Hypothesis Harg : Semiring.arg_sum sr = Some np_argmax.
Hypothesis Hstates : 1 ≤ num_states.

Local Abbreviation nodes :=
  (constant_nodes num_states num_positions node_score).
Local Abbreviation weights :=
  (constant_transitions by_item num_states num_positions weight).
Local Abbreviation score := (constant_score sr node_score weight).

Local Abbreviation tied :=
  (tied_columns sr num_states num_positions node_score weight).

Lemma viterbi_column_tied (st : array2 R * array2 Z) (c : nat) :
  S c < num_positions → tied c st →
  ∃ st', ViterbiDecoder.viterbi_column sr true nodes weights st (S c) = Ok st'
         ∧ tied (S c) st'.
Proof.
  intros Hc. destruct st as [ps pr].
  intros (Hwf & Hs0 & Hs1 & Hcol & Hwfp & Hp0 & Hp1 & Hzero). simpl in *.
  unfold ViterbiDecoder.viterbi_column.
  set (w := Array2 num_states num_states
              (replicate num_states (replicate num_states weight))).
  assert (Hw : match weights with
               | Dim3 slices => py_get slices (Z.of_nat (S c) - 1)
               | Dim2 w => Ok w
               end = Ok w).
  { unfold constant_transitions. destruct by_item; [|done].
    replace (Z.of_nat (S c) - 1)%Z with (Z.of_nat c) by lia.
    apply py_get_nat, lookup_replicate_2. lia. }
  rewrite Hw. cbn [rbind].
  replace (Z.of_nat (S c) - 1)%Z with (Z.of_nat c) by lia.
  rewrite Hcol. cbn [rbind].
  unfold ViterbiDecoder.multiply_newaxis. cbn [w shape0 shape1 rows].
  rewrite decide_True by (by rewrite length_replicate).
  rewrite zip_with_replicate, map_replicate. cbn [rbind].
  set (m := Semiring.multiply sr weight (score c)).
  rewrite Harg.
  assert (Hindices :
    reduce_axis0 np_argmax
      (Array2 num_states num_states
         (replicate num_states (replicate num_states m)))
    = Ok (replicate num_states 0)).
  { unfold reduce_axis0. cbn [shape0 shape1].
    rewrite decide_False by lia.
    rewrite (mapM_seq_ok _ (λ _, 0)).
    - by rewrite map_const_seq.
    - intros j Hj. rewrite get_col_constant by lia. cbn [rbind].
      by apply np_argmax_replicate. }
  rewrite Hindices. cbn [rbind]. rewrite map_replicate.
  change (Z.of_nat 0) with 0%Z.
  destruct (set_col_spec pr (S c) (replicate num_states 0%Z))
    as (pr' & -> & Hwfp' & Hp0' & Hp1' & _ & Hrows');
    [done|lia|by rewrite length_replicate|].
  cbn [rbind].
  assert (Hsummed :
    ViterbiDecoder.take_diagonal
      (Array2 num_states num_states
         (replicate num_states (replicate num_states m)))
      (replicate num_states 0)
    = Ok (replicate num_states m)).
  { unfold ViterbiDecoder.take_diagonal, len. cbn [shape0].
    rewrite decide_True by (by rewrite length_replicate).
    rewrite zip_with_replicate_l by (by rewrite length_seq).
    change (pair 0 <$> seq 0 num_states) with (map (pair 0) (seq 0 num_states)).
    rewrite mapM_map. rewrite (mapM_seq_ok _ (λ _, m)).
    - by rewrite map_const_seq.
    - intros j Hj. cbn [fst snd]. apply (get2_constant m _ _ 0 j); lia. }
  rewrite Hsummed. cbn [rbind].
  unfold constant_nodes. rewrite get_col_constant by done. cbn [rbind].
  unfold ViterbiDecoder.multiply_vec.
  rewrite decide_True by (by rewrite !length_replicate).
  rewrite zip_with_replicate. cbn [rbind].
  destruct (set_col_spec ps (S c)
              (replicate num_states (Semiring.multiply sr node_score m)))
    as (ps' & -> & Hwf' & Hs0' & Hs1' & Hcol' & _);
    [done|lia|by rewrite length_replicate|].
  cbn [rbind]. eexists. split; [done|].
  unfold tied_columns. cbn [fst snd].
  split_and!; try (done || congruence).
  intros i r' j Hr' Hj.
  destruct (lookup_lt_is_Some_2 (rows pr) i) as [r Hr].
  { destruct Hwfp as [-> _]. destruct Hwfp' as [Hlen' _].
    rewrite <- Hp0', <- Hlen'. by eapply lookup_lt_Some. }
  destruct (Hrows' i r Hr) as (x & Hx & Hr'').
  apply lookup_replicate in Hx as [-> _].
  rewrite Hr'' in Hr'. injection Hr' as <-.
  destruct (decide (j = S c)) as [->|Hne].
  - apply list_lookup_insert_eq.
    destruct Hwfp as [_ Hcols].
    rewrite (proj1 (Forall_forall _ _) Hcols r)
      by (by eapply list_elem_of_lookup_2).
    lia.
  - rewrite list_lookup_insert_ne by done. apply (Hzero i r j Hr). lia.
Qed.

Lemma viterbi_loop_tied (n c : nat) (st : array2 R * array2 Z) :
  c + n < num_positions → tied c st →
  ∃ st', foldM (ViterbiDecoder.viterbi_column sr true nodes weights) st
               (seq (S c) n) = Ok st'
         ∧ tied (c + n) st'.
Proof.
  revert c st. induction n as [|n IH]; intros c st Hc Htied.
  - exists st. by rewrite Nat.add_0_r.
  - change (seq (S c) (S n)) with (S c :: seq (S (S c)) n). cbn [foldM].
    destruct (viterbi_column_tied st c) as (st1 & -> & Htied1); [lia|done|].
    cbn [rbind].
    destruct (IH (S c) st1) as (st' & -> & Htied'); [lia|done|].
    exists st'. by replace (c + S n) with (S c + n) by lia.
Qed.

Lemma reconstruct_tied (pr : array2 Z) (n : nat) (bsp : list Z) :
  1 ≤ length (rows pr) →
  (∀ i r j, rows pr !! i = Some r → 1 ≤ j ≤ num_positions - 1 →
            r !! j = Some 0%Z) →
  n < num_positions → length bsp = num_positions →
  (∀ k, n ≤ k < num_positions → bsp !! k = Some 0%Z) →
  foldM (ViterbiDecoder.reconstruct_step pr) bsp (rev (seq 1 n))
  = Ok (replicate num_positions 0%Z).
Proof.
  intros Hrow Hzero. revert bsp.
  induction n as [|n IH]; intros bsp Hn Hlen Hbsp.
  - simpl. f_equal. apply list_eq. intros k.
    destruct (decide (k < num_positions)).
    + rewrite Hbsp by lia. by rewrite lookup_replicate_2.
    + rewrite !lookup_ge_None_2; [done|rewrite length_replicate; lia|lia].
  - rewrite seq_S, rev_app_distr. cbn [rev app foldM Nat.add].
    unfold ViterbiDecoder.reconstruct_step at 1.
    rewrite (py_get_nat bsp (S n) 0%Z) by (apply Hbsp; lia). cbn [rbind].
    destruct (lookup_lt_is_Some_2 (rows pr) 0) as [r Hr]; [lia|].
    unfold get2. change 0%Z with (Z.of_nat 0) at 1.
    rewrite (py_get_nat _ _ _ Hr). cbn [rbind].
    rewrite (py_get_nat r (S n) 0%Z) by (apply (Hzero 0 r); [done|lia]).
    cbn [rbind].
    replace (Z.of_nat (S n) - 1)%Z with (Z.of_nat n) by lia.
    rewrite py_set_nat by lia. cbn [rbind].
    apply IH; [lia|by rewrite length_insert|].
    intros k Hk. destruct (decide (k = n)) as [->|Hne].
    + apply list_lookup_insert_eq. lia.
    + rewrite list_lookup_insert_ne by done. apply Hbsp. lia.
Qed.

End ties.

(** C2.  With [np.argmax] as [arg_sum] (MAX_MULTIPLY, MAX_PLUS), on a trellis
    with at least one state and one position whose node scores all equal one
    constant and whose transition weights all equal another, the best path
    repeats state 0 (its label, when [possible_states] is given) at every
    position. *)
Theorem run_viterbi_constant_trellis_first_state self
    (num_states num_positions : nat) (node_score weight : R)
    (by_item : bool) :
  (∀ x : R, Rgtb x x = false) →
  Semiring.arg_sum (ViterbiDecoder.semiring self) = Some np_argmax →
  1 ≤ num_states → 1 ≤ num_positions →
  ViterbiDecoder.run_viterbi nan_as_int32 garbage garbage32 self
    (constant_nodes num_states num_positions node_score)
    (constant_transitions by_item num_states num_positions weight) true
  = Ok (ViterbiDecoder.ScoreAndPath
          (constant_score (ViterbiDecoder.semiring self) node_score weight
             (num_positions - 1))
          match ViterbiDecoder.possible_states self with
          | Some (s :: _) =>
              ViterbiDecoder.StateLabels (replicate num_positions s)
          | _ => ViterbiDecoder.StateIndices (replicate num_positions 0%Z)
          end).
Proof.
  intros Hirr Harg Hstates Hpos. unfold ViterbiDecoder.run_viterbi.
  rewrite Harg, bool_decide_true by (by eexists). cbn [orb py_assert rbind].
  change (shape0 (constant_nodes num_states num_positions node_score))
    with num_states.
  change (shape1 (constant_nodes num_states num_positions node_score))
    with num_positions.
  assert (Hfirst : get_col (constant_nodes num_states num_positions node_score)
                     0 = Ok (replicate num_states node_score)).
  { apply (get_col_constant node_score num_states num_positions 0). lia. }
  rewrite Hfirst. cbn [rbind].
  destruct (set_col_spec (np_empty garbage num_states num_positions) 0
              (replicate num_states node_score))
    as (ps0 & Hset & Hwf0 & Hs0 & Hs1 & Hcol & _);
    [apply wf_np_empty|simpl; lia|by rewrite length_replicate|].
  change (Z.of_nat 0) with 0%Z in Hset. rewrite Hset. cbn [rbind].
  simpl in Hs0, Hs1.
  unfold fill_col. cbn [np_empty shape0 shape1 rows].
  rewrite py_index_0 by lia. cbn [rbind].
  set (pr0 := Array2 num_states num_positions _).
  assert (Htied : tied_columns (ViterbiDecoder.semiring self) num_states
                    num_positions node_score weight 0 (ps0, pr0)).
  { unfold tied_columns. cbn [fst snd pr0 shape0 shape1 rows].
    split_and!; try done.
    - split; simpl; [by rewrite length_map, length_replicate|].
      apply Forall_forall. intros r Hr%list_elem_of_In%in_map_iff.
      destruct Hr as (r0 & <- & [-> _]%list_elem_of_In%elem_of_replicate).
      by rewrite length_insert, length_replicate.
    - intros i r j _ Hj. lia. }
  destruct (viterbi_loop_tied Hirr (ViterbiDecoder.semiring self)
              num_states num_positions node_score weight by_item Harg Hstates
              (num_positions - 1) 0 (ps0, pr0))
    as ([ps pr] & -> & Hfinal); [lia|done|].
  cbn [rbind]. clear Htied.
  destruct Hfinal as (Hwf & Hp0 & Hp1 & Hlast & Hwfp & Hq0 & Hq1 & Hzero).
  cbn [fst snd Nat.add] in *.
  rewrite get_col_last by lia. rewrite Hp1, Hlast. cbn [rbind].
  rewrite np_argmax_replicate by done. cbn [rbind].
  unfold py_set. rewrite length_replicate, py_index_last by done.
  cbn [rbind].
  assert (Hget : get2 ps (Z.of_nat 0) (-1)
                 = Ok (constant_score (ViterbiDecoder.semiring self)
                         node_score weight (num_positions - 1))).
  { apply (get2_of_get_col ps (-1)
             (replicate num_states
                (constant_score (ViterbiDecoder.semiring self) node_score
                   weight (num_positions - 1))));
      [done| |by apply lookup_replicate_2].
    rewrite get_col_last by lia. rewrite Hp1. exact Hlast. }
  rewrite Hget. change (Z.of_nat 0) with 0%Z.
  cbn [rbind]. unfold ViterbiDecoder.reconstruct.
  rewrite (reconstruct_tied num_states num_positions Hstates pr
             (num_positions - 1));
    [| destruct Hwfp as [-> _]; lia | done | lia
     | by rewrite length_insert, length_replicate | ].
  2:{ intros k Hk. replace k with (num_positions - 1) by lia.
      apply list_lookup_insert_eq. rewrite length_replicate. lia. }
  cbn [rbind].
  destruct (ViterbiDecoder.possible_states self) as [[|s states]|]; try done.
  rewrite (mapM_ok _ (λ _, s)).
  - cbn [rbind]. by rewrite map_replicate.
  - apply Forall_forall. intros x [-> _]%elem_of_replicate.
    by apply (py_get_nat (s :: states) 0).
Qed.

End best_path.

Lemma run_viterbi_best_path_needs_arg_sum_witness :
  Semiring.arg_sum (R:=Z) Semiring.PLUS_MULTIPLY = None
  ∧ valid_trellis example_nodes example_transitions
  ∧ ViterbiDecoder.run_viterbi (-2147483648) 0%Z 0%Z
      (ViterbiDecoder.Make (Some example_states) Semiring.PLUS_MULTIPLY)
      example_nodes example_transitions true = Raise AssertionError
  ∧ ∃ score,
      ViterbiDecoder.run_viterbi (-2147483648) 0%Z 0%Z
        (ViterbiDecoder.Make (Some example_states) Semiring.PLUS_MULTIPLY)
        example_nodes example_transitions false
      = Ok (ViterbiDecoder.ScoreOnly score).
Proof.
  assert (Hvalid : valid_trellis example_nodes example_transitions)
    by (apply valid_trellis_by_decide; vm_compute; reflexivity).
  pose proof (run_viterbi_best_path_needs_arg_sum (-2147483648) 0%Z 0%Z
                (ViterbiDecoder.Make (Some example_states)
                   Semiring.PLUS_MULTIPLY)
                example_nodes example_transitions) as [Hpath Hscore].
  split; [reflexivity|]. split; [exact Hvalid|]. split.
  - apply Hpath. reflexivity.
  - apply Hscore; [exact Hvalid|]. intros l _. eexists. reflexivity.
Defined.

Lemma Z_gtb_irrefl (x : Z) : Rgtb x x = false.
Proof. simpl. rewrite Z.gtb_ltb. apply Z.ltb_irrefl. Qed.

Lemma run_viterbi_constant_trellis_first_state_witness :
  (1 ≤ 3 ∧ 1 ≤ 4)
  ∧ ViterbiDecoder.run_viterbi (-2147483648) 0%Z 0%Z
      (ViterbiDecoder.Make (Some example_states) Semiring.MAX_PLUS)
      (constant_nodes 3 4 5%Z) (constant_transitions true 3 4 2%Z) true
    = Ok (ViterbiDecoder.ScoreAndPath 26%Z
            (ViterbiDecoder.StateLabels ["A"; "A"; "A"; "A"]%string)).
Proof.
  split; [lia|].
  exact (run_viterbi_constant_trellis_first_state (-2147483648) 0%Z 0%Z
           (ViterbiDecoder.Make (Some example_states) Semiring.MAX_PLUS)
           3 4 5%Z 2%Z true Z_gtb_irrefl eq_refl
           ltac:(lia) ltac:(lia)).
Defined.

Lemma run_viterbi_sentinel_never_read_witness :
  agree_from_column1 (np_array [[7; 1]; [8; 0]]%Z) (np_array [[9; 1]; [3; 0]]%Z)
  ∧ ViterbiDecoder.reconstruct (np_array [[7; 1]; [8; 0]]%Z) [0; 1]%Z 2
    = ViterbiDecoder.reconstruct (np_array [[9; 1]; [3; 0]]%Z) [0; 1]%Z 2
  ∧ ViterbiDecoder.run_viterbi 0%Z 0%Z 0%Z
      (ViterbiDecoder.Make (Some example_states) Semiring.MAX_MULTIPLY)
      example_nodes example_transitions true
    = ViterbiDecoder.run_viterbi (-2147483648) 0%Z 0%Z
        (ViterbiDecoder.Make (Some example_states) Semiring.MAX_MULTIPLY)
        example_nodes example_transitions true.
Proof.
  destruct (run_viterbi_sentinel_never_read (-2147483648) 0%Z 0%Z
              (ViterbiDecoder.Make (Some example_states) Semiring.MAX_MULTIPLY)
              example_nodes example_transitions) as [Hreconstruct Hrun].
  assert (Hagree : agree_from_column1 (np_array [[7; 1]; [8; 0]]%Z)
                     (np_array [[9; 1]; [3; 0]]%Z)).
  { split; [reflexivity|]. split; [reflexivity|].
    repeat constructor; intros [|j] Hj; (lia || reflexivity). }
  split; [exact Hagree|]. split.
  - apply Hreconstruct. exact Hagree.
  - apply Hrun.
Defined.

Lemma run_viterbi_single_position_witness :
  wf_array2 (np_array [[3]; [7]; [5]]%Z)
  ∧ np_argmax [3; 7; 5]%Z = Ok 1
  ∧ ViterbiDecoder.run_viterbi (-2147483648) 0%Z 0%Z
      (ViterbiDecoder.Make (Some ["A"; "B"; "C"]%string) Semiring.MAX_MULTIPLY)
      (np_array [[3]; [7]; [5]]%Z) example_transitions true
    = Ok (ViterbiDecoder.ScoreAndPath 7%Z
            (ViterbiDecoder.StateLabels ["B"%string])).
Proof.
  assert (Hwf : wf_array2 (np_array [[3]; [7]; [5]]%Z)).
  { split; [reflexivity|]. repeat constructor. }
  split; [exact Hwf|]. split; [reflexivity|].
  destruct (run_viterbi_single_position (-2147483648) 0%Z 0%Z
              (ViterbiDecoder.Make (Some ["A"; "B"; "C"]%string)
                 Semiring.MAX_MULTIPLY)
              (np_array [[3]; [7]; [5]]%Z) example_transitions np_argmax 1)
    as [_ Hlabels]; [reflexivity|exact Hwf|reflexivity|reflexivity|simpl; lia|].
  exact (Hlabels ["A"; "B"; "C"]%string "B"%string eq_refl eq_refl).
Defined.

(** ** The feature-name dictionary *)

Section dictionary_facts.
Implicit Types (d : NameDictionary.t) (names : list string).

Lemma bidirectional_empty : bidirectional NameDictionary.empty.
Proof. intros name i. simpl. by rewrite lookup_empty, lookup_nil. Qed.

Lemma bidirectional_elem_of d name :
  bidirectional d →
  name ∈ NameDictionary.ids_to_names d
  ↔ is_Some (NameDictionary.names_to_ids d !! name).
Proof.
  intros Hd. rewrite list_elem_of_lookup. split.
  - intros [i Hi%Hd]. by eexists.
  - intros [i Hi%Hd]. by eexists.
Qed.

Lemma bidirectional_insert d name :
  bidirectional d → bidirectional (NameDictionary.insert name d).
Proof.
  intros Hd. unfold NameDictionary.insert.
  destruct (NameDictionary.names_to_ids d !! name) as [k|] eqn:Hname; [done|].
  intros other i. cbn [NameDictionary.names_to_ids NameDictionary.ids_to_names].
  unfold NameDictionary.len.
  destruct (decide (other = name)) as [->|Hne].
  - rewrite lookup_insert_eq. split.
    + intros [= <-]. rewrite lookup_app_r by done.
      by rewrite Nat.sub_diag.
    + intros Hi. f_equal.
      destruct (decide (i < length (NameDictionary.ids_to_names d)))
        as [Hlt|Hge].
      * rewrite lookup_app_l in Hi by done. apply Hd in Hi. congruence.
      * apply lookup_lt_Some in Hi. rewrite length_app in Hi. simpl in Hi.
        lia.
  - rewrite lookup_insert_ne by done. rewrite (Hd other i). split.
    + intros Hi. rewrite lookup_app_l; [done|]. by eapply lookup_lt_Some.
    + intros Hi.
      destruct (decide (i < length (NameDictionary.ids_to_names d)))
        as [Hlt|Hge].
      * by rewrite lookup_app_l in Hi.
      * rewrite lookup_app_r in Hi by lia.
        apply list_elem_of_lookup_2 in Hi.
        apply list_elem_of_singleton in Hi. done.
Qed.

Lemma bidirectional_inserts d names :
  bidirectional d →
  bidirectional (foldl (λ d name, NameDictionary.insert name d) d names).
Proof.
  revert d. induction names as [|name names IH]; intros d Hd; simpl; [done|].
  by apply IH, bidirectional_insert.
Qed.

Lemma first_seen_filter (P : string → Prop) `{∀ x, Decision (P x)} names :
  first_seen (filter P names) = filter P (first_seen names).
Proof.
  induction names as [|name names IH]; [done|].
  rewrite filter_cons. cbn [first_seen]. rewrite filter_cons.
  destruct (decide (P name)) as [Hname|Hname].
  - cbn [first_seen]. rewrite IH. f_equal.
    rewrite !list_filter_filter. apply list_filter_iff.
    intros other. simpl. tauto.
  - rewrite IH, list_filter_filter. apply list_filter_iff.
    intros other. simpl. split; [|tauto].
    intros Hother. split; [done|]. by intros ->.
Qed.

Lemma ids_to_names_inserts d names :
  bidirectional d →
  NameDictionary.ids_to_names
    (foldl (λ d name, NameDictionary.insert name d) d names)
  = NameDictionary.ids_to_names d
    ++ first_seen (filter (λ name, name ∉ NameDictionary.ids_to_names d)
                          names).
Proof.
  revert d. induction names as [|name names IH]; intros d Hd.
  - simpl. by rewrite app_nil_r.
  - cbn [foldl]. rewrite IH by (by apply bidirectional_insert).
    rewrite filter_cons. unfold NameDictionary.insert.
    pose proof (bidirectional_elem_of d name Hd) as Hin.
    destruct (NameDictionary.names_to_ids d !! name) as [k|] eqn:Hname.
    + rewrite decide_False; [done|]. intros Hnot. apply Hnot, Hin. by eexists.
    + rewrite decide_True.
      2:{ intros [k Hk]%Hin. congruence. }
      cbn [NameDictionary.ids_to_names first_seen].
      rewrite <- app_assoc. cbn [app]. do 2 f_equal.
      rewrite <- first_seen_filter. f_equal.
      rewrite list_filter_filter. apply list_filter_iff.
      intros other. rewrite elem_of_app, list_elem_of_singleton.
      simpl. tauto.
Qed.

Lemma ids_to_names_from_empty names :
  NameDictionary.ids_to_names
    (foldl (λ d name, NameDictionary.insert name d) NameDictionary.empty names)
  = first_seen names.
Proof.
  rewrite ids_to_names_inserts by apply bidirectional_empty. simpl.
  f_equal. induction names as [|name names IH]; [done|].
  rewrite filter_cons_True by apply not_elem_of_nil. by f_equal.
Qed.

Lemma elem_of_first_seen names name :
  name ∈ first_seen names ↔ name ∈ names.
Proof.
  induction names as [|first names IH]; simpl; [done|].
  rewrite !elem_of_cons, list_elem_of_filter, IH.
  destruct (decide (name = first)); [subst|]; tauto.
Qed.

Lemma NoDup_first_seen names : NoDup (first_seen names).
Proof.
  induction names as [|first names IH]; simpl; [constructor|].
  constructor; [|by apply NoDup_filter].
  rewrite list_elem_of_filter. tauto.
Qed.

End dictionary_facts.

(** ** Featurized models *)

Section featurized_facts.
Context {Part V TrainingData : Type}.
Local Abbreviation model := (FeaturizedModel.t Part V TrainingData).
Local Abbreviation extractor := (FeatureExtractor.t Part V TrainingData).
Implicit Types (self : model) (parts : list Part).

Lemma foldl_insert_app (d : NameDictionary.t) (l1 l2 : list string) :
  foldl (λ d name, NameDictionary.insert name d) d (l1 ++ l2)
  = foldl (λ d name, NameDictionary.insert name d)
          (foldl (λ d name, NameDictionary.insert name d) d l1) l2.
Proof. apply foldl_app. Qed.

Lemma dictionary_after_register parts self (es : list extractor) :
  FeaturizedModel.feature_name_dictionary
    (foldl (FeaturizedModel.register parts) self es)
  = foldl (λ d name, NameDictionary.insert name d)
          (FeaturizedModel.feature_name_dictionary self)
          (concat (map (λ e, FeatureExtractor.extract_subfeature_names e parts)
                       es)).
Proof.
  revert self. induction es as [|e es IH]; intros self; [done|].
  cbn [foldl map concat]. rewrite IH, foldl_insert_app. done.
Qed.

Lemma extractors_after_register parts self (es : list extractor) :
  FeaturizedModel.feature_extractors
    (foldl (FeaturizedModel.register parts) self es)
  = FeaturizedModel.feature_extractors self.
Proof.
  revert self. induction es as [|e es IH]; intros self; [done|].
  cbn [foldl]. by rewrite IH.
Qed.

Lemma dictionary_after_register_features self parts :
  FeaturizedModel.feature_name_dictionary
    (FeaturizedModel.register_features self parts)
  = foldl (λ d name, NameDictionary.insert name d) NameDictionary.empty
          (all_subfeature_names self parts).
Proof.
  unfold FeaturizedModel.register_features.
  by rewrite dictionary_after_register.
Qed.

Lemma foldM_never_raises {A S} (e : exn) (f : S → A → res S) (s : S)
    (l : list A) :
  (∀ s' x, f s' x ≠ Raise e) → foldM f s l ≠ Raise e.
Proof.
  intros Hf. revert s. induction l as [|x l IH]; intros s; simpl; [done|].
  destruct (f s x) as [s'|e'] eqn:Hx; simpl; [apply IH|].
  intros [= ->]. by apply (Hf s x).
Qed.

Lemma featurize_cell_no_KeyError {F} (is_zero : V → bool)
    (to_float32 : V → F) (float32_is_zero : F → bool) self (part_index : nat)
    (st : lil_matrix F * list string) (item : string * V) :
  ClassifierModel.featurize_cell is_zero to_float32 float32_is_zero self
    part_index st item
  ≠ Raise KeyError.
Proof.
  unfold ClassifierModel.featurize_cell.
  destruct st as [features debug_log], item as [name value].
  destruct (is_zero value); [done|].
  unfold NameDictionary.getitem.
  destruct (_ !! name) as [i|]; cbn [rbind try_except_KeyError]; [|done].
  unfold lil_set. by case_decide.
Qed.

Lemma registered_names_elem_of self parts (name : string) :
  name ∈ dom (NameDictionary.names_to_ids
                (FeaturizedModel.feature_name_dictionary
                   (FeaturizedModel.register_features self parts)))
  ↔ name ∈ all_subfeature_names self parts.
Proof.
  rewrite dictionary_after_register_features.
  rewrite elem_of_dom, <- bidirectional_elem_of
    by apply bidirectional_inserts, bidirectional_empty.
  rewrite ids_to_names_from_empty. apply elem_of_first_seen.
Qed.

(** C3.  [train] hands the hook a model whose dictionary holds exactly the
    subfeature names of the configured extractors over the parts, indexed
    from 0 in the order of first occurrence along the extractor list,
    whatever the dictionary held before; and [_featurize] never raises
    [KeyError]: an entry whose name the dictionary lacks leaves the matrix
    as it is, with a debug message when its value is not zero. *)
Theorem train_registers_subfeature_names
    (_featurized_train : model → list Part → res model) self parts :
  let trained := FeaturizedModel.register_features self parts in
  let d := FeaturizedModel.feature_name_dictionary trained in
  NameDictionary.ids_to_names d = first_seen (all_subfeature_names self parts)
  ∧ bidirectional d
  ∧ (∀ name, name ∈ dom (NameDictionary.names_to_ids d)
             ↔ name ∈ all_subfeature_names self parts)
  ∧ FeaturizedModel.train _featurized_train self parts
    = _featurized_train trained parts
  ∧ (∀ (F : Type) (label : Part → Z) (is_zero : V → bool)
       (to_float32 : V → F) (float32_is_zero : F → bool) (tested : model)
       parts',
       ClassifierModel._featurize label is_zero to_float32 float32_is_zero
         tested parts'
       ≠ Raise KeyError)
  ∧ (∀ (F : Type) (is_zero : V → bool) (to_float32 : V → F)
       (float32_is_zero : F → bool) (tested : model) part_index
       (features : lil_matrix F) debug_log name value,
       NameDictionary.names_to_ids
         (FeaturizedModel.feature_name_dictionary tested) !! name = None →
       ClassifierModel.featurize_cell is_zero to_float32 float32_is_zero
         tested part_index (features, debug_log) (name, value)
       = Ok (features,
             if is_zero value then debug_log
             else debug_log
                  ++ [("Ignoring unknown subfeature: " +:+ name)%string])).
Proof.
  intros trained d.
  assert (Hd : d = foldl (λ d name, NameDictionary.insert name d)
                     NameDictionary.empty (all_subfeature_names self parts))
    by apply dictionary_after_register_features.
  assert (Hbi : bidirectional d).
  { rewrite Hd. apply bidirectional_inserts, bidirectional_empty. }
  assert (Hids : NameDictionary.ids_to_names d
                 = first_seen (all_subfeature_names self parts)).
  { rewrite Hd. apply ids_to_names_from_empty. }
  split_and!; [done|done| |done| |].
  - apply registered_names_elem_of.
  - intros F label is_zero to_float32 float32_is_zero tested parts'.
    unfold ClassifierModel._featurize.
    match goal with
    | |- rbind ?c _ ≠ _ =>
        assert (Hc : c ≠ Raise KeyError);
          [|revert Hc; destruct c as [[? ?]|]; cbn [rbind];
            intros Hc; [discriminate|intros [= ->]; by apply Hc]]
    end.
    apply foldM_never_raises. intros st e.
    apply foldM_never_raises. intros st' indexed.
    apply foldM_never_raises. intros st'' item.
    apply featurize_cell_no_KeyError.
  - intros F is_zero to_float32 float32_is_zero tested part_index features
      debug_log name value Hname.
    unfold ClassifierModel.featurize_cell.
    destruct (is_zero value); [done|].
    unfold NameDictionary.getitem. by rewrite Hname.
Qed.

(** C8.  [test] on a model whose feature-name dictionary is empty, as
    [__init__] leaves it, raises at the assertion whatever the subclass hook
    would do; on a populated dictionary it is the hook's result. *)
Theorem test_requires_populated_dictionary
    (_featurized_test : model → list Part → res model) self parts :
  (NameDictionary.len (FeaturizedModel.feature_name_dictionary self) = 0 →
   FeaturizedModel.test _featurized_test self parts = Raise AssertionError)
  ∧ (NameDictionary.len (FeaturizedModel.feature_name_dictionary self) ≠ 0 →
     FeaturizedModel.test _featurized_test self parts
     = _featurized_test self parts)
  ∧ (∀ inherited_extract_all part_type feature_extractors selected_features
       save_featurized fresh,
       FeaturizedModel.init inherited_extract_all part_type
         feature_extractors selected_features save_featurized = Ok fresh →
       FeaturizedModel.test _featurized_test fresh parts
       = Raise AssertionError).
Proof.
  unfold FeaturizedModel.test, NameDictionary.truth. split_and!.
  - by intros ->.
  - intros Hlen.
    by destruct (NameDictionary.len _) as [|n].
  - intros inherited part_type es selected save fresh.
    unfold FeaturizedModel.init.
    destruct (foldM _ _ selected) as [extractors|]; cbn [rbind]; [|done].
    by intros [= <-].
Qed.

Lemma elem_of_conjoined_pair
    (inherited_extract_all :
       (Part → string) → list Part → list (list (string * V)))
    (conjoined_name : string) (e1 e2 : extractor) parts (name : string) :
  name ∈ FeatureExtractor.extract_subfeature_names
           (ConjoinedFeatureExtractor.as_extractor inherited_extract_all
              (ConjoinedFeatureExtractor.Make conjoined_name Categorical
                 [e1; e2]))
           parts
  ↔ ∃ a b, a ∈ FeatureExtractor.extract_subfeature_names e1 parts
           ∧ b ∈ FeatureExtractor.extract_subfeature_names e2 parts
           ∧ name = (a +:+ ":" +:+ b)%string.
Proof.
  cbn. unfold ConjoinedFeatureExtractor.extract_subfeature_names. cbn.
  rewrite list_elem_of_In, in_map_iff. split.
  - intros (components & <- & (a & Ha & Hc)%in_flat_map).
    apply in_map_iff in Hc as (tail & <- & (b & Hb & Ht)%in_flat_map).
    destruct Ht as [<-|[]]. exists a, b.
    by rewrite !list_elem_of_In.
  - intros (a & b & Ha%list_elem_of_In & Hb%list_elem_of_In & ->).
    exists [a; b]. split; [done|].
    apply in_flat_map. exists a. split; [done|].
    apply in_map_iff. exists [b]. split; [done|].
    apply in_flat_map. exists b. split; [done|]. by left.
Qed.

End featurized_facts.

(** C6.  A model over two categorical extractors named [identity] and [add1],
    whose subfeature names over the parts 1, 2 are [identity=1], [identity=2]
    and [add1=2], [add1=3], selected as [identity], [add1] and
    [identity:add1], registers those four names and the four pairs joined by
    [:], and nothing else. *)
Theorem conjoined_feature_registers_cartesian_product {V TrainingData : Type}
    (inherited_extract_all :
       (Z → string) → list Z → list (list (string * V)))
    (identity add1 : FeatureExtractor.t Z V TrainingData)
    (part_type : Z → bool) (save_featurized : bool) :
  FeatureExtractor.name identity = "identity"%string →
  FeatureExtractor.name add1 = "add1"%string →
  FeatureExtractor.feature_type identity = Categorical →
  FeatureExtractor.feature_type add1 = Categorical →
  FeatureExtractor.extract_subfeature_names identity [1; 2]%Z
    ≡ₚ ["identity=1"; "identity=2"]%string →
  FeatureExtractor.extract_subfeature_names add1 [1; 2]%Z
    ≡ₚ ["add1=2"; "add1=3"]%string →
  ∃ model,
    FeaturizedModel.init inherited_extract_all part_type [identity; add1]
      ["identity"; "add1"; "identity:add1"]%string save_featurized = Ok model
    ∧ dom (NameDictionary.names_to_ids
             (FeaturizedModel.feature_name_dictionary
                (FeaturizedModel.register_features model [1; 2]%Z)))
      = ({[ "identity=1"; "identity=2"; "add1=2"; "add1=3";
            "identity=1:add1=2"; "identity=2:add1=3";
            "identity=1:add1=3"; "identity=2:add1=2" ]} : gset string)%string.
Proof.
  destruct identity as [n1 t1 train1 names1 extract1 all1],
    add1 as [n2 t2 train2 names2 extract2 all2].
  intros Hn1 Hn2 Ht1 Ht2 Hnames1 Hnames2.
  cbn in Hn1, Hn2, Ht1, Ht2, Hnames1, Hnames2. subst n1 n2 t1 t2.
  set (e1 := FeatureExtractor.Make "identity" Categorical train1 names1
               extract1 all1).
  set (e2 := FeatureExtractor.Make "add1" Categorical train2 names2
               extract2 all2).
  exists (FeaturizedModel.Make part_type NameDictionary.empty
            [e1; e2;
             ConjoinedFeatureExtractor.as_extractor inherited_extract_all
               (ConjoinedFeatureExtractor.Make "identity:add1" Categorical
                  [e1; e2])]
            None save_featurized).
  split; [reflexivity|].
  apply set_eq. intros name. rewrite registered_names_elem_of.
  unfold all_subfeature_names.
  cbn [FeaturizedModel.feature_extractors map concat].
  rewrite !elem_of_app, elem_of_conjoined_pair.
  cbn [e1 e2 FeatureExtractor.extract_subfeature_names].
  setoid_rewrite Hnames1. setoid_rewrite Hnames2.
  set_unfold. split.
  - intros [H|[H|[(a & b & Ha & Hb & ->)|[]]]];
      [destruct H as [->|[->|[]]]; tauto..|].
    destruct Ha as [->|[->|[]]], Hb as [->|[->|[]]]; cbn; tauto.
  - intros H.
    repeat (destruct H as [H|H]); subst; try tauto;
      right; right; left;
      [exists "identity=1"%string, "add1=2"%string
      |exists "identity=2"%string, "add1=3"%string
      |exists "identity=1"%string, "add1=3"%string
      |exists "identity=2"%string, "add1=2"%string]; cbn; tauto.
Qed.

Lemma train_registers_subfeature_names_witness :
  NameDictionary.names_to_ids
    (FeaturizedModel.feature_name_dictionary
       (FeaturizedModel.register_features example_model [1; 2]%Z))
    !! "identity=3"%string = None
  ∧ ClassifierModel.featurize_cell (Z.eqb 0) float32_of_int float32_is_zero
      (FeaturizedModel.register_features example_model [1; 2]%Z) 0
      (LilMatrix (1, 8) ∅, []) ("identity=3"%string, 1%Z)
    = Ok (LilMatrix (1, 8) ∅,
          ["Ignoring unknown subfeature: identity=3"%string]).
Proof.
  assert (Hunknown :
    NameDictionary.names_to_ids
      (FeaturizedModel.feature_name_dictionary
         (FeaturizedModel.register_features example_model [1; 2]%Z))
      !! "identity=3"%string = None) by (vm_compute; reflexivity).
  split; [exact Hunknown|].
  destruct (train_registers_subfeature_names no_hook example_model [1; 2]%Z)
    as (_ & _ & _ & _ & _ & Hskip).
  exact (Hskip spec_float (Z.eqb 0) float32_of_int float32_is_zero
           (FeaturizedModel.register_features example_model [1; 2]%Z)
           0 (LilMatrix (1, 8) ∅) [] "identity=3"%string 1%Z Hunknown).
Defined.

Lemma test_requires_populated_dictionary_witness :
  (NameDictionary.len (FeaturizedModel.feature_name_dictionary example_model)
   = 0
   ∧ FeaturizedModel.test no_hook example_model [1; 2]%Z
     = Raise AssertionError)
  ∧ (NameDictionary.len
       (FeaturizedModel.feature_name_dictionary
          (FeaturizedModel.register_features example_model [1; 2]%Z)) ≠ 0
     ∧ FeaturizedModel.test no_hook
         (FeaturizedModel.register_features example_model [1; 2]%Z)
         [1; 2]%Z
       = no_hook (FeaturizedModel.register_features example_model [1; 2]%Z)
           [1; 2]%Z).
Proof.
  split.
  - split; [reflexivity|].
    apply (test_requires_populated_dictionary no_hook example_model).
    reflexivity.
  - assert (Hlen : NameDictionary.len
                     (FeaturizedModel.feature_name_dictionary
                        (FeaturizedModel.register_features example_model
                           [1; 2]%Z)) ≠ 0)
      by (vm_compute; discriminate).
    split; [exact Hlen|].
    apply (test_requires_populated_dictionary no_hook
             (FeaturizedModel.register_features example_model [1; 2]%Z)).
    exact Hlen.
Defined.

Lemma conjoined_feature_registers_cartesian_product_witness :
  ∃ model,
    FeaturizedModel.init indicator_extract_all (λ _, true)
      [identity_extractor; add1_extractor]
      ["identity"; "add1"; "identity:add1"]%string false = Ok model
    ∧ dom (NameDictionary.names_to_ids
             (FeaturizedModel.feature_name_dictionary
                (FeaturizedModel.register_features model [1; 2]%Z)))
      = ({[ "identity=1"; "identity=2"; "add1=2"; "add1=3";
            "identity=1:add1=2"; "identity=2:add1=3";
            "identity=1:add1=3"; "identity=2:add1=2" ]} : gset string)%string.
Proof.
  apply (conjoined_feature_registers_cartesian_product indicator_extract_all
           identity_extractor add1_extractor (λ _, true) false);
    try reflexivity; vm_compute; reflexivity.
Defined.

(** * Binary64 arithmetic

    What [rebalance] needs of the floats it computes with, from the
    specification of the primitive operations. *)

Lemma digits2_pos_bounds (p : positive) :
  (2 ^ (Z.pos (digits2_pos p) - 1) ≤ Z.pos p < 2 ^ Z.pos (digits2_pos p))%Z.
Proof.
  induction p as [p IH|p IH|]; cbn [digits2_pos].
  - rewrite Pos2Z.inj_succ, (Pos2Z.inj_xI p).
    replace (Z.succ (Z.pos (digits2_pos p)) - 1)%Z
      with (Z.succ (Z.pos (digits2_pos p) - 1)) by lia.
    rewrite !Z.pow_succ_r by lia. lia.
  - rewrite Pos2Z.inj_succ, (Pos2Z.inj_xO p).
    replace (Z.succ (Z.pos (digits2_pos p)) - 1)%Z
      with (Z.succ (Z.pos (digits2_pos p) - 1)) by lia.
    rewrite !Z.pow_succ_r by lia. lia.
  - simpl. lia.
Qed.

Lemma iter_xO_value (m d : positive) :
  Z.pos (Pos.iter xO m d) = (Z.pos m * 2 ^ Z.pos d)%Z.
Proof.
  induction d as [|d IH] using Pos.peano_ind.
  - simpl. lia.
  - rewrite Pos.iter_succ, (Pos2Z.inj_xO (Pos.iter xO m d)), IH, Pos2Z.inj_succ.
    rewrite Z.pow_succ_r by lia. lia.
Qed.

Lemma digits2_pos_iter_xO (m d : positive) :
  digits2_pos (Pos.iter xO m d) = (digits2_pos m + d)%positive.
Proof.
  induction d as [|d IH] using Pos.peano_ind.
  - simpl. lia.
  - rewrite Pos.iter_succ. cbn [digits2_pos]. rewrite IH. lia.
Qed.

Lemma binary_round_aux_nonneg (mx ex : Z) (lx : location) :
  nonneg_or_nan (binary_round_aux prec emax false mx ex lx).
Proof.
  unfold binary_round_aux.
  destruct (shr_fexp prec emax mx ex lx) as [mrs' e'].
  destruct (shr_fexp prec emax _ e' loc_Exact) as [mrs'' e''].
  destruct (shr_m mrs''); [done| |done].
  by destruct (Z.leb _ _).
Qed.

Lemma binary_normalize_nonneg (m e : Z) :
  (0 ≤ m)%Z → nonneg_or_nan (binary_normalize prec emax m e false).
Proof.
  intros Hm. destruct m as [|p|p]; [done| |lia].
  cbn [binary_normalize]. unfold binary_round.
  destruct (shl_align _ _ _) as [mz ez]. apply binary_round_aux_nonneg.
Qed.

Lemma float_of_int_nonneg (z : Z) :
  (0 ≤ z)%Z → nonneg_or_nan (Prim2SF (float_of_int z)).
Proof.
  intros Hz. unfold float_of_int.
  rewrite (proj2 (Z.ltb_ge z 0) Hz), FloatAxioms.of_uint63_spec.
  apply binary_normalize_nonneg.
  pose proof (Uint63.to_Z_bounded (Uint63.of_Z z)). lia.
Qed.

Lemma SFmul_nonneg (x y : spec_float) :
  nonneg_or_nan x → nonneg_or_nan y → nonneg_or_nan (SFmul prec emax x y).
Proof.
  destruct x as [sx|sx| |sx mx ex], y as [sy|sy| |sy my ey]; cbn;
    try done; try (by intros -> ->); try (by intros ->); try (by intros _ ->).
  intros -> ->. apply binary_round_aux_nonneg.
Qed.

(** The mantissa of a float has at most 53 bits, and exactly 53 above the
    least exponent. *)
Lemma finite_float_mantissa (x : float) (s : bool) (m : positive) (e : Z) :
  Prim2SF x = S754_finite s m e →
  (-1074 ≤ e ≤ 971)%Z ∧ (Z.pos m < 2 ^ 53)%Z
  ∧ ((-1074 < e)%Z → digits2_pos m = 53%positive ∧ (2 ^ 52 ≤ Z.pos m)%Z).
Proof.
  intros Hx. pose proof (FloatAxioms.Prim2SF_valid x) as Hvalid.
  rewrite Hx in Hvalid. cbn [valid_binary] in Hvalid.
  unfold bounded, canonical_mantissa, fexp, emin in Hvalid.
  apply andb_prop in Hvalid as [Hcanonical Hle].
  apply Z.eqb_eq in Hcanonical. apply Z.leb_le in Hle.
  unfold prec, emax in *.
  pose proof (digits2_pos_bounds m) as [Hlow Hhigh].
  assert (Hdigits : (Z.pos (digits2_pos m) ≤ 53)%Z) by lia.
  split; [lia|]. split.
  - eapply Z.lt_le_trans; [exact Hhigh|].
    apply Z.pow_le_mono_r; lia.
  - intros He.
    assert (Hd : digits2_pos m = 53%positive) by lia.
    split; [done|]. by rewrite Hd in Hlow.
Qed.

(** [ratio - 1] for a ratio that is not at most 1. *)
Lemma sub_one_nonneg (ratio : float) :
  (ratio <=? 1)%float = false → nonneg_or_nan (Prim2SF (ratio - 1)).
Proof.
  rewrite FloatAxioms.leb_spec, FloatAxioms.sub_spec.
  change (Prim2SF 1) with (S754_finite false 4503599627370496 (-52)).
  destruct (Prim2SF ratio) as [s|s| |s m e] eqn:Hratio.
  - by destruct s.
  - by destruct s.
  - done.
  - destruct s; [done|].
    destruct (finite_float_mantissa ratio false m e Hratio)
      as (Hrange & _ & Hnormal).
    unfold SFleb, SFcompare. unfold FloatAxioms.SF64sub, SFsub.
    destruct (Z.compare_spec e (-52)) as [->|Hlt|Hgt]; [|done|].
    + rewrite Pos.compare_cont_spec. cbn [Pos.switch_Eq].
      destruct (Pos.compare_spec m 4503599627370496) as [_|_|Hm];
        [done..|]. intros _.
      apply binary_normalize_nonneg.
      rewrite Z.min_id. unfold shl_align. rewrite Z.sub_diag.
      cbn [fst cond_Zopp]. lia.
    + intros _. apply binary_normalize_nonneg.
      rewrite Z.min_r by lia. unfold shl_align.
      destruct (Hnormal ltac:(lia)) as [_ Hm].
      destruct (-52 - e)%Z as [|d|d] eqn:Hd; [lia..|].
      rewrite Z.sub_diag. cbn [fst cond_Zopp]. rewrite iter_xO_value.
      assert (0 < 2 ^ Z.pos d)%Z by (apply Z.pow_pos_nonneg; lia).
      change (2 ^ 52)%Z with 4503599627370496%Z in Hm. nia.
Qed.

(** [(ratio - 1) * current_count] *)
Lemma allowed_nonneg (ratio : float) (current_count : nat) :
  (ratio <=? 1)%float = false →
  nonneg_or_nan
    (Prim2SF ((ratio - 1) * float_of_int (Z.of_nat current_count))).
Proof.
  intros Hratio. rewrite FloatAxioms.mul_spec.
  apply SFmul_nonneg; [by apply sub_one_nonneg|].
  apply float_of_int_nonneg. lia.
Qed.

(** A float that is not negative and below another is zero or finite:
    [int] returns for it. *)
Lemma py_int_below (x y : float) :
  nonneg_or_nan (Prim2SF x) → (x <? y)%float = true →
  ∃ a, py_int x = Ok a ∧ (0 ≤ a)%Z.
Proof.
  rewrite FloatAxioms.ltb_spec. unfold py_int, SFltb, SFcompare.
  destruct (Prim2SF x) as [s|s| |s m e]; cbn [nonneg_or_nan].
  - intros _ _. by exists 0%Z.
  - intros ->. by destruct (Prim2SF y) as [?|[]| |[] ? ?].
  - done.
  - intros -> _. eexists. split; [done|]. cbn [cond_Zopp].
    apply Z.shiftl_nonneg. lia.
Qed.

Lemma count_to_add_returns (ratio : float) (max_count current_count : nat) :
  (ratio <=? 1)%float = false → current_count ≤ max_count →
  ∃ a, ClassBalancingModelWrapper.count_to_add ratio max_count current_count
       = Ok a ∧ (0 ≤ a)%Z.
Proof.
  intros Hratio Hle. unfold ClassBalancingModelWrapper.count_to_add.
  destruct (ltb _ _) eqn:Hlt.
  - eapply py_int_below; [by apply allowed_nonneg|exact Hlt].
  - eexists. split; [done|]. lia.
Qed.

(** With the default ratio the product is infinite, or NaN for a class
    without rows: [min] keeps the room up to the majority. *)
Lemma count_to_add_unlimited (max_count current_count : nat) :
  ClassBalancingModelWrapper.count_to_add infinity max_count current_count
  = Ok (Z.of_nat max_count - Z.of_nat current_count)%Z.
Proof.
  unfold ClassBalancingModelWrapper.count_to_add.
  rewrite FloatAxioms.ltb_spec, FloatAxioms.mul_spec.
  change (Prim2SF (infinity - 1)) with (S754_infinity false).
  pose proof (float_of_int_nonneg (Z.of_nat current_count) ltac:(lia))
    as Hcount.
  destruct (Prim2SF (float_of_int (Z.of_nat current_count)))
    as [s|s| |s m e]; cbn in Hcount |- *; subst; try done;
    by destruct (Prim2SF _) as [?|[]| |[] ? ?].
Qed.

(** Rounding a 53-bit mantissa within the exponent range changes
    nothing. *)
Lemma binary_round_aux_exact (m : positive) (e : Z) :
  digits2_pos m = 53%positive → (-1074 ≤ e ≤ 971)%Z →
  binary_round_aux prec emax false (Z.pos m) e loc_Exact
  = S754_finite false m e.
Proof.
  intros Hdigits He.
  assert (Hshift : (fexp prec emax (Z.pos (digits2_pos m) + e) - e = 0)%Z).
  { rewrite Hdigits. unfold fexp, emin, prec, emax. lia. }
  unfold binary_round_aux, shr_fexp. cbn [Zdigits2 shr_record_of_loc].
  rewrite Hshift. cbn [shr shr_m loc_of_shr_record round_nearest_even].
  cbn [Zdigits2 shr_record_of_loc]. rewrite Hshift. cbn [shr shr_m].
  unfold prec, emax.
  by rewrite (proj2 (Z.leb_le e (1024 - 53)) ltac:(lia)).
Qed.

(** An integer below [2^53] converts to the float of the same value. *)
Lemma float_of_int_exact (z : Z) :
  (0 < z < 2 ^ 53)%Z →
  ∃ m e, Prim2SF (float_of_int z) = S754_finite false m e
         ∧ digits2_pos m = 53%positive
         ∧ (-52 ≤ e ≤ 0)%Z
         ∧ Z.pos m = (z * 2 ^ (- e))%Z.
Proof.
  intros [Hpos Hlt]. unfold float_of_int.
  rewrite (proj2 (Z.ltb_ge z 0)) by lia.
  rewrite FloatAxioms.of_uint63_spec, Uint63.of_Z_spec.
  rewrite Z.mod_small.
  2:{ split; [lia|]. eapply Z.lt_trans; [exact Hlt|]. done. }
  destruct z as [|p|p]; [lia| |lia].
  cbn [binary_normalize]. unfold binary_round.
  pose proof (digits2_pos_bounds p) as [Hlow Hhigh].
  assert (Hdigits : (Z.pos (digits2_pos p) ≤ 53)%Z).
  { destruct (Z.le_gt_cases (Z.pos (digits2_pos p)) 53) as [|Hgt]; [done|].
    assert (2 ^ 53 ≤ 2 ^ (Z.pos (digits2_pos p) - 1))%Z
      by (apply Z.pow_le_mono_r; lia).
    lia. }
  assert (Hfexp : fexp prec emax (Z.pos (digits2_pos p) + 0)
                  = (Z.pos (digits2_pos p) - 53)%Z).
  { unfold fexp, emin, prec, emax. lia. }
  rewrite Hfexp. unfold shl_align.
  destruct (Z.pos (digits2_pos p) - 53 - 0)%Z as [|d|d] eqn:Hd; [|lia|].
  - assert (Hp : digits2_pos p = 53%positive) by lia.
    exists p, 0%Z. rewrite binary_round_aux_exact by (done || lia).
    split; [done|]. split; [done|]. split; [lia|]. simpl. lia.
  - exists (Pos.iter xO p d), (Z.pos (digits2_pos p) - 53)%Z.
    rewrite binary_round_aux_exact.
    + split; [done|]. split; [rewrite digits2_pos_iter_xO; lia|].
      split; [lia|]. rewrite iter_xO_value. do 2 f_equal. lia.
    + rewrite digits2_pos_iter_xO. lia.
    + lia.
Qed.

(** Truncating a float that is not negative and below the float of an
    integer gives at most that integer. *)
Lemma py_int_below_int (x : float) (room : Z) :
  nonneg_or_nan (Prim2SF x) → (0 ≤ room < 2 ^ 53)%Z →
  (x <? float_of_int room)%float = true →
  ∃ a, py_int x = Ok a ∧ (0 ≤ a ≤ room)%Z.
Proof.
  intros Hx Hroom Hlt.
  destruct (py_int_below x _ Hx Hlt) as (a & Ha & Hpos).
  exists a. split; [done|]. split; [done|].
  rewrite FloatAxioms.ltb_spec in Hlt. unfold py_int in Ha.
  destruct (decide (room = 0%Z)) as [->|Hne].
  { change (Prim2SF (float_of_int 0)) with (S754_zero false) in Hlt.
    by destruct (Prim2SF x) as [?|[]| |[] ? ?]. }
  destruct (float_of_int_exact room ltac:(lia))
    as (mz & ez & Hz & Hdz & Hez & Hmz).
  rewrite Hz in Hlt.
  destruct (Prim2SF x) as [s|s| |s m e] eqn:Hsf; simplify_eq/=; [lia|].
  destruct (finite_float_mantissa x false m e Hsf) as (He & Hm & _).
  pose proof (digits2_pos_bounds mz) as [Hmz_low _].
  rewrite Hdz in Hmz_low. change (2 ^ (53 - 1))%Z with (2 ^ 52)%Z in Hmz_low.
  unfold SFltb, SFcompare in Hlt.
  assert (Hpow : (0 < 2 ^ (- ez))%Z) by (apply Z.pow_pos_nonneg; lia).
  destruct (Z.compare_spec e ez) as [->|Hlt_e|Hgt_e]; [| |done].
  - rewrite Pos.compare_cont_spec in Hlt. cbn [Pos.switch_Eq] in Hlt.
    destruct (Pos.compare_spec m mz) as [_|Hmlt|_]; [done| |done].
    rewrite Z.shiftl_div_pow2 by lia.
    apply Z.div_le_upper_bound; [done|]. rewrite Z.mul_comm, <- Hmz. lia.
  - rewrite Z.shiftl_div_pow2 by lia.
    assert (Hpow' : (0 < 2 ^ (- e))%Z) by (apply Z.pow_pos_nonneg; lia).
    apply Z.div_le_upper_bound; [done|].
    assert (Hstep : (2 * 2 ^ (- ez) ≤ 2 ^ (- e))%Z).
    { rewrite <- Z.pow_succ_r by lia. apply Z.pow_le_mono_r; lia. }
    change (2 ^ 53)%Z with (2 * 2 ^ 52)%Z in Hm. nia.
Qed.

(** The rows added for a class fit in the room up to the majority. *)
Lemma count_to_add_within_room (ratio : float)
    (max_count current_count : nat) :
  (ratio <=? 1)%float = false → current_count ≤ max_count →
  (Z.of_nat max_count < 2 ^ 53)%Z →
  ∃ a, ClassBalancingModelWrapper.count_to_add ratio max_count current_count
       = Ok a
       ∧ (0 ≤ a ≤ Z.of_nat max_count - Z.of_nat current_count)%Z.
Proof.
  intros Hratio Hle Hmax. unfold ClassBalancingModelWrapper.count_to_add.
  destruct (ltb _ _) eqn:Hlt.
  - eapply py_int_below_int; [by apply allowed_nonneg|lia|exact Hlt].
  - eexists. split; [done|]. lia.
Qed.

(** At ratio 2.2 a class of one row below the majority gains one row. *)
Lemma count_to_add_fractional_example (majority : nat) :
  1 < majority → (Z.of_nat majority ≤ 2 ^ 53)%Z →
  ClassBalancingModelWrapper.count_to_add 0x1.199999999999ap+1 majority 1
  = Ok 1%Z.
Proof.
  intros Hmajority Hbound. unfold ClassBalancingModelWrapper.count_to_add.
  change ((0x1.199999999999ap+1 - 1) * float_of_int (Z.of_nat 1))%float
    with 0x1.3333333333334p+0%float.
  destruct (decide (majority = 2)) as [->|Hne]; [done|].
  rewrite FloatAxioms.ltb_spec.
  destruct (float_of_int_exact (Z.of_nat majority - Z.of_nat 1) ltac:(lia))
    as (mz & ez & -> & Hdz & Hez & Hmz).
  change (Prim2SF 0x1.3333333333334p+0)
    with (S754_finite false 5404319552844596 (-52)).
  pose proof (digits2_pos_bounds mz) as [_ Hhigh]. rewrite Hdz in Hhigh.
  assert (Hexp : (-52 < ez)%Z).
  { destruct (Z.le_gt_cases ez (-52)) as [Hle|]; [|lia].
    assert (ez = -52)%Z as -> by lia.
    change (2 ^ (- (-52)))%Z with (2 ^ 52)%Z in Hmz.
    change (2 ^ 53)%Z with (2 * 2 ^ 52)%Z in Hhigh. lia. }
  unfold SFltb, SFcompare.
  by rewrite (proj2 (Z.compare_lt_iff (-52) ez) Hexp).
Qed.

(** ** Integers below [2^53] in binary64 *)

Lemma shiftl_value (p : positive) (k : N) :
  Z.pos (Pos.shiftl p k) = (Z.pos p * 2 ^ Z.of_N k)%Z.
Proof.
  destruct k as [|k]; unfold Pos.shiftl; cbn [Z.of_N].
  - rewrite Z.pow_0_r. lia.
  - apply iter_xO_value.
Qed.

Lemma shiftl_digits (p : positive) (k : N) :
  Z.pos (digits2_pos (Pos.shiftl p k))
  = (Z.pos (digits2_pos p) + Z.of_N k)%Z.
Proof.
  destruct k as [|k]; unfold Pos.shiftl; cbn [Z.of_N]; [lia|].
  rewrite digits2_pos_iter_xO. lia.
Qed.

Lemma shiftl_shiftl (p : positive) (a b : N) :
  Pos.shiftl (Pos.shiftl p a) b = Pos.shiftl p (a + b).
Proof.
  apply Pos2Z.inj. rewrite !shiftl_value, N2Z.inj_add, Z.pow_add_r by lia.
  lia.
Qed.

Lemma iter_pos_shr_1_exact (n p : positive) :
  iter_pos shr_1 n (Build_shr_record (Z.pos (Pos.iter xO p n)) false false)
  = Build_shr_record (Z.pos p) false false.
Proof.
  revert p. induction n as [n IH|n IH|]; intros p; cbn [iter_pos Pos.iter].
  - cbn [shr_1 orb]. by rewrite !IH.
  - by rewrite !IH.
  - done.
Qed.

(** Rounding a 53-bit mantissa followed by zero bits drops the zeros. *)
Lemma binary_round_aux_shifted (m : positive) (k : N) (e : Z) :
  digits2_pos m = 53%positive → (-1074 ≤ e)%Z → (e + Z.of_N k ≤ 971)%Z →
  binary_round_aux prec emax false (Z.pos (Pos.shiftl m k)) e loc_Exact
  = S754_finite false m (e + Z.of_N k).
Proof.
  intros Hdigits Hlow Hhigh. destruct k as [|k].
  { unfold Pos.shiftl. cbn [Z.of_N]. rewrite Z.add_0_r.
    apply binary_round_aux_exact; [done|lia]. }
  unfold Pos.shiftl. cbn [Z.of_N] in *.
  assert (Hshift :
    (fexp prec emax (Z.pos (digits2_pos (Pos.iter xO m k)) + e) - e
     = Z.pos k)%Z).
  { rewrite digits2_pos_iter_xO, Hdigits. unfold fexp, emin, prec, emax. lia. }
  assert (Hnone :
    (fexp prec emax (Z.pos (digits2_pos m) + (e + Z.pos k)) - (e + Z.pos k)
     = 0)%Z).
  { rewrite Hdigits. unfold fexp, emin, prec, emax. lia. }
  unfold binary_round_aux, shr_fexp. cbn [Zdigits2 shr_record_of_loc].
  rewrite Hshift. cbn [shr]. rewrite iter_pos_shr_1_exact.
  cbn [shr_m loc_of_shr_record round_nearest_even].
  cbn [Zdigits2 shr_record_of_loc]. rewrite Hnone. cbn [shr shr_m].
  unfold prec, emax.
  by rewrite (proj2 (Z.leb_le (e + Z.pos k) (1024 - 53)) ltac:(lia)).
Qed.

(** Normalising an integer below [2^53] followed by zero bits gives the
    float of the integer. *)
Lemma binary_normalize_shifted (p : positive) (k : N) :
  (Z.pos p < 2 ^ 53)%Z → (Z.of_N k ≤ 1074)%Z →
  binary_normalize prec emax (Z.pos (Pos.shiftl p k)) (- Z.of_N k) false
  = float_of_positive p.
Proof.
  intros Hp Hk. cbn [binary_normalize]. unfold binary_round.
  pose proof (digits2_pos_bounds p) as [Hlow Hhigh].
  assert (Hdigits : (Z.pos (digits2_pos p) ≤ 53)%Z).
  { destruct (Z.le_gt_cases (Z.pos (digits2_pos p)) 53) as [|Hgt]; [done|].
    assert (2 ^ 53 ≤ 2 ^ (Z.pos (digits2_pos p) - 1))%Z
      by (apply Z.pow_le_mono_r; lia).
    lia. }
  set (d := Z.pos (digits2_pos p)) in *.
  assert (Hfexp : fexp prec emax (Z.pos (digits2_pos (Pos.shiftl p k))
                                  + - Z.of_N k) = (d - 53)%Z).
  { rewrite shiftl_digits. fold d. unfold fexp, emin, prec, emax. lia. }
  rewrite Hfexp. unfold shl_align, float_of_positive. fold d.
  set (m := Pos.shiftl p (Z.to_N (53 - d))).
  assert (Hm : digits2_pos m = 53%positive).
  { apply Pos2Z.inj. unfold m. rewrite shiftl_digits. fold d. lia. }
  destruct (d - 53 - - Z.of_N k)%Z as [|s|s] eqn:Hs.
  - assert (Pos.shiftl p k = m) as ->.
    { unfold m. f_equal. lia. }
    rewrite binary_round_aux_exact by (done || lia). f_equal. lia.
  - assert (Pos.shiftl p k = Pos.shiftl m (N.pos s)) as ->.
    { unfold m. rewrite shiftl_shiftl. f_equal. lia. }
    rewrite binary_round_aux_shifted by (done || lia). f_equal. lia.
  - assert (Pos.iter xO (Pos.shiftl p k) s = m) as ->.
    { change (Pos.iter xO (Pos.shiftl p k) s)
        with (Pos.shiftl (Pos.shiftl p k) (N.pos s)).
      unfold m. rewrite shiftl_shiftl. f_equal. lia. }
    rewrite binary_round_aux_exact by (done || lia). done.
Qed.

Lemma float_of_int_positive (p : positive) :
  (Z.pos p < 2 ^ 53)%Z →
  Prim2SF (float_of_int (Z.pos p)) = float_of_positive p.
Proof.
  intros Hp. unfold float_of_int.
  rewrite (proj2 (Z.ltb_ge (Z.pos p) 0)) by lia.
  rewrite FloatAxioms.of_uint63_spec, Uint63.of_Z_spec.
  rewrite Z.mod_small.
  2:{ split; [lia|]. eapply Z.lt_trans; [exact Hp|]. done. }
  apply (binary_normalize_shifted p 0); [done|lia].
Qed.
Lemma digits2_pos_mul (p q : positive) :
  (Z.pos (digits2_pos p) + Z.pos (digits2_pos q) - 1
   ≤ Z.pos (digits2_pos (p * q)))%Z.
Proof.
  pose proof (digits2_pos_bounds p) as [Hp _].
  pose proof (digits2_pos_bounds q) as [Hq _].
  pose proof (digits2_pos_bounds (p * q)) as [_ Hpq].
  rewrite Pos2Z.inj_mul in Hpq.
  assert (Hprod : (2 ^ (Z.pos (digits2_pos p) - 1 + (Z.pos (digits2_pos q) - 1))
                   ≤ Z.pos p * Z.pos q)%Z).
  { rewrite Z.pow_add_r by lia. apply Z.mul_le_mono_nonneg; lia. }
  assert (Hlt : (2 ^ (Z.pos (digits2_pos p) - 1 + (Z.pos (digits2_pos q) - 1))
                 < 2 ^ Z.pos (digits2_pos (p * q)))%Z) by lia.
  apply Z.pow_lt_mono_r_iff in Hlt; lia.
Qed.

Lemma digits2_pos_small (p : positive) :
  (Z.pos p < 2 ^ 53)%Z → (Z.pos (digits2_pos p) ≤ 53)%Z.
Proof.
  intros Hp. pose proof (digits2_pos_bounds p) as [Hlow _].
  destruct (Z.le_gt_cases (Z.pos (digits2_pos p)) 53) as [|Hgt]; [done|].
  assert (2 ^ 53 ≤ 2 ^ (Z.pos (digits2_pos p) - 1))%Z
    by (apply Z.pow_le_mono_r; lia).
  lia.
Qed.

(** The product of two integers, when below [2^53], is computed exactly. *)
Lemma float_of_positive_mul (p q : positive) :
  (Z.pos p * Z.pos q < 2 ^ 53)%Z →
  SFmul prec emax (float_of_positive p) (float_of_positive q)
  = float_of_positive (p * q).
Proof.
  intros Hpq.
  assert (Hp : (Z.pos p < 2 ^ 53)%Z) by nia.
  assert (Hq : (Z.pos q < 2 ^ 53)%Z) by nia.
  pose proof (digits2_pos_small p Hp) as Hdp.
  pose proof (digits2_pos_small q Hq) as Hdq.
  pose proof (digits2_pos_small (p * q) ltac:(by rewrite Pos2Z.inj_mul))
    as Hdpq.
  pose proof (digits2_pos_mul p q) as Hmul.
  unfold float_of_positive. cbn [SFmul xorb].
  set (dp := Z.pos (digits2_pos p)) in *.
  set (dq := Z.pos (digits2_pos q)) in *.
  set (dpq := Z.pos (digits2_pos (p * q))) in *.
  set (m := Pos.shiftl (p * q) (Z.to_N (53 - dpq))).
  assert (Hm : digits2_pos m = 53%positive).
  { apply Pos2Z.inj. unfold m. rewrite shiftl_digits. fold dpq. lia. }
  assert ((Pos.shiftl p (Z.to_N (53 - dp)) * Pos.shiftl q (Z.to_N (53 - dq)))
          %positive
          = Pos.shiftl m (Z.to_N (53 - dp - dq + dpq))) as ->.
  { apply Pos2Z.inj. unfold m.
    rewrite shiftl_shiftl, Pos2Z.inj_mul, !shiftl_value, Pos2Z.inj_mul.
    replace (Z.of_N (Z.to_N (53 - dpq) + Z.to_N (53 - dp - dq + dpq)))
      with (Z.of_N (Z.to_N (53 - dp)) + Z.of_N (Z.to_N (53 - dq)))%Z by lia.
    rewrite Z.pow_add_r by lia. lia. }
  rewrite binary_round_aux_shifted by (done || lia). f_equal. lia.
Qed.

Lemma shl_align_value (m : positive) (e ez : Z) :
  (ez ≤ e)%Z →
  Z.pos (fst (shl_align m e ez)) = (Z.pos m * 2 ^ (e - ez))%Z.
Proof.
  intros Hle. unfold shl_align.
  destruct (ez - e)%Z as [|d|d] eqn:Hd; cbn [fst]; [|lia|].
  - replace (e - ez)%Z with 0%Z by lia. rewrite Z.pow_0_r. lia.
  - rewrite iter_xO_value. do 2 f_equal. lia.
Qed.

(** The sum of two integers, when below [2^53], is computed exactly. *)
Lemma float_of_positive_add (p q : positive) :
  (Z.pos p + Z.pos q < 2 ^ 53)%Z →
  SFadd prec emax (float_of_positive p) (float_of_positive q)
  = float_of_positive (p + q).
Proof.
  intros Hpq.
  pose proof (digits2_pos_small p ltac:(lia)) as Hdp.
  pose proof (digits2_pos_small q ltac:(lia)) as Hdq.
  unfold float_of_positive. cbn [SFadd cond_Zopp].
  set (dp := Z.pos (digits2_pos p)) in *.
  set (dq := Z.pos (digits2_pos q)) in *.
  set (ez := Z.min (dp - 53) (dq - 53)).
  rewrite !shl_align_value by lia. rewrite !shiftl_value.
  assert (Hsum :
    (Z.pos p * 2 ^ Z.of_N (Z.to_N (53 - dp)) * 2 ^ (dp - 53 - ez)
     + Z.pos q * 2 ^ Z.of_N (Z.to_N (53 - dq)) * 2 ^ (dq - 53 - ez))%Z
    = Z.pos (Pos.shiftl (p + q) (Z.to_N (- ez)))).
  { rewrite shiftl_value, Pos2Z.inj_add, <- !Z.mul_assoc.
    rewrite <- !Z.pow_add_r by lia.
    replace (Z.of_N (Z.to_N (53 - dp)) + (dp - 53 - ez))%Z
      with (Z.of_N (Z.to_N (- ez))) by lia.
    replace (Z.of_N (Z.to_N (53 - dq)) + (dq - 53 - ez))%Z
      with (Z.of_N (Z.to_N (- ez))) by lia.
    lia. }
  rewrite Hsum.
  replace ez with (- Z.of_N (Z.to_N (- ez)))%Z at 2 by lia.
  apply binary_normalize_shifted; [by rewrite Pos2Z.inj_add|lia].
Qed.

Lemma float_of_int_add (a b : Z) :
  (0 ≤ a)%Z → (0 ≤ b)%Z → (a + b < 2 ^ 53)%Z →
  (float_of_int a + float_of_int b)%float = float_of_int (a + b).
Proof.
  intros Ha Hb Hsum. apply FloatAxioms.Prim2SF_inj.
  rewrite FloatAxioms.add_spec.
  destruct a as [|p|p]; [|
    |lia].
  - change (Prim2SF (float_of_int 0)) with (S754_zero false).
    rewrite Z.add_0_l. destruct b as [|q|q]; [done| |lia].
    by rewrite float_of_int_positive by lia.
  - destruct b as [|q|q]; [| |lia].
    + change (Prim2SF (float_of_int 0)) with (S754_zero false).
      rewrite Z.add_0_r. by rewrite float_of_int_positive by lia.
    + rewrite !float_of_int_positive by lia.
      change (Z.pos p + Z.pos q)%Z with (Z.pos (p + q)).
      rewrite float_of_int_positive by (rewrite Pos2Z.inj_add; lia).
      by apply float_of_positive_add.
Qed.

Lemma float_of_int_mul (a b : Z) :
  (0 ≤ a)%Z → (0 ≤ b)%Z → (a * b < 2 ^ 53)%Z →
  (a < 2 ^ 53)%Z → (b < 2 ^ 53)%Z →
  (float_of_int a * float_of_int b)%float = float_of_int (a * b).
Proof.
  intros Ha Hb Hprod Ha' Hb'. apply FloatAxioms.Prim2SF_inj.
  rewrite FloatAxioms.mul_spec.
  destruct a as [|p|p]; [| |lia].
  - change (Prim2SF (float_of_int 0)) with (S754_zero false).
    rewrite Z.mul_0_l.
    change (Prim2SF (float_of_int 0)) with (S754_zero false).
    destruct b as [|q|q]; [done| |lia].
    by rewrite float_of_int_positive by lia.
  - destruct b as [|q|q]; [| |lia].
    + change (Prim2SF (float_of_int 0)) with (S754_zero false).
      rewrite Z.mul_0_r.
      change (Prim2SF (float_of_int 0)) with (S754_zero false).
      by rewrite float_of_int_positive by lia.
    + rewrite !float_of_int_positive by lia.
      change (Z.pos p * Z.pos q)%Z with (Z.pos (p * q)).
      rewrite float_of_int_positive by (rewrite Pos2Z.inj_mul; lia).
      by apply float_of_positive_mul.
Qed.

(** ** Trellises of integer scores in binary64 *)

Lemma at2_array2_map (a : array2 Z) (i j : nat) :
  at2 (array2_map float_of_int a) i j = float_of_int (at2 a i j).
Proof.
  unfold at2, array2_map. cbn [rows].
  rewrite list_lookup_fmap.
  destruct (rows a !! i) as [r|]; cbn; [|done].
  rewrite list_lookup_fmap. by destruct (r !! j).
Qed.

Lemma transition_at_ndarray_map (w : ndarray Z) (t i j : nat) :
  transition_at (ndarray_map float_of_int w) t i j
  = float_of_int (transition_at w t i j).
Proof.
  destruct w as [w|slices]; cbn [transition_at ndarray_map].
  - apply at2_array2_map.
  - rewrite list_lookup_fmap.
    destruct (slices !! t) as [w|]; cbn; [apply at2_array2_map|done].
Qed.

Lemma wf_array2_map {A B} (f : A → B) (a : array2 A) :
  wf_array2 a → wf_array2 (array2_map f a).
Proof.
  intros [Hrows Hcols]. split; cbn [rows shape0 shape1 array2_map].
  - by rewrite length_map.
  - apply Forall_forall. intros r (r' & -> & Hr')%list_elem_of_fmap.
    rewrite length_map. by apply (proj1 (Forall_forall _ _) Hcols).
Qed.

Lemma valid_trellis_map (node : array2 Z) (tw : ndarray Z) :
  valid_trellis node tw →
  valid_trellis (array2_map float_of_int node) (ndarray_map float_of_int tw).
Proof.
  intros (Hwf & Hpos & Htw). split; [by apply wf_array2_map|].
  split; [done|]. destruct tw as [w|slices]; cbn in *.
  - destruct Htw as (Hw & ? & ?). split; [by apply wf_array2_map|done].
  - destruct Htw as [Hlen Hall]. split; [by rewrite length_map|].
    apply Forall_forall. intros w (w' & -> & Hw')%list_elem_of_fmap.
    destruct (proj1 (Forall_forall _ _) Hall w' Hw') as (Hw & ? & ?).
    split; [by apply wf_array2_map|done].
Qed.

Lemma foldl_add_le (acc : Z) (zs : list Z) :
  Forall (λ z, 0 ≤ z)%Z zs →
  (acc ≤ foldl Z.add acc zs)%Z
  ∧ ∀ z, z ∈ zs → (acc + z ≤ foldl Z.add acc zs)%Z.
Proof.
  intros Hzs. revert acc.
  induction Hzs as [|x zs Hx Hzs IH]; intros acc; cbn [foldl].
  - split; [lia|]. by intros z ?%elem_of_nil.
  - destruct (IH (acc + x)%Z) as [Hacc Hin]. split; [lia|].
    intros z [->|Hz]%elem_of_cons; [lia|].
    specialize (Hin z Hz). lia.
Qed.

(** A sum of integers that stays below [2^53] is computed exactly. *)
Lemma float_sum_exact (acc : Z) (zs : list Z) :
  (0 ≤ acc)%Z → Forall (λ z, 0 ≤ z)%Z zs →
  (foldl Z.add acc zs < 2 ^ 53)%Z →
  foldl PrimFloat.add (float_of_int acc) (map float_of_int zs)
  = float_of_int (foldl Z.add acc zs).
Proof.
  intros Hacc Hzs. revert acc Hacc.
  induction Hzs as [|x zs Hx Hzs IH]; intros acc Hacc Hsum; cbn [foldl map];
    [done|].
  cbn [foldl] in Hsum.
  destruct (foldl_add_le (acc + x) zs Hzs) as [Hle _].
  rewrite float_of_int_add by lia. apply IH; [lia|done].
Qed.

Section integer_trellis.
Variables (node : array2 Z) (tw : ndarray Z).
Hypothesis Hpositive : positive_scores node tw.

Local Abbreviation fwd := (forward Semiring.PLUS_MULTIPLY node tw).
Local Abbreviation terms t j :=
  (map (λ i, (transition_at tw t i j * fwd t i)%Z) (seq 0 (shape0 node))).
Local Abbreviation float_fwd :=
  (forward Semiring.PLUS_MULTIPLY (array2_map float_of_int node)
     (ndarray_map float_of_int tw)).

Lemma forward_step (t j : nat) :
  fwd (S t) j = (at2 node j (S t) * foldl Z.add 0 (terms t j))%Z.
Proof. reflexivity. Qed.

Lemma forward_positive (t j : nat) :
  t < shape1 node → j < shape0 node → (1 ≤ fwd t j)%Z.
Proof.
  destruct Hpositive as [Hnodes Hweights].
  revert j. induction t as [|t IH]; intros j Ht Hj.
  - by apply Hnodes.
  - rewrite forward_step.
    assert (Hterms : Forall (λ z, 0 ≤ z)%Z (terms t j)).
    { apply Forall_forall.
      intros z (i & -> & Hi%elem_of_seq)%list_elem_of_fmap.
      specialize (IH i ltac:(lia) ltac:(lia)).
      specialize (Hweights t i j ltac:(lia) ltac:(lia) Hj). nia. }
    destruct (foldl_add_le 0 (terms t j) Hterms) as [_ Hin].
    specialize (Hin (transition_at tw t j j * fwd t j)%Z).
    assert (Hterm : (1 ≤ transition_at tw t j j * fwd t j)%Z).
    { specialize (IH j ltac:(lia) Hj).
      specialize (Hweights t j j ltac:(lia) Hj Hj). nia. }
    specialize (Hnodes j (S t) Hj Ht).
    assert (Hsum : (1 ≤ foldl Z.add 0 (terms t j))%Z).
    { etrans; [exact Hterm|]. etrans; [|apply Hin]; [lia|].
      apply list_elem_of_fmap. exists j. split; [done|].
      apply elem_of_seq. lia. }
    nia.
Qed.

Lemma terms_nonneg (t j : nat) :
  S t < shape1 node → j < shape0 node →
  Forall (λ z, 0 ≤ z)%Z (terms t j).
Proof.
  intros Ht Hj. destruct Hpositive as [_ Hweights].
  apply Forall_forall.
  intros z (i & -> & Hi%elem_of_seq)%list_elem_of_fmap.
  pose proof (forward_positive t i ltac:(lia) ltac:(lia)).
  specialize (Hweights t i j Ht ltac:(lia) Hj). nia.
Qed.

(** Every score on the way is at most the score of a later column. *)
Lemma forward_grows (t i j : nat) :
  S t < shape1 node → i < shape0 node → j < shape0 node →
  (fwd t i ≤ transition_at tw t i j * fwd t i)%Z
  ∧ (transition_at tw t i j * fwd t i ≤ foldl Z.add 0 (terms t j))%Z
  ∧ (foldl Z.add 0 (terms t j) ≤ fwd (S t) j)%Z.
Proof.
  intros Ht Hi Hj. pose proof Hpositive as [Hnodes Hweights].
  pose proof (forward_positive t i ltac:(lia) Hi) as Hfwd.
  specialize (Hweights t i j Ht Hi Hj).
  destruct (foldl_add_le 0 (terms t j) (terms_nonneg t j Ht Hj))
    as [Hsum Hin].
  split; [nia|]. split.
  - etrans; [|apply (Hin (transition_at tw t i j * fwd t i)%Z)]; [lia|].
    apply list_elem_of_fmap. exists i. split; [done|].
    apply elem_of_seq. lia.
  - rewrite forward_step. specialize (Hnodes j (S t) Hj Ht). nia.
Qed.

Lemma forward_le_last (t k i : nat) :
  t + k < shape1 node → i < shape0 node →
  (fwd t i ≤ fwd (t + k) i)%Z.
Proof.
  intros Ht Hi. induction k as [|k IH].
  - by rewrite Nat.add_0_r.
  - etrans; [apply IH; lia|].
    replace (t + S k) with (S (t + k)) by lia.
    destruct (forward_grows (t + k) i i) as (? & ? & ?); [lia|done..|]. lia.
Qed.

Variable bound : Z.
Hypothesis Hbound :
  ∀ j, j < shape0 node → (fwd (shape1 node - 1) j ≤ bound)%Z.
Hypothesis Hsmall : (bound < 2 ^ 53)%Z.

Lemma forward_bounded (t i : nat) :
  t < shape1 node → i < shape0 node → (fwd t i ≤ bound)%Z.
Proof.
  intros Ht Hi. etrans; [|by apply Hbound].
  replace (shape1 node - 1) with (t + (shape1 node - 1 - t)) by lia.
  apply forward_le_last; [lia|done].
Qed.

(** The forward recursion in binary64 is the forward recursion on the
    integers. *)
Lemma float_forward_exact (t j : nat) :
  t < shape1 node → j < shape0 node →
  float_fwd t j = float_of_int (fwd t j).
Proof.
  revert j. induction t as [|t IH]; intros j Ht Hj.
  - apply at2_array2_map.
  - pose proof Hpositive as [Hnodes Hweights].
    change (float_fwd (S t) j)
      with (PrimFloat.mul
              (at2 (array2_map float_of_int node) j (S t))
              (foldl PrimFloat.add 0%float
                 (map (λ i, PrimFloat.mul
                              (transition_at (ndarray_map float_of_int tw)
                                 t i j)
                              (float_fwd t i))
                      (seq 0 (shape0 node))))).
    rewrite forward_step, at2_array2_map.
    assert (Hterms :
      map (λ i, PrimFloat.mul
                  (transition_at (ndarray_map float_of_int tw) t i j)
                  (float_fwd t i))
          (seq 0 (shape0 node))
      = map float_of_int (terms t j)).
    { rewrite map_map. apply map_ext_in. intros i Hi%in_seq.
      rewrite transition_at_ndarray_map, IH by lia.
      destruct (forward_grows t i j) as (Hle & Hterm & Hsum); [lia..|].
      pose proof (forward_positive t i ltac:(lia) ltac:(lia)).
      pose proof (forward_bounded (S t) j Ht Hj).
      specialize (Hweights t i j ltac:(lia) ltac:(lia) Hj).
      apply float_of_int_mul; nia. }
    rewrite Hterms.
    destruct (forward_grows t j j) as (_ & Hterm & Hsum); [lia|done..|].
    pose proof (forward_bounded (S t) j Ht Hj) as Hnext.
    pose proof (forward_positive t j ltac:(lia) Hj).
    pose proof (Hweights t j j ltac:(lia) Hj Hj).
    specialize (Hnodes j (S t) Hj Ht).
    change 0%float with (float_of_int 0).
    rewrite float_sum_exact;
      [|lia|apply terms_nonneg; [lia|done]|lia].
    rewrite forward_step in Hnext.
    apply float_of_int_mul; nia.
Qed.

End integer_trellis.

Section integer_trellis_result.
Context {L : Type}.
Variables (nan_as_int32 : Z) (garbage : float) (garbage32 : Z).

(** On integer scores that are at least 1, given as floats, the forward
    pass is exact while the sum over the paths stays below [2^53]. *)
Lemma run_viterbi_integer_trellis (self : ViterbiDecoder.t float L)
    (node : array2 Z) (tw : ndarray Z) :
  ViterbiDecoder.semiring self = Semiring.PLUS_MULTIPLY →
  valid_trellis node tw →
  positive_scores node tw →
  (brute_force_score node tw < 2 ^ 53)%Z →
  ViterbiDecoder.run_viterbi nan_as_int32 garbage garbage32 self
    (array2_map float_of_int node) (ndarray_map float_of_int tw) false
  = Ok (ViterbiDecoder.ScoreOnly (float_of_int (brute_force_score node tw))).
Proof.
  intros Hself Hvalid Hpositive Hsmall.
  rewrite (run_viterbi_score_only nan_as_int32 garbage garbage32
             Semiring.PLUS_MULTIPLY (array2_map float_of_int node)
             (ndarray_map float_of_int tw));
    [|by apply valid_trellis_map|by eexists|done].
  do 2 f_equal.
  assert (Hpos : 1 ≤ shape1 node) by apply Hvalid.
  rewrite <- (forward_pass_brute_force Z_semi_ring node tw Hpos) in Hsmall |- *.
  unfold sum_of in Hsmall |- *. cbn [Semiring.sum Semiring.PLUS_MULTIPLY np_sum]
    in Hsmall |- *.
  cbn [shape0 shape1 array2_map Radd Rzero Z_scalar float_scalar]
    in Hsmall |- *.
  set (last := map (forward Semiring.PLUS_MULTIPLY node tw (shape1 node - 1))
                   (seq 0 (shape0 node))) in *.
  assert (Hlast : Forall (λ z, 0 ≤ z)%Z last).
  { apply Forall_forall.
    intros z (j & -> & Hj%elem_of_seq)%list_elem_of_fmap.
    pose proof (forward_positive node tw Hpositive (shape1 node - 1) j
                  ltac:(lia) ltac:(lia)). lia. }
  destruct (foldl_add_le 0 last Hlast) as [_ Hin].
  rewrite (map_ext_in _ (λ j, float_of_int
                               (forward Semiring.PLUS_MULTIPLY node tw
                                  (shape1 node - 1) j))).
  2:{ intros j Hj%in_seq.
      apply (float_forward_exact node tw Hpositive (foldl Z.add 0%Z last));
        [|exact Hsmall|lia|lia].
      intros i Hi.
      specialize (Hin (forward Semiring.PLUS_MULTIPLY node tw
                         (shape1 node - 1) i)).
      etrans; [|apply Hin]; [lia|].
      apply list_elem_of_fmap. exists i. split; [done|].
      apply elem_of_seq. lia. }
  rewrite <- (map_map (forward Semiring.PLUS_MULTIPLY node tw
                         (shape1 node - 1)) float_of_int).
  fold last. change 0%float with (float_of_int 0).
  by apply float_sum_exact.
Qed.

End integer_trellis_result.

(** C1, amended.  [run_viterbi] with the PLUS_MULTIPLY semiring and
    [return_best_path=False] returns exactly the sum, over all state paths,
    of the product of the path's node scores and transition weights
    - in binary64, the arithmetic of [path_scores], for every valid trellis of
      integer scores that are at least 1 whose sum over the paths is below
      [2^53] (no operation of the forward pass rounds);
    - for every valid trellis, were the arithmetic exact (the scores form a
      commutative semiring).
    With scores that make binary64 round, the returned value is not that
    sum. *)
Theorem run_viterbi_sum_product_brute_force :
  (∀ (L : Type) (nan_as_int32 : Z) (garbage : float) (garbage32 : Z)
     (self : ViterbiDecoder.t float L) (node_scores : array2 Z)
     (transition_weights : ndarray Z),
     ViterbiDecoder.semiring self = Semiring.PLUS_MULTIPLY →
     valid_trellis node_scores transition_weights →
     positive_scores node_scores transition_weights →
     (brute_force_score node_scores transition_weights < 2 ^ 53)%Z →
     ViterbiDecoder.run_viterbi nan_as_int32 garbage garbage32 self
       (array2_map float_of_int node_scores)
       (ndarray_map float_of_int transition_weights) false
     = Ok (ViterbiDecoder.ScoreOnly
             (float_of_int
                (brute_force_score node_scores transition_weights))))
  ∧ (∀ (R : Type) (scalar : Scalar R) (L : Type)
       (nan_as_int32 : Z) (garbage : R) (garbage32 : Z)
       (self : ViterbiDecoder.t R L) (node_scores : array2 R)
       (transition_weights : ndarray R),
       semi_ring_theory Rzero Rone Radd Rmul eq →
       ViterbiDecoder.semiring self = Semiring.PLUS_MULTIPLY →
       valid_trellis node_scores transition_weights →
       ViterbiDecoder.run_viterbi nan_as_int32 garbage garbage32 self
         node_scores transition_weights false
       = Ok (ViterbiDecoder.ScoreOnly
               (brute_force_score node_scores transition_weights))).
Proof.
  split.
  - intros L nan_as_int32 garbage garbage32 self node_scores
      transition_weights. apply run_viterbi_integer_trellis.
  - intros R scalar L nan_as_int32 garbage garbage32 self node_scores
      transition_weights Hexact Hself Hvalid.
    rewrite (run_viterbi_score_only nan_as_int32 garbage garbage32
               Semiring.PLUS_MULTIPLY node_scores transition_weights);
      [|done|by eexists|done].
    do 2 f_equal. apply (forward_pass_brute_force Hexact). apply Hvalid.
Qed.

Lemma example_scores_positive :
  positive_scores example_nodes example_transitions.
Proof.
  split.
  - cbn [shape0 shape1 example_nodes np_array]. intros j t Hj Ht.
    destruct j as [|[|j]]; [| |simpl in Hj; lia];
      (destruct t as [|[|[|t]]]; [| | |simpl in Ht; lia]);
      vm_compute; discriminate.
  - cbn [shape0 shape1 example_nodes np_array]. intros t i j _ Hi Hj.
    destruct i as [|[|i]]; [| |simpl in Hi; lia];
      (destruct j as [|[|j]]; [| |simpl in Hj; lia]);
      vm_compute; discriminate.
Qed.

Lemma run_viterbi_sum_product_brute_force_witness :
  (valid_trellis example_nodes example_transitions
   ∧ positive_scores example_nodes example_transitions
   ∧ (brute_force_score example_nodes example_transitions < 2 ^ 53)%Z)
  ∧ ViterbiDecoder.run_viterbi (-2147483648) 0%float 0%Z
      (ViterbiDecoder.Make (Some example_states) Semiring.PLUS_MULTIPLY)
      (array2_map float_of_int example_nodes)
      (ndarray_map float_of_int example_transitions) false
    = Ok (ViterbiDecoder.ScoreOnly
            (float_of_int
               (brute_force_score example_nodes example_transitions)))
  ∧ ViterbiDecoder.run_viterbi (-2147483648) 0%Z 0%Z
      (ViterbiDecoder.Make (Some example_states) Semiring.PLUS_MULTIPLY)
      example_nodes example_transitions false
    = Ok (ViterbiDecoder.ScoreOnly
            (brute_force_score example_nodes example_transitions)).
Proof.
  assert (Hvalid : valid_trellis example_nodes example_transitions)
    by (apply valid_trellis_by_decide; vm_compute; reflexivity).
  assert (Hsmall :
    (brute_force_score example_nodes example_transitions < 2 ^ 53)%Z)
    by reflexivity.
  split; [split; [exact Hvalid|split; [exact example_scores_positive
                                      |exact Hsmall]]|].
  split.
  - apply (proj1 run_viterbi_sum_product_brute_force string
             (-2147483648)%Z 0%float 0%Z
             (ViterbiDecoder.Make (Some example_states)
                Semiring.PLUS_MULTIPLY));
      [reflexivity|exact Hvalid|exact example_scores_positive|exact Hsmall].
  - apply (proj2 run_viterbi_sum_product_brute_force Z Z_scalar string
             (-2147483648)%Z 0%Z 0%Z
             (ViterbiDecoder.Make (Some example_states)
                Semiring.PLUS_MULTIPLY));
      [exact Z_semi_ring|reflexivity|exact Hvalid].
Defined.

Lemma large_scores_positive :
  positive_scores large_nodes_exact large_transitions_exact.
Proof.
  split.
  - cbn [shape0 shape1 large_nodes_exact np_array]. intros j t Hj Ht.
    destruct j as [|[|j]]; [| |simpl in Hj; lia];
      (destruct t as [|[|t]]; [| |simpl in Ht; lia]);
      vm_compute; discriminate.
  - cbn [shape0 shape1 large_nodes_exact np_array]. intros t i j _ Hi Hj.
    destruct i as [|[|i]]; [| |simpl in Hi; lia];
      (destruct j as [|[|j]]; [| |simpl in Hj; lia]);
      vm_compute; discriminate.
Qed.

(** Against C1 as written, in the binary64 arithmetic of numpy.  On the
    trellis of integer scores [[2^53, 1], [1, 1]] with every transition
    weight 1 the code returns 2^54 while the sum over the four paths is
    2^54 + 2; on the trellis of node scores 0.1, 0.2, 0.3, 0.4 it returns
    a float other than the one the enumeration of the four paths adds up
    to in the same arithmetic. *)
Lemma run_viterbi_sum_product_rounds :
  (valid_trellis large_nodes_exact large_transitions_exact
   ∧ positive_scores large_nodes_exact large_transitions_exact
   ∧ large_nodes = array2_map float_of_int large_nodes_exact
   ∧ large_transitions = ndarray_map float_of_int large_transitions_exact
   ∧ ViterbiDecoder.run_viterbi (-2147483648) 0%float 0%Z
       (ViterbiDecoder.Make (Some example_states) Semiring.PLUS_MULTIPLY)
       large_nodes large_transitions false
     = Ok (ViterbiDecoder.ScoreOnly 18014398509481984%float)
   ∧ py_int 18014398509481984%float = Ok 18014398509481984%Z
   ∧ brute_force_score large_nodes_exact large_transitions_exact
     = 18014398509481986%Z)
  ∧ (valid_trellis decimal_nodes decimal_transitions
     ∧ ViterbiDecoder.run_viterbi (-2147483648) 0%float 0%Z
         (ViterbiDecoder.Make (Some example_states) Semiring.PLUS_MULTIPLY)
         decimal_nodes decimal_transitions false
       = Ok (ViterbiDecoder.ScoreOnly 0x1.eb851eb851ebap-3%float)
     ∧ brute_force_score decimal_nodes decimal_transitions
       = 0x1.eb851eb851eb8p-3%float
     ∧ ViterbiDecoder.run_viterbi (-2147483648) 0%float 0%Z
         (ViterbiDecoder.Make (Some example_states) Semiring.PLUS_MULTIPLY)
         decimal_nodes decimal_transitions false
       ≠ Ok (ViterbiDecoder.ScoreOnly
               (brute_force_score decimal_nodes decimal_transitions))).
Proof.
  split.
  - split; [apply valid_trellis_by_decide; vm_compute; reflexivity|].
    split; [exact large_scores_positive|].
    repeat split; vm_compute; reflexivity.
  - split; [apply valid_trellis_by_decide; vm_compute; reflexivity|].
    split; [vm_compute; reflexivity|].
    split; [vm_compute; reflexivity|].
    intros Heq. vm_compute in Heq.
    assert (Hsf : Prim2SF 0x1.eb851eb851ebap-3 = Prim2SF 0x1.eb851eb851eb8p-3)
      by congruence.
    vm_compute in Hsf. discriminate Hsf.
Qed.

(** ** Class rebalancing *)

Section rebalance_facts.
Context {V : Type}.
Variables (zero : V) (garbage : Z) (rebalance_stochastically : bool).
Variable random_choice : list nat → Z → list nat.

Local Abbreviation rebalance :=
  (ClassBalancingModelWrapper.rebalance zero garbage rebalance_stochastically
     random_choice).

Lemma sum_of_zeros (counts : list Z) :
  Forall (λ c, c = 0%Z) counts → foldl Z.add 0%Z counts = 0%Z.
Proof. induction 1 as [|c counts -> _ IH]; simpl; done. Qed.

(** C5.  With a ratio of at most 1 the data and the labels come back as they
    were; so they do whenever the additions computed for the classes are all
    zero. *)
Theorem rebalance_unchanged (data : array2 V) (labels : list Z) :
  (∀ ratio : float, (ratio <=? 1)%float = true →
     rebalance data labels ratio = Ok (data, labels))
  ∧ (∀ ratio counts,
       ClassBalancingModelWrapper.counts_to_add ratio (np_unique labels).2
       = Ok counts →
       Forall (λ c, c = 0%Z) counts →
       rebalance data labels ratio = Ok (data, labels)).
Proof.
  split.
  - intros ratio Hratio. unfold ClassBalancingModelWrapper.rebalance.
    by rewrite Hratio.
  - intros ratio counts Hcounts Hzero.
    unfold ClassBalancingModelWrapper.rebalance.
    destruct (ratio <=? 1)%float; [done|].
    destruct (np_unique labels) as [[label_set label_indices] label_counts].
    cbn [snd] in Hcounts. rewrite Hcounts. cbn [rbind].
    by rewrite decide_True by (by apply sum_of_zeros).
Qed.

End rebalance_facts.

Lemma rebalance_unchanged_witness :
  (0.5 <=? 1)%float = true
  ∧ ClassBalancingModelWrapper.rebalance 0%Z 0%Z false first_member_choice
      example_data example_labels 0.5
    = Ok (example_data, example_labels)
  ∧ ClassBalancingModelWrapper.counts_to_add 0x1.b333333333333p+0
      (np_unique example_labels).2 = Ok [0; 0]%Z
  ∧ ClassBalancingModelWrapper.rebalance 0%Z 0%Z false first_member_choice
      example_data example_labels 0x1.b333333333333p+0
    = Ok (example_data, example_labels).
Proof.
  destruct (rebalance_unchanged 0%Z 0%Z false first_member_choice
              example_data example_labels) as [Hlow Hzero].
  assert (Hratio : (0.5 <=? 1)%float = true) by reflexivity.
  assert (Hcounts : ClassBalancingModelWrapper.counts_to_add
                      0x1.b333333333333p+0
                      (np_unique example_labels).2 = Ok [0; 0]%Z)
    by (vm_compute; reflexivity).
  split; [exact Hratio|]. split; [exact (Hlow 0.5%float Hratio)|].
  split; [exact Hcounts|].
  apply (Hzero 0x1.b333333333333p+0%float [0; 0]%Z Hcounts).
  repeat constructor.
Defined.

(** C4, as the specification states it, fails on the data of the test: at
    ratio 2.2 the class with one row gains one copy, not [int(2.2) = 2]. *)
Lemma rebalance_fractional_adds_one_copy :
  ClassBalancingModelWrapper.rebalance 0%Z 0%Z false first_member_choice
    example_data example_labels 0x1.199999999999ap+1
  = Ok (np_array [[1; 2; 3]; [4; 5; 6]; [7; 8; 9]; [10; 11; 12]; [7; 8; 9]]%Z,
        [1; 1; 0; 1; 0]%Z)
  ∧ count_label 0 example_labels = 1
  ∧ py_int 0x1.199999999999ap+1 = Ok 2%Z
  ∧ (Z.of_nat (count_label 0 [1; 1; 0; 1; 0]%Z)
     - Z.of_nat (count_label 0 example_labels))%Z ≠ 2%Z.
Proof. split_and!; [by vm_compute..|]. vm_compute. discriminate. Qed.

(** *** What is added *)

Lemma max_of_bound (l : list nat) (m : nat) :
  max_of l = Ok m → Forall (λ x, x ≤ m) l.
Proof.
  destruct l as [|x l]; [done|]. simpl. intros [= <-].
  assert (Hfold : ∀ l a, a ≤ foldl Nat.max a l
                         ∧ Forall (λ y, y ≤ foldl Nat.max a l) l).
  { clear. induction l as [|y l IH]; intros a; simpl; [by split|].
    destruct (IH (a `max` y)) as [Ha Hl]. split; [lia|].
    constructor; [lia|done]. }
  destruct (Hfold l x). by constructor.
Qed.

Lemma cumsum_from_lookup (acc : Z) (counts : list nat) (k : nat) :
  k < length counts →
  cumsum_from acc (map Z.of_nat counts) !! k
  = Some (acc + Z.of_nat (sum_list (take (S k) counts)))%Z.
Proof.
  revert acc k. induction counts as [|c counts IH]; intros acc k Hk;
    simpl in *; [lia|].
  destruct k as [|k]; simpl.
  - f_equal. rewrite ?take_0. simpl. lia.
  - rewrite IH by lia. f_equal. simpl. lia.
Qed.

Lemma slices_lookup (counts : list nat) (k : nat) :
  k ≤ length counts →
  (0%Z :: np_cumsum (map Z.of_nat counts)) !! k
  = Some (Z.of_nat (sum_list (take k counts))).
Proof.
  intros Hk. destruct k as [|k]; [by rewrite take_0|].
  simpl. unfold np_cumsum. rewrite cumsum_from_lookup by lia. done.
Qed.

Lemma foldl_add_sum_list (counts : list nat) (acc : Z) :
  foldl Z.add acc (map Z.of_nat counts)
  = (acc + Z.of_nat (sum_list counts))%Z.
Proof.
  revert acc. induction counts as [|c counts IH]; intros acc; simpl; [lia|].
  rewrite IH. lia.
Qed.

Section unique_facts.
Variable labels : list Z.
Local Abbreviation label_set := (np_unique labels).1.1.
Local Abbreviation label_indices := (np_unique labels).1.2.
Local Abbreviation label_counts := (np_unique labels).2.

Lemma label_set_NoDup : NoDup label_set.
Proof.
  cbn. rewrite merge_sort_Permutation. apply NoDup_remove_dups.
Qed.

Lemma elem_of_label_set (l : Z) : l ∈ label_set ↔ l ∈ labels.
Proof. cbn. by rewrite merge_sort_Permutation, elem_of_remove_dups. Qed.

Lemma label_index_of (l : Z) (j : nat) :
  label_set !! j = Some l →
  default 0 (fst <$> list_find (λ u, u = l) label_set) = j.
Proof.
  intros Hj.
  destruct (list_find_elem_of (λ u, u = l) label_set l) as [[j' l'] Hfind];
    [by eapply list_elem_of_lookup_2|done|].
  rewrite Hfind. simpl.
  apply list_find_Some in Hfind as (Hj' & -> & _).
  by eapply NoDup_lookup; [apply label_set_NoDup|..].
Qed.

Lemma label_indices_lookup (i : nat) (l : Z) (j : nat) :
  labels !! i = Some l → label_set !! j = Some l →
  label_indices !! i = Some j.
Proof.
  intros Hi Hj. cbn [np_unique fst snd].
  rewrite list_lookup_fmap, Hi. simpl. f_equal.
  by apply (label_index_of l j).
Qed.

Lemma label_indices_class (i j : nat) (l : Z) :
  label_indices !! i = Some j → label_set !! j = Some l →
  labels !! i = Some l.
Proof.
  intros Hi Hj. cbn [np_unique fst snd] in Hi.
  rewrite list_lookup_fmap in Hi.
  destruct (labels !! i) as [l'|] eqn:Hl'; [|done].
  assert (Hin : l' ∈ label_set).
  { apply elem_of_label_set. by eapply list_elem_of_lookup_2. }
  apply list_elem_of_lookup in Hin as [j' Hj'].
  pose proof (label_index_of l' j' Hj') as Hidx.
  cbn [np_unique fst snd] in Hidx. simpl in Hi. rewrite Hidx in Hi.
  injection Hi as ->. congruence.
Qed.

Lemma label_counts_lookup (j : nat) (l : Z) :
  label_set !! j = Some l → label_counts !! j = Some (count_label l labels).
Proof.
  intros Hj. cbn [np_unique fst snd].
  rewrite list_lookup_fmap. cbn [np_unique fst snd] in Hj. by rewrite Hj.
Qed.

End unique_facts.

Lemma class_rows_elem_of (label_indices : list nat) (j i : nat) :
  i ∈ omap (λ ij : nat * nat, if decide (ij.2 = j) then Some ij.1 else None)
           (imap pair label_indices)
  ↔ label_indices !! i = Some j.
Proof.
  rewrite list_elem_of_omap. split.
  - intros ([i' j'] & Hin & Hij). simpl in Hij.
    case_decide; [|done]. simplify_eq.
    by apply elem_of_lookup_imap in Hin as (i' & j' & [= <- <-] & Hi).
  - intros Hi. exists (i, j). split.
    + by apply (elem_of_lookup_imap_2 pair).
    + simpl. by rewrite decide_True.
Qed.

Lemma class_rows_length (f : nat → nat → nat * nat) (label_indices : list nat)
    (j : nat) :
  (∀ i x, (f i x).2 = x) →
  length (omap (λ ij : nat * nat,
                  if decide (ij.2 = j) then Some ij.1 else None)
               (imap f label_indices))
  = length (filter (λ x, x = j) label_indices).
Proof.
  revert f. induction label_indices as [|x l IH]; intros f Hf; [done|].
  rewrite imap_cons, filter_cons. cbn [omap list_omap]. rewrite Hf.
  case_decide; simpl; rewrite IH; try done; intros i y; apply Hf.
Qed.

Section class_facts.
Variable labels : list Z.
Local Abbreviation label_set := (np_unique labels).1.1.
Local Abbreviation label_indices := (np_unique labels).1.2.
Local Abbreviation class_rows j :=
  (omap (λ ij : nat * nat, if decide (ij.2 = j) then Some ij.1 else None)
        (imap pair label_indices)).

Lemma count_label_indices (j : nat) (l : Z) :
  label_set !! j = Some l →
  length (filter (λ x, x = j) label_indices) = count_label l labels.
Proof.
  intros Hj. unfold count_label.
  assert (Hgen : ∀ ls, Forall (λ l', l' ∈ label_set) ls →
    length (filter (λ x, x = j)
              (map (λ l', default 0 (fst <$> list_find (λ u, u = l') label_set))
                   ls))
    = length (filter (λ l', l' = l) ls)).
  { intros ls Hall. induction Hall as [|l' ls Hl' _ IH]; [done|].
    cbn [map]. rewrite !filter_cons.
    apply list_elem_of_lookup in Hl' as [j' Hj'].
    rewrite (label_index_of labels l' j' Hj').
    destruct (decide (j' = j)) as [->|Hne].
    - rewrite decide_True by congruence. cbn [length]. f_equal. exact IH.
    - rewrite decide_False; [exact IH|]. intros ->.
      apply Hne. eapply NoDup_lookup; [apply (label_set_NoDup labels)|done..]. }
  apply Hgen, Forall_forall. intros l' Hl'. by apply elem_of_label_set.
Qed.

Lemma class_rows_count (j : nat) (l : Z) :
  label_set !! j = Some l → length (class_rows j) = count_label l labels.
Proof.
  intros Hj. rewrite class_rows_length by done.
  by apply count_label_indices.
Qed.

Lemma class_rows_labels (j i : nat) (l : Z) :
  label_set !! j = Some l → i ∈ class_rows j → labels !! i = Some l.
Proof.
  intros Hj Hi%class_rows_elem_of. by eapply label_indices_class.
Qed.

Lemma count_label_pos (l : Z) : l ∈ labels → 1 ≤ count_label l labels.
Proof.
  intros Hl. unfold count_label.
  assert (Hin : l ∈ filter (λ l', l' = l) labels)
    by (by apply list_elem_of_filter).
  destruct (filter _ labels); [by apply elem_of_nil in Hin|simpl; lia].
Qed.

End class_facts.

Lemma length_mjoin_replicate {A} (k : nat) (l : list A) :
  length (mjoin (replicate k l)) = k * length l.
Proof.
  induction k as [|k IH]; simpl; [done|]. by rewrite length_app, IH.
Qed.

Lemma Forall_mjoin_replicate {A} (P : A → Prop) (k : nat) (l : list A) :
  Forall P l → Forall P (mjoin (replicate k l)).
Proof.
  intros Hl. induction k as [|k IH]; simpl; [done|].
  by apply Forall_app.
Qed.

Section pick_facts.
Variables (rebalance_stochastically : bool).
Variable random_choice : list nat → Z → list nat.
Hypothesis Hchoice :
  rebalance_stochastically = true → draws_from_population random_choice.

Lemma pick_indices_spec (label_indices : list nat) (count j : nat) :
  let class_rows :=
    omap (λ ij : nat * nat, if decide (ij.2 = j) then Some ij.1 else None)
         (imap pair label_indices) in
  1 ≤ length class_rows →
  ∃ indices,
    ClassBalancingModelWrapper.pick_indices rebalance_stochastically
      random_choice label_indices (Z.of_nat count) j = Ok indices
    ∧ length indices = count
    ∧ Forall (λ i, i ∈ class_rows) indices.
Proof.
  intros class_rows Hrows.
  unfold ClassBalancingModelWrapper.pick_indices. fold class_rows.
  destruct rebalance_stochastically.
  - destruct (Hchoice eq_refl class_rows (Z.of_nat count)) as [Hlen Hall];
      [intros Hnil; rewrite Hnil in Hrows; simpl in Hrows; lia|lia|].
    eexists. split; [done|]. split; [lia|done].
  - rewrite decide_False by lia. cbn [rbind].
    set (n := length class_rows) in *.
    set (full := (Z.of_nat count `div` Z.of_nat n)%Z).
    assert (Hfull : (0 ≤ full)%Z) by (apply Z.div_pos; lia).
    pose proof (Z.div_mod (Z.of_nat count) (Z.of_nat n) ltac:(lia)) as Hdiv.
    pose proof (Z.mod_pos_bound (Z.of_nat count) (Z.of_nat n) ltac:(lia))
      as Hmod.
    fold full in Hdiv.
    unfold np_tile. rewrite decide_True by done. cbn [rbind].
    rewrite length_mjoin_replicate. fold n.
    assert (Hstill :
      (Z.of_nat count - Z.of_nat (Z.to_nat full * n))%Z
      = (Z.of_nat count `mod` Z.of_nat n)%Z) by lia.
    rewrite Hstill. case_decide as Hzero.
    + eexists. split; [done|]. split.
      * rewrite length_app, length_mjoin_replicate. fold n.
        unfold py_prefix. rewrite decide_True by lia.
        rewrite length_take. fold n. lia.
      * apply Forall_app. split.
        -- apply Forall_mjoin_replicate. by apply Forall_forall.
        -- unfold py_prefix. rewrite decide_True by lia.
           apply Forall_forall. intros i Hi.
           apply elem_of_take in Hi as (k & Hk & _).
           by eapply list_elem_of_lookup_2.
    + eexists. split; [done|]. split.
      * rewrite length_mjoin_replicate. fold n. lia.
      * apply Forall_mjoin_replicate. by apply Forall_forall.
Qed.

End pick_facts.

Lemma take_rows_spec {A} (a : list A) (indices : list nat) :
  Forall (λ i, i < length a) indices →
  ∃ xs, take_rows a indices = Ok xs
        ∧ Forall2 (λ i x, a !! i = Some x) indices xs.
Proof.
  unfold take_rows.
  induction 1 as [|i indices Hi _ (xs & IH & Hxs)]; cbn [mapM].
  - by exists [].
  - destruct (lookup_lt_is_Some_2 a i Hi) as [x Hx].
    exists (x :: xs). rewrite Hx. cbn [rbind]. rewrite IH. cbn [rbind].
    split; [done|]. by constructor.
Qed.

Lemma assign_slice_block {A} (before rest new : list A) (lo hi : nat) :
  lo = length before → hi = lo + length new → length new ≤ length rest →
  assign_slice (before ++ rest) lo hi new
  = Ok ((before ++ new) ++ drop (length new) rest).
Proof.
  intros -> -> Hlen. unfold assign_slice. rewrite length_app.
  rewrite decide_True by lia. f_equal.
  replace (length before `min` (length before + length rest))
    with (length before) by lia.
  replace (length before
           `max` ((length before + length new)
                  `min` (length before + length rest)))
    with (length before + length new) by lia.
  rewrite take_app_length, drop_app_add'; [|done]. by rewrite <- app_assoc.
Qed.

Lemma added_labels_snoc (label_set : list Z) (counts : list nat) (k : nat)
    (l : Z) (c : nat) :
  label_set !! k = Some l → counts !! k = Some c →
  added_labels (take (S k) label_set) (take (S k) counts)
  = added_labels (take k label_set) (take k counts) ++ replicate c l.
Proof.
  intros Hl Hc. unfold added_labels.
  rewrite (take_S_r _ _ _ Hl), (take_S_r _ _ _ Hc).
  rewrite zip_with_app.
  2:{ rewrite !length_take.
      apply lookup_lt_Some in Hl. apply lookup_lt_Some in Hc. lia. }
  rewrite concat_app. simpl. by rewrite app_nil_r.
Qed.

Lemma length_added_labels (label_set : list Z) (counts : list nat) :
  length label_set = length counts →
  length (added_labels label_set counts) = sum_list counts.
Proof.
  revert counts. unfold added_labels.
  induction label_set as [|l ls IH]; intros [|c cs] Hlen; simplify_eq/=;
    [done|].
  by rewrite length_app, length_replicate, IH.
Qed.

Lemma sum_list_take_S (counts : list nat) (k c : nat) :
  counts !! k = Some c →
  sum_list (take (S k) counts) = sum_list (take k counts) + c.
Proof.
  intros Hc. rewrite (take_S_r _ _ _ Hc), sum_list_with_app. simpl. lia.
Qed.

Lemma sum_list_drop (counts : list nat) (k c : nat) :
  counts !! k = Some c →
  sum_list (drop k counts) = c + sum_list (drop (S k) counts).
Proof. intros Hc. by rewrite (drop_S _ _ _ Hc). Qed.

Section loop_facts.
Context {V : Type}.
Variables (zero : V) (garbage : Z) (rebalance_stochastically : bool).
Variable random_choice : list nat → Z → list nat.
Hypothesis Hchoice :
  rebalance_stochastically = true → draws_from_population random_choice.
Variables (data : array2 V) (labels : list Z).
Hypothesis Hrows : length (rows data) = length labels.
Variable counts : list nat.
Local Abbreviation label_set := (np_unique labels).1.1.
Local Abbreviation label_indices := (np_unique labels).1.2.
Hypothesis Hcounts : length counts = length label_set.

Local Abbreviation step :=
  (ClassBalancingModelWrapper.rebalance_class rebalance_stochastically
     random_choice data labels label_indices (map Z.of_nat counts)
     (0%Z :: np_cumsum (map Z.of_nat counts))).
Local Abbreviation added k :=
  (added_labels (take k label_set) (take k counts)).

Lemma rebalance_class_spec (k : nat) (done_rows rest_rows : list (list V))
    (rest_labels : list Z) :
  k < length label_set →
  length done_rows = sum_list (take k counts) →
  length rest_rows = sum_list (drop k counts) →
  length rest_labels = sum_list (drop k counts) →
  Forall2 (copy_of data labels) done_rows (added k) →
  ∃ done_rows' rest_rows' rest_labels',
    step (done_rows ++ rest_rows, added k ++ rest_labels) k
    = Ok (done_rows' ++ rest_rows', added (S k) ++ rest_labels')
    ∧ length done_rows' = sum_list (take (S k) counts)
    ∧ length rest_rows' = sum_list (drop (S k) counts)
    ∧ length rest_labels' = sum_list (drop (S k) counts)
    ∧ Forall2 (copy_of data labels) done_rows' (added (S k)).
Proof.
  intros Hk Hdone Hrest Hrestl Hcopies.
  destruct (lookup_lt_is_Some_2 label_set k Hk) as [l Hl].
  destruct (lookup_lt_is_Some_2 counts k) as [c Hc]; [lia|].
  assert (Hadded : length (added k) = sum_list (take k counts)).
  { apply length_added_labels. rewrite !length_take. lia. }
  unfold ClassBalancingModelWrapper.rebalance_class.
  rewrite (py_get_nat (map Z.of_nat counts) k (Z.of_nat c))
    by (by rewrite list_lookup_fmap, Hc).
  cbn [rbind].
  destruct (pick_indices_spec rebalance_stochastically random_choice Hchoice
              label_indices c k) as (indices & -> & Hlen & Hin).
  { rewrite (class_rows_count labels k l Hl).
    apply count_label_pos, elem_of_label_set.
    by eapply list_elem_of_lookup_2. }
  cbn [rbind]. rewrite (added_labels_snoc _ _ _ _ _ Hl Hc).
  rewrite (sum_list_take_S _ _ _ Hc).
  rewrite (sum_list_drop _ _ _ Hc) in Hrest, Hrestl.
  case_decide as Hempty.
  - rewrite (py_get_nat _ k _ (slices_lookup counts k ltac:(lia))).
    cbn [rbind].
    replace (Z.of_nat k + 1)%Z with (Z.of_nat (S k)) by lia.
    rewrite (py_get_nat _ (S k) _ (slices_lookup counts (S k) ltac:(lia))).
    cbn [rbind]. rewrite !Nat2Z.id.
    assert (Hvalid : Forall (λ i, labels !! i = Some l) indices).
    { eapply Forall_impl; [exact Hin|]. intros i Hi.
      by eapply class_rows_labels. }
    destruct (take_rows_spec (rows data) indices) as (new_rows & -> & Hnew).
    { eapply Forall_impl; [exact Hvalid|]. intros i Hi. simpl in Hi.
      rewrite Hrows. by eapply lookup_lt_Some. }
    cbn [rbind].
    assert (Hnewlen : length new_rows = c).
    { by rewrite <- (Forall2_length _ _ _ Hnew). }
    rewrite (assign_slice_block done_rows rest_rows new_rows);
      [|lia|rewrite (sum_list_take_S _ _ _ Hc); lia|lia].
    cbn [rbind].
    destruct (take_rows_spec labels indices) as (new_labels & -> & Hnewl).
    { eapply Forall_impl; [exact Hvalid|]. intros i Hi. simpl in Hi.
      by eapply lookup_lt_Some. }
    cbn [rbind].
    assert (Hreplicate : new_labels = replicate c l).
    { rewrite <- Hlen. clear -Hvalid Hnewl.
      induction Hnewl as [|i l' indices new_labels Hi _ IH]; [done|].
      apply Forall_cons in Hvalid as [Hil Hvalid].
      simpl. f_equal; [congruence|by apply IH]. }
    subst new_labels.
    rewrite (assign_slice_block (added k) rest_labels (replicate c l));
      [|lia|rewrite (sum_list_take_S _ _ _ Hc), length_replicate; lia
       |rewrite length_replicate; lia].
    cbn [rbind]. rewrite length_replicate, Hnewlen.
    exists (done_rows ++ new_rows), (drop c rest_rows), (drop c rest_labels).
    split; [done|]. rewrite length_app, !length_drop.
    split_and!; [lia..|].
    apply Forall2_app; [done|].
    rewrite <- Hlen. clear -Hnew Hvalid. revert new_rows Hnew.
    induction Hvalid as [|i indices Hi _ IH]; intros new_rows Hnew.
    + apply Forall2_nil_inv_l in Hnew as ->. constructor.
    + apply Forall2_cons_inv_l in Hnew as (row & rest & Hrow & Hrest & ->).
      simpl. constructor; [by exists i|by apply IH].
  - assert (c = 0) as -> by lia.
    exists done_rows, rest_rows, rest_labels.
    simpl in *. rewrite app_nil_r, Nat.add_0_r. done.
Qed.

Lemma rebalance_loop_spec (m k : nat) (done_rows rest_rows : list (list V))
    (rest_labels : list Z) :
  k + m = length label_set →
  length done_rows = sum_list (take k counts) →
  length rest_rows = sum_list (drop k counts) →
  length rest_labels = sum_list (drop k counts) →
  Forall2 (copy_of data labels) done_rows (added k) →
  ∃ extra_rows,
    foldM step (done_rows ++ rest_rows, added k ++ rest_labels) (seq k m)
    = Ok (extra_rows, added_labels label_set counts)
    ∧ Forall2 (copy_of data labels) extra_rows
              (added_labels label_set counts).
Proof.
  revert k done_rows rest_rows rest_labels.
  induction m as [|m IH];
    intros k done_rows rest_rows rest_labels Hk Hdone Hrest Hrestl Hcopies.
  - rewrite Nat.add_0_r in Hk. subst k.
    rewrite drop_ge in Hrest, Hrestl by lia.
    apply nil_length_inv in Hrest as ->.
    apply nil_length_inv in Hrestl as ->.
    rewrite (take_ge counts), (take_ge label_set) in * by lia.
    exists done_rows. rewrite !app_nil_r. done.
  - cbn [seq foldM].
    destruct (rebalance_class_spec k done_rows rest_rows rest_labels)
      as (done' & rest' & restl' & -> & ? & ? & ? & ?); [lia|done..|].
    cbn [rbind]. apply IH; [lia|done..].
Qed.

End loop_facts.

Lemma count_label_app (l : Z) (l1 l2 : list Z) :
  count_label l (l1 ++ l2) = count_label l l1 + count_label l l2.
Proof. unfold count_label. by rewrite filter_app, length_app. Qed.

Lemma count_label_replicate (l l' : Z) (c : nat) :
  count_label l (replicate c l') = if decide (l' = l) then c else 0.
Proof.
  unfold count_label. induction c as [|c IH]; simpl.
  - by case_decide.
  - rewrite filter_cons. case_decide; simpl; rewrite IH;
      by rewrite ?decide_True, ?decide_False by done.
Qed.

Lemma count_label_added_absent (l : Z) (label_set : list Z)
    (counts : list nat) :
  l ∉ label_set → count_label l (added_labels label_set counts) = 0.
Proof.
  revert counts. unfold added_labels.
  induction label_set as [|l' ls IH]; intros [|c cs] Hl; simpl; try done.
  apply not_elem_of_cons in Hl as [Hne Hl].
  rewrite count_label_app, count_label_replicate, decide_False by done.
  by apply IH.
Qed.

Lemma count_label_added (label_set : list Z) (counts : list nat) (j : nat)
    (l : Z) (c : nat) :
  NoDup label_set → label_set !! j = Some l → counts !! j = Some c →
  count_label l (added_labels label_set counts) = c.
Proof.
  intros Hnodup. revert counts j.
  induction Hnodup as [|l' ls Hl' _ IH]; intros [|c' cs] [|j] Hl Hc;
    simplify_eq/=.
  - unfold added_labels. simpl.
    rewrite count_label_app, count_label_replicate, decide_True by done.
    fold (added_labels ls cs). rewrite count_label_added_absent by done. lia.
  - unfold added_labels. simpl.
    rewrite count_label_app, count_label_replicate.
    rewrite decide_False.
    2:{ intros ->. apply Hl'. by eapply list_elem_of_lookup_2. }
    by apply (IH cs j).
Qed.

Lemma added_labels_none (label_set : list Z) (counts : list nat) :
  length label_set = length counts → sum_list counts = 0 →
  added_labels label_set counts = [].
Proof.
  intros Hlen Hsum. apply nil_length_inv.
  by rewrite length_added_labels.
Qed.

Lemma mapM_nonneg {A} (f : A → res Z) (l : list A) :
  (∀ x, x ∈ l → ∃ a, f x = Ok a ∧ (0 ≤ a)%Z) →
  ∃ counts : list nat,
    mapM f l = Ok (map Z.of_nat counts)
    ∧ Forall2 (λ x c, f x = Ok (Z.of_nat c)) l counts.
Proof.
  induction l as [|x l IH]; intros Hf.
  - by exists [].
  - destruct (Hf x ltac:(left)) as (a & Ha & Hpos).
    destruct IH as (counts & Hcounts & Hall);
      [intros y Hy; apply Hf; by right|].
    exists (Z.to_nat a :: counts). cbn [mapM map].
    rewrite Ha. cbn [rbind]. rewrite Hcounts. cbn [rbind].
    rewrite Z2Nat.id by done. split; [done|].
    constructor; [by rewrite Z2Nat.id|done].
Qed.

Lemma first_member_choice_draws : draws_from_population first_member_choice.
Proof.
  intros population size Hne Hsize. unfold first_member_choice.
  split; [by rewrite length_replicate|].
  apply Forall_replicate. destruct population as [|i population]; [done|].
  left.
Qed.

Section rebalance_added.
Context {V : Type}.
Variables (zero : V) (garbage : Z) (rebalance_stochastically : bool).
Variable random_choice : list nat → Z → list nat.

Local Abbreviation rebalance :=
  (ClassBalancingModelWrapper.rebalance zero garbage rebalance_stochastically
     random_choice).

(** What [rebalance] returns for a ratio that is not at most 1: the counts
    computed for the classes, and that many copies of rows of each class in
    turn appended with their labels. *)
Lemma rebalance_result (data : array2 V) (labels : list Z) (ratio : float) :
  (rebalance_stochastically = true → draws_from_population random_choice) →
  length (rows data) = length labels →
  labels ≠ [] →
  (ratio <=? 1)%float = false →
  ∃ max_count counts extra_rows,
    max_of (np_unique labels).2 = Ok max_count
    ∧ Forall2 (λ label count,
                 ClassBalancingModelWrapper.count_to_add ratio max_count
                   (count_label label labels) = Ok (Z.of_nat count))
              (np_unique labels).1.1 counts
    ∧ rebalance data labels ratio
      = Ok (Array2 (shape0 data + length extra_rows) (shape1 data)
                   (rows data ++ extra_rows),
            labels ++ added_labels (np_unique labels).1.1 counts)
    ∧ Forall2 (copy_of data labels) extra_rows
              (added_labels (np_unique labels).1.1 counts)
    ∧ ∀ label, label ∈ labels →
        ClassBalancingModelWrapper.count_to_add ratio max_count
          (count_label label labels)
        = Ok (Z.of_nat (count_label label
                          (added_labels (np_unique labels).1.1 counts))).
Proof.
  intros Hchoice Hrows Hne Hratio.
  assert (Hex : ∃ l, l ∈ labels)
    by (destruct labels as [|l ls]; [done|exists l; left]).
  set (label_set := (np_unique labels).1.1).
  set (label_indices := (np_unique labels).1.2).
  set (label_counts := (np_unique labels).2).
  assert (Hunique : np_unique labels = (label_set, label_indices, label_counts))
    by reflexivity.
  assert (Hcounts_of : label_counts
                       = map (λ label, count_label label labels) label_set)
    by reflexivity.
  assert (Hsome : label_counts ≠ []).
  { destruct Hex as [l Hin%elem_of_label_set]. fold label_set in Hin.
    rewrite Hcounts_of. intros Hnil%fmap_nil_inv.
    rewrite Hnil in Hin. by apply elem_of_nil in Hin. }
  destruct (max_of label_counts) as [max_count|] eqn:Hmax.
  2:{ by destruct label_counts. }
  exists max_count.
  pose proof (max_of_bound _ _ Hmax) as Hbound.
  destruct (mapM_nonneg
              (ClassBalancingModelWrapper.count_to_add ratio max_count)
              label_counts) as (counts & Hmap & Hall).
  { intros c Hc. apply count_to_add_returns; [done|].
    by apply (proj1 (Forall_forall _ _) Hbound). }
  assert (Hclasses :
    Forall2 (λ label count,
               ClassBalancingModelWrapper.count_to_add ratio max_count
                 (count_label label labels) = Ok (Z.of_nat count))
            label_set counts).
  { rewrite Hcounts_of in Hall. by apply Forall2_fmap_l in Hall. }
  assert (Hlen : length counts = length label_set)
    by (symmetry; by eapply Forall2_length).
  assert (Hper_class : ∀ label, label ∈ labels →
    ClassBalancingModelWrapper.count_to_add ratio max_count
      (count_label label labels)
    = Ok (Z.of_nat (count_label label (added_labels label_set counts)))).
  { intros label Hlabel%elem_of_label_set. fold label_set in Hlabel.
    apply list_elem_of_lookup in Hlabel as [j Hj].
    destruct (Forall2_lookup_l _ _ _ _ _ Hclasses Hj) as (c & Hc & Hadd).
    rewrite (count_label_added label_set counts j label c);
      [done|apply label_set_NoDup|done..]. }
  exists counts.
  unfold ClassBalancingModelWrapper.rebalance.
  rewrite Hratio, Hunique.
  unfold ClassBalancingModelWrapper.counts_to_add. rewrite Hmax.
  cbn [rbind]. rewrite Hmap. cbn [rbind].
  rewrite foldl_add_sum_list, Z.add_0_l, Nat2Z.id.
  case_decide as Hnone.
  - exists []. rewrite (added_labels_none label_set counts) in * by lia.
    rewrite !app_nil_r. simpl. rewrite Nat.add_0_r.
    split; [done|]. split; [done|]. split; [by destruct data|].
    split; [constructor|done].
  - destruct (rebalance_loop_spec rebalance_stochastically random_choice
                Hchoice data labels Hrows counts Hlen
                (length label_set) 0 []
                (replicate (sum_list counts) (replicate (shape1 data) zero))
                (replicate (sum_list counts) garbage))
      as (extra_rows & Hloop & Hcopies);
      [done|done|by rewrite length_replicate..|constructor|].
    exists extra_rows. split; [done|]. split; [done|].
    assert (Hinit : added_labels (take 0 (np_unique labels).1.1)
                      (take 0 counts) = []) by reflexivity.
    rewrite Hinit in Hloop. cbn [app] in Hloop.
    fold label_set label_indices in Hloop.
    rewrite Hloop. cbn [rbind].
    rewrite (Forall2_length _ _ _ Hcopies), length_added_labels by done.
    split_and!; done.
Qed.

(** C4, amended.  For a ratio that is not at most 1, [rebalance] appends to
    the data, class by class, [int(min(majority_count - current_count,
    (ratio - 1) * current_count))] copies of rows of that class, with their
    labels, the product and the comparison being those of binary64; for the
    ratio 2.2 and a class of one row below the majority that is one copy
    (two rows of the class in all). *)
Theorem rebalance_adds_truncated_count (data : array2 V) (labels : list Z)
    (ratio : float) :
  (rebalance_stochastically = true → draws_from_population random_choice) →
  length (rows data) = length labels →
  labels ≠ [] →
  (ratio <=? 1)%float = false →
  ∃ max_count counts extra_rows,
    max_of (np_unique labels).2 = Ok max_count ∧
    let label_set := (np_unique labels).1.1 in
    let extra_labels := added_labels label_set counts in
    Forall2 (λ label count,
               ClassBalancingModelWrapper.count_to_add ratio max_count
                 (count_label label labels) = Ok (Z.of_nat count))
            label_set counts
    ∧ rebalance data labels ratio
      = Ok (Array2 (shape0 data + length extra_rows) (shape1 data)
                   (rows data ++ extra_rows),
            labels ++ extra_labels)
    ∧ Forall2 (copy_of data labels) extra_rows extra_labels
    ∧ (∀ label, label ∈ labels →
         ClassBalancingModelWrapper.count_to_add ratio max_count
           (count_label label labels)
         = Ok (Z.of_nat (count_label label extra_labels)))
    ∧ (∀ majority, 1 < majority → (Z.of_nat majority ≤ 2 ^ 53)%Z →
         ClassBalancingModelWrapper.count_to_add 0x1.199999999999ap+1
           majority 1
         = Ok 1%Z).
Proof.
  intros Hchoice Hrows Hne Hratio.
  destruct (rebalance_result data labels ratio Hchoice Hrows Hne Hratio)
    as (max_count & counts & extra_rows & Hmax & Hclasses & Hrun & Hcopies
        & Hper_class).
  exists max_count, counts, extra_rows. split; [done|]. cbn zeta.
  split_and!; [done..|]. apply count_to_add_fractional_example.
Qed.

End rebalance_added.

Lemma rebalance_adds_truncated_count_witness :
  (length (rows example_data) = length example_labels
   ∧ (0x1.199999999999ap+1 <=? 1)%float = false)
  ∧ (∃ counts extra_rows,
       ClassBalancingModelWrapper.rebalance 0%Z 0%Z false first_member_choice
         example_data example_labels 0x1.199999999999ap+1
       = Ok (Array2 (4 + length extra_rows) 3
                    (rows example_data ++ extra_rows),
             example_labels ++ added_labels [0; 1]%Z counts)
       ∧ Forall2 (copy_of example_data example_labels) extra_rows
                 (added_labels [0; 1]%Z counts))
  ∧ (∃ counts extra_rows,
       ClassBalancingModelWrapper.rebalance 0%Z 0%Z true first_member_choice
         example_data example_labels 0x1.199999999999ap+1
       = Ok (Array2 (4 + length extra_rows) 3
                    (rows example_data ++ extra_rows),
             example_labels ++ added_labels [0; 1]%Z counts)
       ∧ Forall2 (copy_of example_data example_labels) extra_rows
                 (added_labels [0; 1]%Z counts)).
Proof.
  assert (Hratio : (0x1.199999999999ap+1 <=? 1)%float = false)
    by reflexivity.
  split; [split; [reflexivity|exact Hratio]|]. split.
  - destruct (rebalance_adds_truncated_count 0%Z 0%Z false
                first_member_choice example_data example_labels
                0x1.199999999999ap+1)
      as (max_count & counts & extra_rows & _ & _ & Hrun & Hcopies & _);
      [discriminate|reflexivity|discriminate|exact Hratio|].
    exists counts, extra_rows. split; [exact Hrun|exact Hcopies].
  - destruct (rebalance_adds_truncated_count 0%Z 0%Z true
                first_member_choice example_data example_labels
                0x1.199999999999ap+1)
      as (max_count & counts & extra_rows & _ & _ & Hrun & Hcopies & _);
      [intros _; exact first_member_choice_draws|reflexivity|discriminate
      |exact Hratio|].
    exists counts, extra_rows. split; [exact Hrun|exact Hcopies].
Defined.

(** ** The best path on any trellis *)

Section decoding_facts.
Context {R : Type} `{Scalar R}.

Lemma argmax_from_bound (best_i i : nat) (best : R) (l : list R) :
  best_i < i → argmax_from best_i best i l < i + length l.
Proof.
  revert best_i best i. induction l as [|x l IH]; intros best_i best i Hi;
    simpl; [lia|].
  destruct (Rgtb x best).
  - specialize (IH i x (S i)). lia.
  - specialize (IH best_i best (S i)). lia.
Qed.

Lemma np_argmax_ok (l : list R) :
  1 ≤ length l → np_argmax l = Ok (argmax_of l) ∧ argmax_of l < length l.
Proof.
  intros Hl. unfold argmax_of. destruct l as [|x l]; [simpl in Hl; lia|].
  simpl. split; [done|].
  pose proof (argmax_from_bound 0 1 x l). lia.
Qed.

Lemma get2_at2 (a : array2 R) (i j : nat) :
  wf_array2 a → i < shape0 a → j < shape1 a →
  get2 a (Z.of_nat i) (Z.of_nat j) = Ok (at2 a i j).
Proof.
  intros [Hrows Hcols] Hi Hj.
  destruct (lookup_lt_is_Some_2 (rows a) i) as [r Hr]; [lia|].
  assert (Hlen : length r = shape1 a).
  { eapply (proj1 (Forall_forall _ _) Hcols), list_elem_of_lookup_2, Hr. }
  destruct (lookup_lt_is_Some_2 r j) as [x Hx]; [lia|].
  unfold get2. rewrite (py_get_nat _ _ _ Hr). cbn [rbind].
  rewrite (py_get_nat _ _ _ Hx). unfold at2. rewrite Hr. simpl.
  by rewrite Hx.
Qed.

Section loop.
Variables (sr : Semiring.t R) (node : array2 R) (tw : ndarray R).
Hypothesis Hvalid : valid_trellis node tw.
Hypothesis Harg : Semiring.arg_sum sr = Some np_argmax.
Hypothesis Hstates : 1 ≤ shape0 node.

Local Abbreviation scores := (viterbi_scores sr node tw).
Local Abbreviation predecessor := (best_predecessor sr node tw).

Lemma best_predecessor_bound (t j : nat) : predecessor t j < shape0 node.
Proof.
  unfold best_predecessor.
  match goal with |- argmax_of ?col < _ =>
    destruct (np_argmax_ok col) as [_ Hlt] end.
  - rewrite length_map, length_seq. done.
  - by rewrite length_map, length_seq in Hlt.
Qed.

Lemma viterbi_column_decoded (st : array2 R * array2 Z) (c : nat) :
  S c < shape1 node → decoded_columns sr node tw c st →
  ∃ st', ViterbiDecoder.viterbi_column sr true node tw st (S c) = Ok st'
         ∧ decoded_columns sr node tw (S c) st'.
Proof.
  intros Hc. destruct st as [ps pr].
  intros (Hwf & Hs0 & Hs1 & Hcol & Hwfp & Hp0 & Hp1 & Hback).
  cbn [fst snd] in *.
  destruct (transition_slice node tw c Hvalid Hc)
    as (w & Hw & Hwfw & Hw0 & Hw1 & Hat).
  unfold ViterbiDecoder.viterbi_column. rewrite Hw. cbn [rbind].
  replace (Z.of_nat (S c) - 1)%Z with (Z.of_nat c) by lia.
  rewrite Hcol. cbn [rbind]. rewrite <- Hw0.
  destruct (multiply_newaxis_spec sr w (scores c) Hwfw)
    as (p & -> & Hwfp' & Hq0 & Hq1 & Hp).
  cbn [rbind]. rewrite Harg.
  assert (Hcolumn : ∀ j, j < shape0 node →
    map (λ i, at2 p i j) (seq 0 (shape0 node))
    = map (λ i, Semiring.multiply sr (transition_at tw c i j) (scores c i))
          (seq 0 (shape0 node))).
  { intros j Hj. apply map_ext_in. intros i Hi%in_seq.
    rewrite Hp by lia. by rewrite Hat. }
  assert (Hindices :
    reduce_axis0 np_argmax p
    = Ok (map (predecessor c) (seq 0 (shape0 node)))).
  { unfold reduce_axis0. rewrite decide_False by lia.
    rewrite Hq1, Hw1. apply mapM_seq_ok. intros j Hj.
    rewrite get_col_at2 by (done || lia). cbn [rbind].
    rewrite Hq0, Hw0, Hcolumn by lia.
    apply np_argmax_ok. by rewrite length_map, length_seq. }
  rewrite Hindices. cbn [rbind].
  destruct (set_col_spec pr (S c)
              (map Z.of_nat (map (predecessor c) (seq 0 (shape0 node)))))
    as (pr' & -> & Hwfq & Hr0 & Hr1 & _ & Hrows');
    [done|lia|by rewrite !length_map, length_seq|].
  cbn [rbind].
  assert (Hsummed :
    ViterbiDecoder.take_diagonal p (map (predecessor c) (seq 0 (shape0 node)))
    = Ok (map (λ j, Semiring.multiply sr
                      (transition_at tw c (predecessor c j) j)
                      (scores c (predecessor c j)))
              (seq 0 (shape0 node)))).
  { unfold ViterbiDecoder.take_diagonal, len.
    rewrite decide_True by (rewrite length_map, length_seq; lia).
    rewrite Hq0, Hw0.
    assert (Hzip : zip (map (predecessor c) (seq 0 (shape0 node)))
                       (seq 0 (shape0 node))
                   = map (λ j, (predecessor c j, j)) (seq 0 (shape0 node))).
    { generalize (seq 0 (shape0 node)). intros l.
      induction l as [|j l IH]; simpl; [done|by f_equal]. }
    rewrite Hzip, mapM_map. apply mapM_seq_ok. intros j Hj. cbn [fst snd].
    pose proof (best_predecessor_bound c j).
    rewrite get2_at2 by (done || lia). f_equal.
    rewrite Hp by lia. by rewrite Hat. }
  rewrite Hsummed. cbn [rbind].
  destruct Hvalid as (Hwfn & _ & _).
  rewrite get_col_at2 by done. cbn [rbind].
  unfold ViterbiDecoder.multiply_vec.
  rewrite decide_True by (by rewrite !length_map, !length_seq).
  rewrite zip_with_map_diag. cbn [rbind].
  destruct (set_col_spec ps (S c)
    (map (λ j, Semiring.multiply sr (at2 node j (S c))
           (Semiring.multiply sr (transition_at tw c (predecessor c j) j)
              (scores c (predecessor c j))))
         (seq 0 (shape0 node))))
    as (ps' & -> & Hwf' & Hs0' & Hs1' & Hcol' & _);
    [done|lia|by rewrite length_map, length_seq; lia|].
  cbn [rbind]. eexists. split; [done|].
  unfold decoded_columns. cbn [fst snd].
  split_and!; try (done || congruence).
  - rewrite Hcol'. f_equal. apply map_ext_in. intros j Hj%in_seq.
    cbn [viterbi_scores]. f_equal.
    fold (predecessor c j). unfold best_predecessor at 1.
    pose proof (best_predecessor_bound c j) as Hlt.
    unfold best_predecessor in Hlt.
    rewrite list_lookup_fmap, lookup_seq_lt by done. done.
  - intros j r' c' Hr' Hc'.
    destruct (lookup_lt_is_Some_2 (rows pr) j) as [r Hr].
    { destruct Hwfp as [-> _]. destruct Hwfq as [Hlen' _].
      rewrite <- Hr0, <- Hlen'. by eapply lookup_lt_Some. }
    destruct (Hrows' j r Hr) as (x & Hx & Hr'').
    rewrite Hr'' in Hr'. injection Hr' as <-.
    destruct (decide (c' = S c)) as [->|Hne].
    + rewrite list_lookup_insert_eq.
      * rewrite !list_lookup_fmap in Hx.
        assert (j < shape0 node).
        { destruct Hwfp as [Hlen _]. rewrite <- Hp0, <- Hlen.
          by eapply lookup_lt_Some. }
        rewrite lookup_seq_lt in Hx by done. simpl in Hx.
        injection Hx as <-. by replace (S c - 1) with c by lia.
      * destruct Hwfp as [_ Hcols].
        rewrite (proj1 (Forall_forall _ _) Hcols r)
          by (by eapply list_elem_of_lookup_2).
        lia.
    + rewrite list_lookup_insert_ne by done. apply (Hback j r c' Hr). lia.
Qed.

Lemma viterbi_loop_decoded (n c : nat) (st : array2 R * array2 Z) :
  c + n < shape1 node → decoded_columns sr node tw c st →
  ∃ st', foldM (ViterbiDecoder.viterbi_column sr true node tw) st
               (seq (S c) n) = Ok st'
         ∧ decoded_columns sr node tw (c + n) st'.
Proof.
  revert c st. induction n as [|n IH]; intros c st Hc Hst.
  - exists st. by rewrite Nat.add_0_r.
  - change (seq (S c) (S n)) with (S c :: seq (S (S c)) n). cbn [foldM].
    destruct (viterbi_column_decoded st c) as (st1 & -> & Hst1); [lia|done|].
    cbn [rbind].
    destruct (IH (S c) st1) as (st' & -> & Hst'); [lia|done|].
    exists st'. by replace (c + S n) with (S c + n) by lia.
Qed.


Lemma length_best_path_to (t state : nat) :
  length (best_path_to sr node tw t state) = S t.
Proof.
  revert state. induction t as [|t IH]; intros state; simpl; [done|].
  rewrite length_app, IH. simpl. lia.
Qed.

Lemma best_path_to_end (t state : nat) :
  state_at (best_path_to sr node tw t state) t = state.
Proof.
  destruct t as [|t]; [done|]. cbn [best_path_to].
  pose proof (state_at_app_r (best_path_to sr node tw t (predecessor t state))
                state) as Hend.
  by rewrite length_best_path_to in Hend.
Qed.

Lemma best_path_to_step (t state k : nat) :
  k < t →
  state_at (best_path_to sr node tw t state) k
  = predecessor k (state_at (best_path_to sr node tw t state) (S k)).
Proof.
  revert state. induction t as [|t IH]; intros state Hk; [lia|].
  cbn [best_path_to].
  rewrite state_at_app_l by (rewrite length_best_path_to; lia).
  destruct (decide (k = t)) as [->|Hne].
  - rewrite best_path_to_end.
    pose proof (state_at_app_r
                  (best_path_to sr node tw t (predecessor t state)) state)
      as Hend.
    rewrite length_best_path_to in Hend. by rewrite Hend.
  - rewrite (state_at_app_l _ _ (S k)) by (rewrite length_best_path_to; lia).
    apply IH. lia.
Qed.

Lemma best_path_to_states (t state : nat) :
  state < shape0 node →
  Forall (λ s, s < shape0 node) (best_path_to sr node tw t state).
Proof.
  revert state. induction t as [|t IH]; intros state Hstate; simpl.
  - by constructor.
  - apply Forall_app. split; [|by constructor].
    apply IH, best_predecessor_bound.
Qed.

Lemma state_at_lookup (path : list nat) (k : nat) :
  k < length path → path !! k = Some (state_at path k).
Proof.
  intros Hk. unfold state_at.
  by destruct (lookup_lt_is_Some_2 path k Hk) as [s ->].
Qed.

Lemma reconstruct_decoded (pr : array2 Z) (final n : nat) (bsp : list Z) :
  let path := best_path_to sr node tw (shape1 node - 1) final in
  final < shape0 node →
  wf_array2 pr → shape0 pr = shape0 node →
  (∀ j r c', rows pr !! j = Some r → 1 ≤ c' ≤ shape1 node - 1 →
     r !! c' = Some (Z.of_nat (predecessor (c' - 1) j))) →
  n < shape1 node → length bsp = shape1 node →
  (∀ k, n ≤ k < shape1 node → bsp !! k = Some (Z.of_nat (state_at path k))) →
  foldM (ViterbiDecoder.reconstruct_step pr) bsp (rev (seq 1 n))
  = Ok (map Z.of_nat path).
Proof.
  intros path Hfinal [Hrows _] Hp0 Hback.
  assert (Hpos : 1 ≤ shape1 node) by apply Hvalid.
  assert (Hlen : length path = shape1 node).
  { unfold path. rewrite length_best_path_to. lia. }
  revert bsp. induction n as [|n IH]; intros bsp Hn Hbsp Hsuffix.
  - simpl. f_equal. apply list_eq. intros k.
    destruct (decide (k < shape1 node)).
    + rewrite Hsuffix by lia.
      by rewrite list_lookup_fmap, state_at_lookup by lia.
    + rewrite !lookup_ge_None_2; [done|rewrite length_map; lia|lia].
  - rewrite seq_S, rev_app_distr. cbn [rev app foldM Nat.add].
    unfold ViterbiDecoder.reconstruct_step at 1.
    rewrite (py_get_nat bsp (S n) _ (Hsuffix (S n) ltac:(lia))).
    cbn [rbind].
    assert (Hstate : state_at path (S n) < shape0 node).
    { pose proof (best_path_to_states (shape1 node - 1) final Hfinal) as Hall.
      apply (proj1 (Forall_forall _ _) Hall).
      eapply list_elem_of_lookup_2, state_at_lookup. lia. }
    destruct (lookup_lt_is_Some_2 (rows pr) (state_at path (S n)))
      as [r Hr]; [lia|].
    unfold get2. rewrite (py_get_nat _ _ _ Hr). cbn [rbind].
    rewrite (py_get_nat r (S n) _ (Hback _ r (S n) Hr ltac:(lia))).
    cbn [rbind].
    replace (Z.of_nat (S n) - 1)%Z with (Z.of_nat n) by lia.
    rewrite py_set_nat by lia. cbn [rbind].
    apply IH; [lia|by rewrite length_insert|].
    intros k Hk. destruct (decide (k = n)) as [->|Hne].
    + rewrite list_lookup_insert_eq by lia. do 2 f_equal.
      replace (S n - 1) with n by lia.
      symmetry. apply best_path_to_step. lia.
    + rewrite list_lookup_insert_ne by done. apply Hsuffix. lia.
Qed.

Variables (nan_as_int32 : Z) (garbage : R) (garbage32 : Z).
Context {L : Type}.

Lemma run_viterbi_best_path_spec (self : ViterbiDecoder.t R L) :
  ViterbiDecoder.semiring self = sr →
  ViterbiDecoder.run_viterbi nan_as_int32 garbage garbage32 self node tw true
  = (path ← returned_path (ViterbiDecoder.possible_states self)
              (best_path sr node tw);
     Ok (ViterbiDecoder.ScoreAndPath
           (scores (shape1 node - 1) (best_final_state sr node tw)) path)).
Proof.
  intros Hself. unfold ViterbiDecoder.run_viterbi.
  rewrite Hself, Harg, bool_decide_true by (by eexists).
  cbn [orb py_assert rbind].
  destruct Hvalid as (Hwfn & Hpos & _).
  pose proof (get_col_at2 node 0 Hwfn Hpos) as Hfirst.
  change (Z.of_nat 0) with 0%Z in Hfirst. rewrite Hfirst. cbn [rbind].
  destruct (set_col_spec
    (np_empty garbage (shape0 node) (shape1 node)) 0
    (map (λ i, at2 node i 0) (seq 0 (shape0 node))))
    as (ps0 & Hset & Hwf0 & Hs0 & Hs1 & Hcol & _);
    [apply wf_np_empty|simpl; lia|by rewrite length_map, length_seq|].
  change (Z.of_nat 0) with 0%Z in Hset. rewrite Hset. cbn [rbind].
  simpl in Hs0, Hs1.
  unfold fill_col. cbn [np_empty shape0 shape1 rows].
  rewrite py_index_0 by lia. cbn [rbind].
  set (pr0 := Array2 (shape0 node) (shape1 node) _).
  assert (Hstart : decoded_columns sr node tw 0 (ps0, pr0)).
  { unfold decoded_columns. cbn [fst snd pr0 shape0 shape1 rows].
    split_and!; try done.
    - split; simpl; [by rewrite length_map, length_replicate|].
      apply Forall_forall. intros r Hr%list_elem_of_In%in_map_iff.
      destruct Hr as (r0 & <- & [-> _]%list_elem_of_In%elem_of_replicate).
      by rewrite length_insert, length_replicate.
    - intros j r c' _ Hc'. lia. }
  destruct (viterbi_loop_decoded (shape1 node - 1) 0 (ps0, pr0))
    as ([ps pr] & -> & Hfinal); [lia|done|].
  cbn [rbind]. clear Hstart.
  destruct Hfinal as (Hwf & Hp0 & Hp1 & Hlast & Hwfp & Hq0 & Hq1 & Hback).
  cbn [fst snd Nat.add] in *.
  rewrite get_col_last by lia. rewrite Hp1, Hlast. cbn [rbind].
  destruct (np_argmax_ok
              (map (scores (shape1 node - 1)) (seq 0 (shape0 node))))
    as [Hargmax Hbound]; [by rewrite length_map, length_seq|].
  rewrite length_map, length_seq in Hbound.
  rewrite Hargmax. cbn [rbind]. fold (best_final_state sr node tw) in *.
  unfold py_set. rewrite length_replicate, py_index_last by done.
  cbn [rbind].
  assert (Hget : get2 ps (Z.of_nat (best_final_state sr node tw)) (-1)
                 = Ok (scores (shape1 node - 1)
                         (best_final_state sr node tw))).
  { apply (get2_of_get_col ps (-1)
             (map (scores (shape1 node - 1)) (seq 0 (shape0 node))));
      [done| |].
    - rewrite get_col_last by lia. by rewrite Hp1.
    - by rewrite list_lookup_fmap, lookup_seq_lt. }
  rewrite Hget. cbn [rbind]. unfold ViterbiDecoder.reconstruct.
  rewrite (reconstruct_decoded pr (best_final_state sr node tw)
             (shape1 node - 1));
    [|done|done|done|done|lia|by rewrite length_insert, length_replicate|].
  2:{ intros k Hk. replace k with (shape1 node - 1) by lia.
      rewrite list_lookup_insert_eq by (rewrite length_replicate; lia).
      by rewrite best_path_to_end. }
  cbn [rbind]. unfold returned_path. fold (best_path sr node tw).
  destruct (ViterbiDecoder.possible_states self) as [[|s states]|];
    [done| |done].
  by destruct (mapM _ _).
Qed.

End loop.
End decoding_facts.

(** * The decoder on any valid trellis *)

Section argmax_facts.
Context {R : Type} `{Scalar R}.

Lemma argmax_from_value (pre l : list R) (best_i : nat) (best : R) :
  pre !! best_i = Some best →
  (pre ++ l) !! argmax_from best_i best (length pre) l
  = Some (foldl (λ m y, if Rgtb y m then y else m) best l).
Proof.
  revert pre best_i best. induction l as [|x l IH]; intros pre best_i best Hb.
  - simpl. rewrite app_nil_r. done.
  - cbn [argmax_from foldl].
    replace (pre ++ x :: l) with ((pre ++ [x]) ++ l) by by rewrite <- app_assoc.
    replace (S (length pre)) with (length (pre ++ [x]))
      by (rewrite length_app; simpl; lia).
    destruct (Rgtb x best).
    + apply IH. by apply list_lookup_middle.
    + apply IH. rewrite lookup_app_l; [done|by eapply lookup_lt_Some].
Qed.

(** [np.max] returns the entry [np.argmax] points at. *)
Lemma np_max_argmax (l : list R) :
  1 ≤ length l →
  ∃ m, np_max l = Ok m ∧ l !! argmax_of l = Some m.
Proof.
  destruct l as [|x l]; simpl; [lia|]. intros _.
  eexists. split; [done|]. unfold argmax_of. simpl.
  by apply (argmax_from_value [x] l 0 x).
Qed.

Section ordered.
(** The scores that occur, on which [>] is an order. *)
Variable range : R → Prop.
Hypothesis gtb_asym :
  ∀ x y : R, range x → range y → Rgtb x y = true → Rgtb y x = false.
Hypothesis not_greater_trans :
  ∀ x y z : R, range x → range y → range z →
    not_greater x y → not_greater y z → not_greater x z.

Lemma not_greater_refl (x : R) : range x → not_greater x x.
Proof.
  intros Hrange. unfold not_greater. destruct (Rgtb x x) eqn:Hx; [|done].
  by rewrite (gtb_asym x x Hrange Hrange Hx) in Hx.
Qed.

Lemma argmax_from_greatest (pre l : list R) (best_i : nat) (best : R) :
  Forall range pre → Forall range l →
  pre !! best_i = Some best →
  Forall (λ x, not_greater x best) pre →
  ∃ m, (pre ++ l) !! argmax_from best_i best (length pre) l = Some m
       ∧ Forall (λ x, not_greater x m) (pre ++ l).
Proof.
  intros Hin_pre Hin_l. revert pre best_i best Hin_pre.
  induction Hin_l as [|x l Hx_in Hin_l IH];
    intros pre best_i best Hin_pre Hb Hpre.
  - simpl. rewrite app_nil_r. by exists best.
  - assert (Hbest_in : range best).
    { apply (proj1 (Forall_forall _ _) Hin_pre).
      by eapply list_elem_of_lookup_2. }
    cbn [argmax_from].
    replace (pre ++ x :: l) with ((pre ++ [x]) ++ l) by by rewrite <- app_assoc.
    replace (S (length pre)) with (length (pre ++ [x]))
      by (rewrite length_app; simpl; lia).
    assert (Hin_pre' : Forall range (pre ++ [x])).
    { apply Forall_app. split; [done|]. by constructor. }
    destruct (Rgtb x best) eqn:Hx.
    + apply IH; [done| |].
      * by apply list_lookup_middle.
      * apply Forall_app. split.
        -- apply Forall_forall. intros y Hy.
           apply (not_greater_trans y best x);
             [by apply (proj1 (Forall_forall _ _) Hin_pre)|done|done
             |by apply (proj1 (Forall_forall _ _) Hpre)
             |by apply gtb_asym].
        -- constructor; [by apply not_greater_refl|constructor].
    + apply IH; [done| |].
      * rewrite lookup_app_l; [done|by eapply lookup_lt_Some].
      * apply Forall_app. split; [done|]. by constructor.
Qed.

(** No entry is greater than the one [np.argmax] points at. *)
Lemma argmax_greatest (l : list R) (i : nat) (x : R) :
  Forall range l →
  l !! i = Some x →
  ∃ m, l !! argmax_of l = Some m ∧ not_greater x m.
Proof.
  intros Hin Hi. destruct l as [|y l]; [done|].
  apply Forall_cons in Hin as [Hy Hin].
  destruct (argmax_from_greatest [y] l 0 y) as (m & Hm & Hall);
    [by constructor|done|done| |].
  { constructor; [by apply not_greater_refl|constructor]. }
  exists m. split; [done|].
  apply (proj1 (Forall_forall _ _) Hall). by eapply list_elem_of_lookup_2.
Qed.

End ordered.
End argmax_facts.

Section best_path_facts.
Context {R : Type} `{Scalar R}.
Variables (sr : Semiring.t R) (node : array2 R) (tw : ndarray R).
Hypothesis Hstates : 1 ≤ shape0 node.

Local Abbreviation scores := (viterbi_scores sr node tw).
Local Abbreviation predecessor_scores t j :=
  (map (λ i, Semiring.multiply sr (transition_at tw t i j) (scores t i))
       (seq 0 (shape0 node))).

Lemma predecessor_scores_lookup (t i j : nat) :
  i < shape0 node →
  predecessor_scores t j !! i
  = Some (Semiring.multiply sr (transition_at tw t i j) (scores t i)).
Proof. intros Hi. by rewrite list_lookup_fmap, lookup_seq_lt. Qed.

Lemma viterbi_scores_step (t j : nat) :
  scores (S t) j
  = Semiring.multiply sr (at2 node j (S t))
      (Semiring.multiply sr
         (transition_at tw t (best_predecessor sr node tw t j) j)
         (scores t (best_predecessor sr node tw t j))).
Proof.
  cbn [viterbi_scores]. fold (best_predecessor sr node tw t j).
  by rewrite predecessor_scores_lookup
    by by apply best_predecessor_bound.
Qed.

Lemma score_upto_app (p q : list nat) (t : nat) :
  t < length p →
  score_upto sr node tw (p ++ q) t = score_upto sr node tw p t.
Proof.
  assert (Hstate : ∀ k, k < length p → state_at (p ++ q) k = state_at p k).
  { intros k Hk. unfold state_at. by rewrite lookup_app_l. }
  induction t as [|t IH]; intros Ht; cbn [score_upto].
  - by rewrite Hstate.
  - by rewrite !Hstate, IH by lia.
Qed.

(** The score column holds the score of the path the backpointers give. *)
Lemma score_upto_best_path_to (t state : nat) :
  score_upto sr node tw (best_path_to sr node tw t state) t = scores t state.
Proof.
  revert state. induction t as [|t IH]; intros state; [done|].
  rewrite viterbi_scores_step.
  pose proof (best_path_to_end sr node tw Hstates (S t) state) as Hend.
  pose proof (best_path_to_step sr node tw Hstates (S t) state t
                ltac:(lia)) as Hstep.
  rewrite Hend in Hstep.
  cbn [score_upto]. rewrite Hend, Hstep.
  cbn [best_path_to].
  by rewrite score_upto_app, IH by (rewrite length_best_path_to; [lia|done]).
Qed.

Lemma best_final_state_bound :
  best_final_state sr node tw < shape0 node.
Proof.
  destruct (np_argmax_ok (map (scores (shape1 node - 1))
                              (seq 0 (shape0 node)))) as [_ Hbound].
  - by rewrite length_map, length_seq.
  - by rewrite length_map, length_seq in Hbound.
Qed.

Lemma length_best_path :
  length (best_path sr node tw) = S (shape1 node - 1).
Proof. by apply length_best_path_to. Qed.

Lemma best_path_states :
  Forall (λ s, s < shape0 node) (best_path sr node tw).
Proof. apply best_path_to_states; [done|apply best_final_state_bound]. Qed.

Lemma chain_score_best_path :
  chain_score sr node tw (best_path sr node tw)
  = scores (shape1 node - 1) (best_final_state sr node tw).
Proof.
  unfold chain_score. rewrite length_best_path.
  replace (S (shape1 node - 1) - 1) with (shape1 node - 1) by lia.
  apply score_upto_best_path_to.
Qed.

Section optimal.
(** The scores that occur, on which [>] is an order that [multiply]
    respects. *)
Variable range : R → Prop.
Hypothesis node_range :
  ∀ j t, j < shape0 node → t < shape1 node → range (at2 node j t).
Hypothesis transition_range :
  ∀ t i j, S t < shape1 node → i < shape0 node → j < shape0 node →
    range (transition_at tw t i j).
Hypothesis multiply_range :
  ∀ x y : R, range x → range y → range (Semiring.multiply sr x y).
Hypothesis gtb_asym :
  ∀ x y : R, range x → range y → Rgtb x y = true → Rgtb y x = false.
Hypothesis not_greater_trans :
  ∀ x y z : R, range x → range y → range z →
    not_greater x y → not_greater y z → not_greater x z.
Hypothesis multiply_monotone :
  ∀ c x y : R, range c → range x → range y → not_greater x y →
    not_greater (Semiring.multiply sr c x) (Semiring.multiply sr c y).

Lemma predecessor_scores_range (t j : nat) :
  S t < shape1 node → j < shape0 node →
  (∀ i, i < shape0 node → range (scores t i)) →
  Forall range (predecessor_scores t j).
Proof.
  intros Ht Hj Hscores. apply Forall_forall.
  intros x (i & -> & Hi%elem_of_seq)%list_elem_of_fmap.
  apply multiply_range; [apply transition_range; lia|apply Hscores; lia].
Qed.

Lemma scores_range (t j : nat) :
  t < shape1 node → j < shape0 node → range (scores t j).
Proof.
  revert j. induction t as [|t IH]; intros j Ht Hj.
  - by apply node_range.
  - rewrite viterbi_scores_step.
    pose proof (best_predecessor_bound sr node tw Hstates t j) as Hpred.
    apply multiply_range; [by apply node_range|].
    apply multiply_range; [by apply transition_range|].
    apply IH; [lia|done].
Qed.

Lemma score_upto_range (path : list nat) (t : nat) :
  t < shape1 node → length path = shape1 node →
  Forall (λ s, s < shape0 node) path →
  range (score_upto sr node tw path t).
Proof.
  intros Ht Hlen Hpath.
  assert (Hin : ∀ k, k < length path → state_at path k < shape0 node).
  { intros k Hk. apply (proj1 (Forall_forall _ _) Hpath).
    eapply list_elem_of_lookup_2. by apply state_at_lookup. }
  induction t as [|t IH]; cbn [score_upto].
  - apply node_range; [apply Hin|]; lia.
  - apply multiply_range; [apply node_range; [apply Hin|]; lia|].
    apply multiply_range; [apply transition_range; [|apply Hin..]; lia|].
    apply IH. lia.
Qed.

Lemma score_upto_dominated (path : list nat) (t : nat) :
  t < shape1 node → length path = shape1 node →
  Forall (λ s, s < shape0 node) path →
  not_greater (score_upto sr node tw path t) (scores t (state_at path t)).
Proof.
  intros Ht Hlen Hpath.
  assert (Hin : ∀ k, k < length path → state_at path k < shape0 node).
  { intros k Hk. apply (proj1 (Forall_forall _ _) Hpath).
    eapply list_elem_of_lookup_2. by apply state_at_lookup. }
  induction t as [|t IH].
  - apply (not_greater_refl range gtb_asym).
    apply node_range; [apply Hin|]; lia.
  - cbn [score_upto viterbi_scores].
    assert (Hnode : range (at2 node (state_at path (S t)) (S t)))
      by (apply node_range; [apply Hin|]; lia).
    assert (Hpreds : Forall range (predecessor_scores t (state_at path (S t)))).
    { apply predecessor_scores_range; [lia|apply Hin; lia|].
      intros i Hi. apply scores_range; [lia|done]. }
    destruct (argmax_greatest range gtb_asym not_greater_trans
                (predecessor_scores t (state_at path (S t)))
                (state_at path t) _ Hpreds
                (predecessor_scores_lookup t _ _ (Hin t ltac:(lia))))
      as (m & Hm & Hle).
    assert (Hm_range : range m).
    { apply (proj1 (Forall_forall _ _) Hpreds).
      by eapply list_elem_of_lookup_2. }
    assert (Hweight : range (transition_at tw t (state_at path t)
                               (state_at path (S t))))
      by (apply transition_range; [|apply Hin..]; lia).
    assert (Hprefix : range (score_upto sr node tw path t))
      by (apply score_upto_range; [lia|done..]).
    assert (Hprev : range (scores t (state_at path t)))
      by (apply scores_range; [lia|apply Hin; lia]).
    rewrite Hm. simpl.
    apply multiply_monotone; [done|by apply multiply_range| done|].
    apply (not_greater_trans _
             (Semiring.multiply sr
                (transition_at tw t (state_at path t) (state_at path (S t)))
                (scores t (state_at path t))));
      [by apply multiply_range|by apply multiply_range|done| |done].
    apply multiply_monotone; [done..|]. apply IH. lia.
Qed.

Lemma chain_score_dominated (path : list nat) :
  length path = shape1 node → 1 ≤ shape1 node →
  Forall (λ s, s < shape0 node) path →
  not_greater (chain_score sr node tw path)
              (chain_score sr node tw (best_path sr node tw)).
Proof.
  intros Hlen Hpos Hpath. rewrite chain_score_best_path.
  unfold chain_score. rewrite Hlen.
  assert (Hlast : state_at path (shape1 node - 1) < shape0 node).
  { apply (proj1 (Forall_forall _ _) Hpath).
    eapply list_elem_of_lookup_2, state_at_lookup. lia. }
  assert (Hfinal : Forall range (map (scores (shape1 node - 1))
                                     (seq 0 (shape0 node)))).
  { apply Forall_forall.
    intros x (i & -> & Hi%elem_of_seq)%list_elem_of_fmap.
    apply scores_range; lia. }
  destruct (argmax_greatest range gtb_asym not_greater_trans
              (map (scores (shape1 node - 1)) (seq 0 (shape0 node)))
              (state_at path (shape1 node - 1))
              (scores (shape1 node - 1) (state_at path (shape1 node - 1)))
              Hfinal)
    as (m & Hm & Hle).
  { by rewrite list_lookup_fmap, lookup_seq_lt. }
  fold (best_final_state sr node tw) in Hm.
  rewrite list_lookup_fmap, lookup_seq_lt in Hm
    by apply best_final_state_bound.
  simpl in Hm. injection Hm as <-.
  apply (not_greater_trans _
           (scores (shape1 node - 1) (state_at path (shape1 node - 1))));
    [apply score_upto_range; [lia|done..]
    |apply scores_range; [lia|done]
    |apply scores_range; [lia|apply best_final_state_bound]
    |apply score_upto_dominated; [lia|done..]
    |done].
Qed.

End optimal.

(** With [np.max] for the sum, the forward recursion of the score-only mode
    is the recursion of the best-path mode. *)
Lemma forward_max_is_viterbi_scores (t j : nat) :
  Semiring.sum sr = np_max →
  forward sr node tw t j = scores t j.
Proof.
  intros Hsum. revert j. induction t as [|t IH]; intros j; [done|].
  cbn [forward viterbi_scores]. f_equal.
  rewrite (map_ext_in _ (λ i, Semiring.multiply sr (transition_at tw t i j)
                                (scores t i)))
    by (intros i _; by rewrite IH).
  destruct (np_max_argmax (predecessor_scores t j)) as (m & Hmax & ->).
  { by rewrite length_map, length_seq. }
  unfold sum_of. by rewrite Hsum, Hmax.
Qed.

End best_path_facts.

(** The scores 0.0 and 1.0 under [np.multiply] and [>]. *)
Lemma zero_or_one_multiply (x y : float) :
  zero_or_one x → zero_or_one y →
  zero_or_one (Semiring.multiply Semiring.MAX_MULTIPLY x y).
Proof. intros [-> | ->] [-> | ->]; vm_compute; auto. Qed.

Lemma zero_or_one_gtb_asym (x y : float) :
  zero_or_one x → zero_or_one y → Rgtb x y = true → Rgtb y x = false.
Proof. intros [-> | ->] [-> | ->]; vm_compute; auto. Qed.

Lemma zero_or_one_not_greater_trans (x y z : float) :
  zero_or_one x → zero_or_one y → zero_or_one z →
  not_greater x y → not_greater y z → not_greater x z.
Proof.
  intros [-> | ->] [-> | ->] [-> | ->]; vm_compute; auto; discriminate.
Qed.

Lemma zero_or_one_multiply_monotone (c x y : float) :
  zero_or_one c → zero_or_one x → zero_or_one y → not_greater x y →
  not_greater (Semiring.multiply Semiring.MAX_MULTIPLY c x)
              (Semiring.multiply Semiring.MAX_MULTIPLY c y).
Proof.
  intros [-> | ->] [-> | ->] [-> | ->]; vm_compute; auto.
Qed.

Lemma binary_nodes_range (j t : nat) :
  j < shape0 binary_nodes → t < shape1 binary_nodes →
  zero_or_one (at2 binary_nodes j t).
Proof.
  cbn [shape0 shape1 binary_nodes np_array]. intros Hj Ht.
  destruct j as [|[|j]]; [| |simpl in Hj; lia];
    (destruct t as [|[|[|t]]]; [| | |simpl in Ht; lia]);
    vm_compute; auto.
Qed.

Lemma binary_transitions_range (t i j : nat) :
  S t < shape1 binary_nodes →
  i < shape0 binary_nodes → j < shape0 binary_nodes →
  zero_or_one (transition_at binary_transitions t i j).
Proof.
  cbn [shape0 shape1 binary_nodes np_array]. intros _ Hi Hj.
  destruct i as [|[|i]]; [| |simpl in Hi; lia];
    (destruct j as [|[|j]]; [| |simpl in Hj; lia]);
    vm_compute; auto.
Qed.

Lemma mapM_py_get_labels {L} (labels : list L) (path : list nat) :
  Forall (λ s, s < length labels) path →
  ∃ names, mapM (py_get labels) (map Z.of_nat path) = Ok names
           ∧ Forall2 (λ s name, labels !! s = Some name) path names.
Proof.
  induction 1 as [|s path Hs _ (names & IH & Hall)].
  - by exists [].
  - destruct (lookup_lt_is_Some_2 labels s Hs) as [name Hname].
    exists (name :: names). cbn [map mapM].
    rewrite (py_get_nat _ _ _ Hname). cbn [rbind]. rewrite IH.
    split; [done|]. by constructor.
Qed.

Section decoder_theorems.
Context {R : Type} `{Scalar R} {L : Type}.
Variables (nan_as_int32 : Z) (garbage : R) (garbage32 : Z).

Local Abbreviation run_viterbi :=
  (ViterbiDecoder.run_viterbi nan_as_int32 garbage garbage32).
Local Abbreviation decode :=
  (ViterbiDecoder.decode nan_as_int32 garbage garbage32).

(** X1. On a trellis of the documented shapes with at least one state,
    [ViterbiDecoder.decode] with [np.argmax] for [arg_sum] and no state
    labels ([possible_states] is [None], or the empty list, which Python
    takes for false) returns an index path with one state per sequence item,
    each one the index of a row of [node_scores]. *)
Theorem decode_returns_one_state_per_item (self : ViterbiDecoder.t R L)
    (node_scores : array2 R) (transition_weights : ndarray R) :
  valid_trellis node_scores transition_weights →
  1 ≤ shape0 node_scores →
  Semiring.arg_sum (ViterbiDecoder.semiring self) = Some np_argmax →
  ViterbiDecoder.possible_states self = None
  ∨ ViterbiDecoder.possible_states self = Some [] →
  ∃ path,
    decode self node_scores transition_weights
    = Ok (ViterbiDecoder.StateIndices (map Z.of_nat path))
    ∧ length path = shape1 node_scores
    ∧ Forall (λ s, s < shape0 node_scores) path.
Proof.
  intros Hvalid Hstates Harg Hnone.
  exists (best_path (ViterbiDecoder.semiring self) node_scores
            transition_weights).
  split_and!.
  - unfold ViterbiDecoder.decode.
    rewrite (run_viterbi_best_path_spec _ _ _ Hvalid Harg Hstates
               nan_as_int32 garbage garbage32 self eq_refl).
    unfold returned_path. by destruct Hnone as [-> | ->].
  - rewrite length_best_path by done.
    destruct Hvalid as (_ & Hpos & _). lia.
  - by apply best_path_states.
Qed.

(** X2. With state labels ([possible_states] at least as long as the number
    of states), [decode] returns the labels of the states of the path it
    returns without labels: entry [t] is [possible_states[path[t]]]. *)
Theorem decode_translates_path_to_labels (self : ViterbiDecoder.t R L)
    (node_scores : array2 R) (transition_weights : ndarray R)
    (labels : list L) :
  valid_trellis node_scores transition_weights →
  1 ≤ shape0 node_scores →
  Semiring.arg_sum (ViterbiDecoder.semiring self) = Some np_argmax →
  ViterbiDecoder.possible_states self = Some labels →
  shape0 node_scores ≤ length labels →
  ∃ path names,
    decode (ViterbiDecoder.Make None (ViterbiDecoder.semiring self)
              : ViterbiDecoder.t R L)
      node_scores transition_weights
    = Ok (ViterbiDecoder.StateIndices (map Z.of_nat path))
    ∧ decode self node_scores transition_weights
      = Ok (ViterbiDecoder.StateLabels names)
    ∧ Forall2 (λ s name, labels !! s = Some name) path names.
Proof.
  intros Hvalid Hstates Harg Hlabels Hlong.
  set (path := best_path (ViterbiDecoder.semiring self) node_scores
                 transition_weights).
  destruct (mapM_py_get_labels labels path) as (names & Hnames & Hall).
  { eapply Forall_impl; [by apply best_path_states|].
    intros s Hs. simpl in Hs. lia. }
  exists path, names. split_and!; [| |done].
  - unfold ViterbiDecoder.decode.
    by rewrite (run_viterbi_best_path_spec _ _ _ Hvalid Harg Hstates
                  nan_as_int32 garbage garbage32
                  (ViterbiDecoder.Make None (ViterbiDecoder.semiring self))
                  eq_refl).
  - unfold ViterbiDecoder.decode.
    rewrite (run_viterbi_best_path_spec _ _ _ Hvalid Harg Hstates
               nan_as_int32 garbage garbage32 self eq_refl).
    unfold returned_path. rewrite Hlabels.
    destruct labels as [|l labels]; [simpl in Hlong; lia|].
    fold path. by rewrite Hnames.
Qed.

(** X3. The path [run_viterbi] returns is a best one: the score returned is
    the score of the returned path (node scores and transition weights
    combined by the semiring's [multiply] in the order of the loop), and no
    path with one state per item has a greater score.  This holds of the
    trellises whose node scores and transition weights lie in a range of
    scores that [multiply] stays in and on which [>] is asymmetric, its
    negation is transitive and [multiply] is monotone in its second
    argument.  (The binary64 scores 0.0 and 1.0 under [np.multiply] are such
    a range; NaN is in none.) *)
Theorem run_viterbi_returns_a_best_path (self : ViterbiDecoder.t R L)
    (node_scores : array2 R) (transition_weights : ndarray R)
    (range : R → Prop) :
  let sr := ViterbiDecoder.semiring self in
  valid_trellis node_scores transition_weights →
  1 ≤ shape0 node_scores →
  Semiring.arg_sum sr = Some np_argmax →
  ViterbiDecoder.possible_states self = None →
  (∀ j t, j < shape0 node_scores → t < shape1 node_scores →
     range (at2 node_scores j t)) →
  (∀ t i j, S t < shape1 node_scores →
     i < shape0 node_scores → j < shape0 node_scores →
     range (transition_at transition_weights t i j)) →
  (∀ x y : R, range x → range y → range (Semiring.multiply sr x y)) →
  (∀ x y : R, range x → range y → Rgtb x y = true → Rgtb y x = false) →
  (∀ x y z : R, range x → range y → range z →
     not_greater x y → not_greater y z → not_greater x z) →
  (∀ c x y : R, range c → range x → range y → not_greater x y →
     not_greater (Semiring.multiply sr c x) (Semiring.multiply sr c y)) →
  ∃ best,
    run_viterbi self node_scores transition_weights true
    = Ok (ViterbiDecoder.ScoreAndPath
            (chain_score sr node_scores transition_weights best)
            (ViterbiDecoder.StateIndices (map Z.of_nat best)))
    ∧ length best = shape1 node_scores
    ∧ Forall (λ s, s < shape0 node_scores) best
    ∧ ∀ path,
        length path = shape1 node_scores →
        Forall (λ s, s < shape0 node_scores) path →
        not_greater (chain_score sr node_scores transition_weights path)
                    (chain_score sr node_scores transition_weights best).
Proof.
  intros sr Hvalid Hstates Harg Hnone Hnodes Hweights Hclosed Hasym Htrans
    Hmono.
  assert (Hpos : 1 ≤ shape1 node_scores) by apply Hvalid.
  exists (best_path sr node_scores transition_weights). split_and!.
  - rewrite (run_viterbi_best_path_spec _ _ _ Hvalid Harg Hstates
               nan_as_int32 garbage garbage32 self eq_refl).
    unfold returned_path. rewrite Hnone. cbn [rbind].
    by rewrite chain_score_best_path.
  - rewrite length_best_path by done. lia.
  - by apply best_path_states.
  - intros path Hlen Hpath.
    by apply (chain_score_dominated sr node_scores transition_weights
                Hstates range).
Qed.

(** X4. For a semiring whose sum is [np.max] and whose [arg_sum] is
    [np.argmax] ([MAX_MULTIPLY], [MAX_PLUS]), the score that [run_viterbi]
    returns without a path is the score it returns with the best path. *)
Theorem run_viterbi_score_is_best_path_score (self : ViterbiDecoder.t R L)
    (node_scores : array2 R) (transition_weights : ndarray R) :
  let sr := ViterbiDecoder.semiring self in
  valid_trellis node_scores transition_weights →
  1 ≤ shape0 node_scores →
  Semiring.sum sr = np_max →
  Semiring.arg_sum sr = Some np_argmax →
  ∃ score,
    run_viterbi self node_scores transition_weights false
    = Ok (ViterbiDecoder.ScoreOnly score)
    ∧ run_viterbi self node_scores transition_weights true
      = (path ← returned_path (ViterbiDecoder.possible_states self)
                  (best_path sr node_scores transition_weights);
         Ok (ViterbiDecoder.ScoreAndPath score path)).
Proof.
  intros sr Hvalid Hstates Hsum Harg.
  exists (viterbi_scores sr node_scores transition_weights
            (shape1 node_scores - 1)
            (best_final_state sr node_scores transition_weights)).
  split.
  - rewrite (run_viterbi_score_only nan_as_int32 garbage garbage32 sr
               node_scores transition_weights Hvalid); [|
      |done].
    + do 2 f_equal.
      rewrite (map_ext_in _ (viterbi_scores sr node_scores transition_weights
                               (shape1 node_scores - 1)))
        by (intros; by apply forward_max_is_viterbi_scores).
      destruct (np_max_argmax
                  (map (viterbi_scores sr node_scores transition_weights
                          (shape1 node_scores - 1))
                       (seq 0 (shape0 node_scores)))) as (m & Hmax & Hm).
      { by rewrite length_map, length_seq. }
      unfold sum_of. rewrite Hsum, Hmax.
      fold (best_final_state sr node_scores transition_weights) in Hm.
      rewrite list_lookup_fmap, lookup_seq_lt in Hm
        by by apply best_final_state_bound.
      simpl in Hm. by injection Hm as <-.
    + intros l Hl. rewrite Hsum. destruct l; [simpl in Hl; lia|].
      by eexists.
  - by apply run_viterbi_best_path_spec.
Qed.

(** X5. With no sequence item ([node_scores] has no column), [run_viterbi]
    raises [IndexError] at [node_scores[:, 0]], whenever the assertion on
    [arg_sum] passes. *)
Theorem run_viterbi_no_item_raises_IndexError (self : ViterbiDecoder.t R L)
    (node_scores : array2 R) (transition_weights : ndarray R)
    (return_best_path : bool) :
  shape1 node_scores = 0 →
  is_Some (Semiring.arg_sum (ViterbiDecoder.semiring self))
  ∨ return_best_path = false →
  run_viterbi self node_scores transition_weights return_best_path
  = Raise IndexError.
Proof.
  intros Hcols Hassert. unfold ViterbiDecoder.run_viterbi.
  assert (bool_decide
            (is_Some (Semiring.arg_sum (ViterbiDecoder.semiring self)))
          || negb return_best_path = true) as ->.
  { destruct Hassert as [Harg | ->]; [|apply orb_true_r].
    by rewrite bool_decide_true. }
  cbn [py_assert rbind]. unfold get_col. by rewrite Hcols.
Qed.

(** X6. With no state ([node_scores] has no row) a semiring of maxima
    ([np.max] with [np.argmax]) has nothing to select from: [run_viterbi]
    raises [ValueError] on every trellis of the documented shapes, with or
    without the path. *)
Theorem run_viterbi_no_state_raises_ValueError (self : ViterbiDecoder.t R L)
    (node_scores : array2 R) (transition_weights : ndarray R)
    (return_best_path : bool) :
  valid_trellis node_scores transition_weights →
  shape0 node_scores = 0 →
  Semiring.sum (ViterbiDecoder.semiring self) = np_max →
  Semiring.arg_sum (ViterbiDecoder.semiring self) = Some np_argmax →
  run_viterbi self node_scores transition_weights return_best_path
  = Raise ValueError.
Proof.
  intros ([Hrows _] & Hpos & Hweights) Hnone Hsum Harg.
  destruct node_scores as [s0 s1 rws].
  cbn [shape0 shape1 rows] in Hrows, Hpos, Hweights, Hnone.
  rewrite Hnone in Hrows. apply nil_length_inv in Hrows.
  rewrite Hnone, Hrows in *. clear Hnone Hrows s0 rws.
  unfold ViterbiDecoder.run_viterbi. rewrite Harg, Hsum.
  rewrite bool_decide_true by (by eexists). cbn [orb py_assert rbind].
  unfold get_col at 1, set_col at 1.
  cbn [shape0 shape1 rows np_empty replicate mapM map zip_with length].
  rewrite py_index_0 by done. cbn [rbind mapM length].
  rewrite decide_True by done. cbn [zip_with rbind].
  destruct (if return_best_path then _ else _) as [pr|] eqn:Hpr.
  2:{ destruct return_best_path; [|done]. unfold fill_col in Hpr.
      cbn [shape1 np_empty] in Hpr. by rewrite py_index_0 in Hpr. }
  cbn [rbind]. clear Hpr.
  destruct s1 as [|[|n]]; [lia| |].
  - cbn [Nat.sub seq foldM rbind]. unfold get_col.
    cbn [shape1 rows mapM]. rewrite py_index_last by done. cbn [rbind].
    by destruct return_best_path.
  - replace (S (S n) - 1) with (S n) by lia. cbn [seq foldM].
    assert (Hcol : ViterbiDecoder.viterbi_column
                     (ViterbiDecoder.semiring self) return_best_path
                     (Array2 0 (S (S n)) []) transition_weights
                     (Array2 0 (S (S n)) [], pr) 1 = Raise ValueError);
      [|by rewrite Hcol].
    unfold ViterbiDecoder.viterbi_column.
    change (Z.of_nat 1 - 1)%Z with 0%Z.
    assert (∃ w, match transition_weights with
                 | Dim2 w => Ok w
                 | Dim3 slices => py_get slices 0
                 end = Ok w ∧ shape0 w = 0) as (w & -> & Hw).
    { destruct transition_weights as [w|slices].
      - exists w. split; [done|]. apply Hweights.
      - destruct Hweights as [Hlen Hall].
        destruct slices as [|w slices]; [simpl in Hlen; lia|].
        exists w. split.
        + unfold py_get. rewrite py_index_0 by (simpl; lia). done.
        + by apply Forall_inv in Hall as (_ & ? & _). }
    cbn [rbind]. unfold get_col. cbn [shape1 rows mapM].
    rewrite py_index_0 by lia. cbn [rbind].
    unfold ViterbiDecoder.multiply_newaxis. rewrite decide_True by done.
    cbn [rbind]. unfold reduce_axis0. cbn [shape0].
    rewrite Harg, Hsum, !decide_True by done.
    by destruct return_best_path.
Qed.

(** X7. A stationary transition matrix gives what the same matrix repeated
    for every transition gives: the result of [run_viterbi] (value or
    exception) is the same for the two-dimensional [w] and for the
    three-dimensional array of [num_sequence_items - 1] copies of [w]. *)
Theorem run_viterbi_stationary_weights (self : ViterbiDecoder.t R L)
    (node_scores : array2 R) (w : array2 R) (return_best_path : bool) :
  run_viterbi self node_scores
    (Dim3 (replicate (shape1 node_scores - 1) w)) return_best_path
  = run_viterbi self node_scores (Dim2 w) return_best_path.
Proof.
  unfold ViterbiDecoder.run_viterbi.
  destruct (py_assert _); [|done]. cbn [rbind].
  destruct (get_col node_scores 0); [|done]. cbn [rbind].
  destruct (set_col _ 0 _); [|done]. cbn [rbind].
  destruct (if return_best_path then _ else _); [|done]. cbn [rbind].
  f_equal. apply foldM_ext_in.
  intros [ps pr] c [Hc1 Hc2]%list_elem_of_In%in_seq.
  unfold ViterbiDecoder.viterbi_column.
  destruct c as [|c]; [lia|].
  replace (Z.of_nat (S c) - 1)%Z with (Z.of_nat c) by lia.
  rewrite (py_get_nat _ c w); [done|].
  apply lookup_replicate_2. lia.
Qed.

End decoder_theorems.

Lemma example_trellis_valid : valid_trellis example_nodes example_transitions.
Proof. apply valid_trellis_by_decide. vm_compute. reflexivity. Qed.

Lemma decode_returns_one_state_per_item_witness :
  valid_trellis example_nodes example_transitions
  ∧ 1 ≤ shape0 example_nodes
  ∧ ∃ path,
      ViterbiDecoder.decode (-2147483648) 0%Z 0%Z
        (ViterbiDecoder.Make (Some []) Semiring.MAX_PLUS
           : ViterbiDecoder.t Z string)
        example_nodes example_transitions
      = Ok (ViterbiDecoder.StateIndices (map Z.of_nat path))
      ∧ length path = shape1 example_nodes
      ∧ Forall (λ s, s < shape0 example_nodes) path.
Proof.
  split; [exact example_trellis_valid|]. split; [simpl; lia|].
  exact (decode_returns_one_state_per_item (-2147483648) 0%Z 0%Z
           (ViterbiDecoder.Make (Some []) Semiring.MAX_PLUS)
           example_nodes example_transitions example_trellis_valid
           ltac:(simpl; lia) eq_refl (or_intror eq_refl)).
Defined.

Lemma decode_translates_path_to_labels_witness :
  valid_trellis example_nodes example_transitions
  ∧ shape0 example_nodes ≤ length example_states
  ∧ ∃ path names,
      ViterbiDecoder.decode (-2147483648) 0%Z 0%Z
        (ViterbiDecoder.Make None Semiring.MAX_MULTIPLY
           : ViterbiDecoder.t Z string)
        example_nodes example_transitions
      = Ok (ViterbiDecoder.StateIndices (map Z.of_nat path))
      ∧ ViterbiDecoder.decode (-2147483648) 0%Z 0%Z
          (ViterbiDecoder.Make (Some example_states) Semiring.MAX_MULTIPLY)
          example_nodes example_transitions
        = Ok (ViterbiDecoder.StateLabels names)
      ∧ Forall2 (λ s name, example_states !! s = Some name) path names.
Proof.
  split; [exact example_trellis_valid|]. split; [simpl; lia|].
  exact (decode_translates_path_to_labels (-2147483648) 0%Z 0%Z
           (ViterbiDecoder.Make (Some example_states) Semiring.MAX_MULTIPLY)
           example_nodes example_transitions example_states
           example_trellis_valid ltac:(simpl; lia) eq_refl eq_refl
           ltac:(simpl; lia)).
Defined.

Lemma run_viterbi_returns_a_best_path_witness :
  valid_trellis binary_nodes binary_transitions
  ∧ ∃ best,
      ViterbiDecoder.run_viterbi (-2147483648) 0%float 0%Z
        (ViterbiDecoder.Make None Semiring.MAX_MULTIPLY
           : ViterbiDecoder.t float string)
        binary_nodes binary_transitions true
      = Ok (ViterbiDecoder.ScoreAndPath
              (chain_score Semiring.MAX_MULTIPLY binary_nodes
                 binary_transitions best)
              (ViterbiDecoder.StateIndices (map Z.of_nat best)))
      ∧ length best = shape1 binary_nodes
      ∧ Forall (λ s, s < shape0 binary_nodes) best
      ∧ ∀ path,
          length path = shape1 binary_nodes →
          Forall (λ s, s < shape0 binary_nodes) path →
          not_greater
            (chain_score Semiring.MAX_MULTIPLY binary_nodes
               binary_transitions path)
            (chain_score Semiring.MAX_MULTIPLY binary_nodes
               binary_transitions best).
Proof.
  assert (Hvalid : valid_trellis binary_nodes binary_transitions)
    by (apply valid_trellis_by_decide; vm_compute; reflexivity).
  split; [exact Hvalid|].
  exact (run_viterbi_returns_a_best_path (-2147483648) 0%float 0%Z
           (ViterbiDecoder.Make None Semiring.MAX_MULTIPLY)
           binary_nodes binary_transitions zero_or_one Hvalid
           ltac:(simpl; lia) eq_refl eq_refl
           binary_nodes_range binary_transitions_range
           zero_or_one_multiply zero_or_one_gtb_asym
           zero_or_one_not_greater_trans zero_or_one_multiply_monotone).
Defined.

Lemma run_viterbi_score_is_best_path_score_witness :
  valid_trellis example_nodes example_transitions
  ∧ ∃ score,
      ViterbiDecoder.run_viterbi (-2147483648) 0%Z 0%Z
        (ViterbiDecoder.Make (Some example_states) Semiring.MAX_MULTIPLY)
        example_nodes example_transitions false
      = Ok (ViterbiDecoder.ScoreOnly score)
      ∧ ViterbiDecoder.run_viterbi (-2147483648) 0%Z 0%Z
          (ViterbiDecoder.Make (Some example_states) Semiring.MAX_MULTIPLY)
          example_nodes example_transitions true
        = (path ← returned_path (Some example_states)
                    (best_path Semiring.MAX_MULTIPLY example_nodes
                       example_transitions);
           Ok (ViterbiDecoder.ScoreAndPath score path)).
Proof.
  split; [exact example_trellis_valid|].
  exact (run_viterbi_score_is_best_path_score (-2147483648) 0%Z 0%Z
           (ViterbiDecoder.Make (Some example_states) Semiring.MAX_MULTIPLY)
           example_nodes example_transitions example_trellis_valid
           ltac:(simpl; lia) eq_refl eq_refl).
Defined.

Lemma run_viterbi_no_item_raises_IndexError_witness :
  shape1 (np_empty 0%Z 2 0) = 0
  ∧ ViterbiDecoder.run_viterbi (-2147483648) 0%Z 0%Z
      (ViterbiDecoder.Make (Some example_states) Semiring.PLUS_MULTIPLY)
      (np_empty 0%Z 2 0) example_transitions false
    = Raise IndexError.
Proof.
  split; [reflexivity|].
  exact (run_viterbi_no_item_raises_IndexError (-2147483648) 0%Z 0%Z
           (ViterbiDecoder.Make (Some example_states) Semiring.PLUS_MULTIPLY)
           (np_empty 0%Z 2 0) example_transitions false eq_refl
           (or_intror eq_refl)).
Defined.

Lemma run_viterbi_no_state_raises_ValueError_witness :
  valid_trellis (np_empty 0%Z 0 3) (Dim2 (np_empty 0%Z 0 0))
  ∧ ViterbiDecoder.run_viterbi (-2147483648) 0%Z 0%Z
      (ViterbiDecoder.Make (Some example_states) Semiring.MAX_PLUS)
      (np_empty 0%Z 0 3) (Dim2 (np_empty 0%Z 0 0)) true
    = Raise ValueError.
Proof.
  assert (Hvalid : valid_trellis (np_empty 0%Z 0 3)
                     (Dim2 (np_empty 0%Z 0 0))).
  { apply valid_trellis_by_decide. vm_compute. reflexivity. }
  split; [exact Hvalid|].
  exact (run_viterbi_no_state_raises_ValueError (-2147483648) 0%Z 0%Z
           (ViterbiDecoder.Make (Some example_states) Semiring.MAX_PLUS)
           (np_empty 0%Z 0 3) (Dim2 (np_empty 0%Z 0 0)) true Hvalid
           eq_refl eq_refl eq_refl).
Defined.

(** * Selecting the feature extractors ([FeaturizedModel.__init__]) *)

Section split_facts.

Lemma split_not_nil (sep : Ascii.ascii) (s : string) : split sep s ≠ [].
Proof.
  destruct s as [|c s]; simpl; [done|].
  case_decide; [done|]. by destruct (split sep s).
Qed.

(** A string without the separator is its own single field. *)
Lemma split_without_separator (sep : Ascii.ascii) (s : string) :
  sep ∉ String.list_ascii_of_string s → split sep s = [s].
Proof.
  induction s as [|c s IH]; simpl; [done|].
  intros Hsep. apply not_elem_of_cons in Hsep as [Hc Hs].
  rewrite decide_False by done. by rewrite IH.
Qed.

(** A string with the separator has at least two fields. *)
Lemma split_with_separator (sep : Ascii.ascii) (s : string) :
  sep ∈ String.list_ascii_of_string s → 1 < length (split sep s).
Proof.
  induction s as [|c s IH]; cbn [String.list_ascii_of_string split].
  { intros Hsep. by apply elem_of_nil in Hsep. }
  intros Hsep. case_decide as Hc.
  - pose proof (split_not_nil sep s). simpl.
    destruct (split sep s); [done|simpl; lia].
  - apply elem_of_cons in Hsep as [->|Hsep]; [done|].
    specialize (IH Hsep). destruct (split sep s); simpl in *; lia.
Qed.

End split_facts.

Lemma foldM_snoc_mapM {A B} (g : A → res B) (acc : list B) (l : list A) :
  foldM (λ acc x, e ← g x; Ok (acc ++ [e])) acc l
  = (es ← mapM g l; Ok (acc ++ es)).
Proof.
  revert acc. induction l as [|x l IH]; intros acc; simpl.
  - by rewrite app_nil_r.
  - destruct (g x) as [e|]; simpl; [|done].
    rewrite IH. destruct (mapM g l); simpl; [|done].
    by rewrite <- app_assoc.
Qed.

Lemma mapM_Forall2 {A B} (g : A → res B) (P : A → B → Prop) (l : list A) :
  Forall (λ x, ∃ y, g x = Ok y ∧ P x y) l →
  ∃ ys, mapM g l = Ok ys ∧ Forall2 P l ys.
Proof.
  induction 1 as [|x l (y & Hy & HP) _ (ys & IH & Hall)].
  - by exists [].
  - exists (y :: ys). simpl. rewrite Hy. simpl. rewrite IH.
    split; [done|]. by constructor.
Qed.

Lemma mapM_raises {A B} (g : A → res B) (e : exn) (l : list A) :
  Forall (λ x, is_ok (g x) ∨ g x = Raise e) l →
  Exists (λ x, g x = Raise e) l →
  mapM g l = Raise e.
Proof.
  induction 1 as [|x l Hx _ IH]; intros Hex.
  - by apply Exists_nil in Hex.
  - simpl. destruct Hx as [[y Hy] | Hx]; [|by rewrite Hx].
    rewrite Hy. simpl. apply Exists_cons in Hex as [Hex|Hex]; [congruence|].
    by rewrite (IH Hex).
Qed.

(** A duplicate-free list drawn from [k] that is as long as [k] is a
    rearrangement of [k]. *)
Lemma NoDup_subset_Permutation {A} (l k : list A) :
  NoDup l → (∀ x, x ∈ l → x ∈ k) → length k ≤ length l → l ≡ₚ k.
Proof.
  intros Hl Hsub Hlen. apply submseteq_length_Permutation; [|done].
  by apply NoDup_submseteq.
Qed.

Section selecting_extractors.
Context {Part V TrainingData : Type}.
Local Abbreviation extractor := (FeatureExtractor.t Part V TrainingData).
Variable inherited_extract_all :
  (Part → string) → list Part → list (list (string * V)).

Local Abbreviation resolve := (FeaturizedModel.resolve inherited_extract_all).
Local Abbreviation init := (FeaturizedModel.init inherited_extract_all).
Local Abbreviation components name :=
  (split ConjoinedFeatureExtractor.SEPARATOR_char name).

Lemma resolve_simple_name (fes : list extractor) (feature_name : string) :
  ConjoinedFeatureExtractor.SEPARATOR_char ∉ String.list_ascii_of_string feature_name →
  ((∃ e, e ∈ fes ∧ FeatureExtractor.name e = feature_name) →
     ∃ e, resolve fes feature_name = Ok e ∧ first_named fes feature_name e)
  ∧ ((∀ e, e ∈ fes → FeatureExtractor.name e ≠ feature_name) →
     resolve fes feature_name = Raise UnrecognizedFlag).
Proof.
  intros Hsep. unfold FeaturizedModel.resolve.
  rewrite (split_without_separator _ _ Hsep).
  rewrite decide_False by (simpl; lia).
  destruct (list_find _ fes) as [[i e]|] eqn:Hfind.
  - apply list_find_Some in Hfind as (Hi & Hname & Hfirst). split.
    + intros _. exists e. split; [done|]. by exists i.
    + intros Hnone. destruct (Hnone e); [|done].
      by eapply list_elem_of_lookup_2.
  - apply list_find_None in Hfind. split; [|done].
    intros (e & He & Hname).
    by destruct (proj1 (Forall_forall _ _) Hfind e He).
Qed.

(** X8. When no selected feature name contains the separator [':'],
    [FeaturizedModel.__init__] succeeds if every name is the name of one of
    the feature extractors, and then configures, for each selected name in
    order, the first extractor of that name, with an empty dictionary; it
    raises [UnrecognizedFlag] if some name is no extractor's name. *)
Theorem init_selects_first_extractor_of_each_name
    (part_type : Part → bool) (feature_extractors : list extractor)
    (selected_features : list string) (save_featurized : bool) :
  Forall (λ name, ConjoinedFeatureExtractor.SEPARATOR_char
                    ∉ String.list_ascii_of_string name) selected_features →
  (Forall (λ name, ∃ e, e ∈ feature_extractors
                        ∧ FeatureExtractor.name e = name)
          selected_features →
   ∃ self,
     init part_type feature_extractors selected_features save_featurized
     = Ok self
     ∧ FeaturizedModel.feature_name_dictionary self = NameDictionary.empty
     ∧ Forall2 (first_named feature_extractors) selected_features
               (FeaturizedModel.feature_extractors self))
  ∧ (Exists (λ name, ∀ e, e ∈ feature_extractors →
                       FeatureExtractor.name e ≠ name)
            selected_features →
     init part_type feature_extractors selected_features save_featurized
     = Raise UnrecognizedFlag).
Proof.
  intros Hsimple. unfold FeaturizedModel.init. rewrite foldM_snoc_mapM.
  split.
  - intros Hknown.
    destruct (mapM_Forall2 (resolve feature_extractors)
                (first_named feature_extractors) selected_features)
      as (es & -> & Hall).
    { apply Forall_forall. intros name Hname.
      apply (resolve_simple_name feature_extractors name).
      - by apply (proj1 (Forall_forall _ _) Hsimple).
      - by apply (proj1 (Forall_forall _ _) Hknown). }
    simpl. by eexists.
  - intros Hunknown.
    rewrite (mapM_raises _ UnrecognizedFlag); [done| |].
    + apply Forall_forall. intros name Hname.
      pose proof (proj1 (Forall_forall _ _) Hsimple name Hname) as Hsep.
      unfold FeaturizedModel.resolve.
      rewrite (split_without_separator _ _ Hsep).
      rewrite decide_False by (simpl; lia).
      destruct (list_find _ _) as [[i e]|]; [left; by eexists|by right].
    + apply Exists_exists in Hunknown as (name & Hin & Hname).
      apply Exists_exists. exists name. split; [done|].
      apply resolve_simple_name; [|done].
      by apply (proj1 (Forall_forall _ _) Hsimple).
Qed.

Lemma conjoined_init_categorical (name : string) (es : list extractor) :
  Forall (λ e, FeatureExtractor.feature_type e = Categorical) es →
  ConjoinedFeatureExtractor.init name es
  = Ok (ConjoinedFeatureExtractor.Make name Categorical es).
Proof.
  intros Hall. unfold ConjoinedFeatureExtractor.init.
  assert (foldM (λ (_ : unit) (e : extractor),
                   if decide (FeatureExtractor.feature_type e ≠ Categorical)
                   then Raise FeatureExtractionError else Ok tt) tt es
          = Ok tt) as ->; [|done].
  induction Hall as [|e es He _ IH]; [done|].
  simpl. by rewrite decide_False by (by intros []).
Qed.

Lemma conjoined_init_not_categorical (name : string) (es : list extractor) :
  Exists (λ e, FeatureExtractor.feature_type e ≠ Categorical) es →
  ConjoinedFeatureExtractor.init name es = Raise FeatureExtractionError.
Proof.
  intros Hex. unfold ConjoinedFeatureExtractor.init.
  assert (foldM (λ (_ : unit) (e : extractor),
                   if decide (FeatureExtractor.feature_type e ≠ Categorical)
                   then Raise FeatureExtractionError else Ok tt) tt es
          = Raise FeatureExtractionError) as ->; [|done].
  induction es as [|e es IH]; [by apply Exists_nil in Hex|].
  simpl. case_decide as He; [done|]. simpl.
  apply Exists_cons in Hex as [Hex|Hex]; [done|]. by apply IH.
Qed.

(** The extractors [__init__] collects for a conjoined name. *)
Local Abbreviation named_by fes name :=
  (filter (λ e, FeatureExtractor.name e ∈ components name) fes).

Lemma named_by_names (fes : list extractor) (feature_name : string) :
  NoDup (map FeatureExtractor.name fes) →
  NoDup (map FeatureExtractor.name (named_by fes feature_name))
  ∧ ∀ c, c ∈ map FeatureExtractor.name (named_by fes feature_name)
         ↔ c ∈ components feature_name
           ∧ ∃ e, e ∈ fes ∧ FeatureExtractor.name e = c.
Proof.
  intros Hnames. split.
  - apply (sublist_NoDup _ (map FeatureExtractor.name fes)); [done|].
    apply (fmap_sublist FeatureExtractor.name), sublist_filter.
  - intros c. rewrite list_elem_of_fmap. split.
    + intros (e & -> & [Hc He]%list_elem_of_filter). split; [done|].
      by exists e.
    + intros (Hc & e & He & <-). exists e. split; [done|].
      by apply list_elem_of_filter.
Qed.

(** X9. With feature extractors of distinct names, [__init__] raises
    [UnrecognizedFlag] for a conjoined feature name (one with the separator
    [':']) that repeats a component, as ["a:a"] does, or that has a
    component which is no extractor's name. *)
Theorem init_rejects_conjoined_name
    (part_type : Part → bool) (feature_extractors : list extractor)
    (feature_name : string) (save_featurized : bool) :
  NoDup (map FeatureExtractor.name feature_extractors) →
  ConjoinedFeatureExtractor.SEPARATOR_char
    ∈ String.list_ascii_of_string feature_name →
  ¬ NoDup (components feature_name)
  ∨ (∃ c, c ∈ components feature_name
          ∧ ∀ e, e ∈ feature_extractors → FeatureExtractor.name e ≠ c) →
  init part_type feature_extractors [feature_name] save_featurized
  = Raise UnrecognizedFlag.
Proof.
  intros Hnames Hsep%split_with_separator Hbad.
  unfold FeaturizedModel.init. cbn [foldM].
  unfold FeaturizedModel.resolve.
  rewrite decide_True by done.
  destruct (named_by_names feature_extractors feature_name Hnames)
    as [Hnodup Hin].
  rewrite decide_True; [done|]. intros Hlen.
  assert (Hperm : map FeatureExtractor.name
                    (named_by feature_extractors feature_name)
                  ≡ₚ components feature_name).
  { apply NoDup_subset_Permutation; [done| |].
    - intros c Hc. by apply Hin in Hc as [Hc _].
    - rewrite length_map. lia. }
  destruct Hbad as [Hdup | (c & Hc & Hunknown)].
  - apply Hdup. by rewrite <- Hperm.
  - rewrite <- Hperm in Hc. apply Hin in Hc as (_ & e & He & Hname).
    by apply (Hunknown e).
Qed.

Lemma resolve_conjoined_name (fes : list extractor) (feature_name : string) :
  NoDup (map FeatureExtractor.name fes) →
  1 < length (components feature_name) →
  NoDup (components feature_name) →
  Forall (λ c, ∃ e, e ∈ fes ∧ FeatureExtractor.name e = c)
         (components feature_name) →
  resolve fes feature_name
  = (conjoined ← ConjoinedFeatureExtractor.init feature_name
                    (named_by fes feature_name);
     Ok (ConjoinedFeatureExtractor.as_extractor inherited_extract_all
           conjoined))
  ∧ map FeatureExtractor.name (named_by fes feature_name)
    ≡ₚ components feature_name.
Proof.
  intros Hnames Hlong Hcomps Hknown.
  destruct (named_by_names fes feature_name Hnames) as [Hnodup Hin].
  assert (Hperm : map FeatureExtractor.name (named_by fes feature_name)
                  ≡ₚ components feature_name).
  { apply NoDup_Permutation; [done..|]. intros c. rewrite Hin.
    split; [by intros [? _]|]. intros Hc. split; [done|].
    by apply (proj1 (Forall_forall _ _) Hknown). }
  split; [|done]. unfold FeaturizedModel.resolve.
  rewrite decide_True by done. rewrite decide_False; [done|].
  apply Permutation_length in Hperm. rewrite length_map in Hperm. lia.
Qed.

(** X10. With feature extractors of distinct names, a conjoined feature
    name whose components are distinct names of categorical extractors
    makes [__init__] configure one [ConjoinedFeatureExtractor] of the
    selected name over exactly the named extractors, in the order of
    [feature_extractors] (not of the name). *)
Theorem init_conjoins_in_extractor_order
    (part_type : Part → bool) (feature_extractors : list extractor)
    (feature_name : string) (save_featurized : bool) :
  NoDup (map FeatureExtractor.name feature_extractors) →
  ConjoinedFeatureExtractor.SEPARATOR_char
    ∈ String.list_ascii_of_string feature_name →
  NoDup (components feature_name) →
  Forall (λ c, ∃ e, e ∈ feature_extractors
                    ∧ FeatureExtractor.name e = c
                    ∧ FeatureExtractor.feature_type e = Categorical)
         (components feature_name) →
  ∃ es,
    init part_type feature_extractors [feature_name] save_featurized
    = Ok (FeaturizedModel.Make part_type NameDictionary.empty
            [ConjoinedFeatureExtractor.as_extractor inherited_extract_all
               (ConjoinedFeatureExtractor.Make feature_name Categorical es)]
            None save_featurized)
    ∧ sublist es feature_extractors
    ∧ map FeatureExtractor.name es ≡ₚ components feature_name.
Proof.
  intros Hnames Hsep%split_with_separator Hcomps Hknown.
  destruct (resolve_conjoined_name feature_extractors feature_name)
    as [Hresolve Hperm]; [done..| |].
  { eapply Forall_impl; [exact Hknown|]. intros c (e & ? & ? & _).
    by exists e. }
  exists (named_by feature_extractors feature_name).
  split_and!; [|apply sublist_filter|done].
  unfold FeaturizedModel.init. cbn [foldM]. rewrite Hresolve.
  rewrite conjoined_init_categorical; [done|].
  apply Forall_forall. intros e [Hc He]%list_elem_of_filter.
  destruct (proj1 (Forall_forall _ _) Hknown _ Hc) as (e' & He' & Hname & Hcat).
  assert (e = e') as ->; [|done].
  apply list_elem_of_lookup in He as [i Hi], He' as [j Hj].
  assert (i = j) as ->; [|congruence].
  eapply NoDup_lookup; [exact Hnames|by rewrite list_lookup_fmap, Hi
                       |by rewrite list_lookup_fmap, Hj; simpl; f_equal].
Qed.

(** X11. A conjoined feature name over an extractor that is not
    categorical is refused with [FeatureExtractionError] (raised by
    [ConjoinedFeatureExtractor.__init__]), when the names match
    extractors. *)
Theorem init_refuses_to_conjoin_numerical
    (part_type : Part → bool) (feature_extractors : list extractor)
    (feature_name : string) (save_featurized : bool) :
  NoDup (map FeatureExtractor.name feature_extractors) →
  ConjoinedFeatureExtractor.SEPARATOR_char
    ∈ String.list_ascii_of_string feature_name →
  NoDup (components feature_name) →
  Forall (λ c, ∃ e, e ∈ feature_extractors ∧ FeatureExtractor.name e = c)
         (components feature_name) →
  (∃ e, e ∈ feature_extractors
        ∧ FeatureExtractor.name e ∈ components feature_name
        ∧ FeatureExtractor.feature_type e ≠ Categorical) →
  init part_type feature_extractors [feature_name] save_featurized
  = Raise FeatureExtractionError.
Proof.
  intros Hnames Hsep%split_with_separator Hcomps Hknown (e & He & Hc & Hnum).
  destruct (resolve_conjoined_name feature_extractors feature_name)
    as [Hresolve _]; [done..|].
  unfold FeaturizedModel.init. cbn [foldM]. rewrite Hresolve.
  rewrite conjoined_init_not_categorical; [done|].
  apply Exists_exists. exists e. split; [|done].
  by apply list_elem_of_filter.
Qed.

(** X12. The order of the components in a conjoined feature name does not
    matter: two names with the same components in another order select
    extractors with the same subfeature names and the same extracted
    values; only the name differs. *)
Theorem conjoined_name_component_order_irrelevant
    (feature_extractors : list extractor) (name1 name2 : string)
    (e1 : extractor) :
  components name1 ≡ₚ components name2 →
  1 < length (components name1) →
  resolve feature_extractors name1 = Ok e1 →
  ∃ e2, resolve feature_extractors name2 = Ok e2
        ∧ FeatureExtractor.name e2 = name2
        ∧ FeatureExtractor.extract_subfeature_names e2
          = FeatureExtractor.extract_subfeature_names e1
        ∧ FeatureExtractor.extract e2 = FeatureExtractor.extract e1
        ∧ FeatureExtractor.extract_all e2 = FeatureExtractor.extract_all e1.
Proof.
  intros Hperm Hlong. unfold FeaturizedModel.resolve.
  rewrite decide_True by done.
  rewrite (decide_True (P:=1 < length (components name2)))
    by (by rewrite <- (Permutation_length Hperm)).
  rewrite <- (list_filter_iff
                (λ e, FeatureExtractor.name e ∈ components name1)
                (λ e, FeatureExtractor.name e ∈ components name2))
    by (intros e; by rewrite Hperm).
  rewrite <- (Permutation_length Hperm).
  case_decide; [done|]. unfold ConjoinedFeatureExtractor.init.
  destruct (foldM _ tt _); [|done]. cbn [rbind].
  intros [= <-]. eexists. split; [reflexivity|]. done.
Qed.

Lemma Forall2_map_r {A B C} (f : A → B) (P : C → B → Prop)
    (k : list C) (l : list A) :
  Forall2 P k (map f l) ↔ Forall2 (λ c a, P c (f a)) k l.
Proof. exact (Forall2_fmap_r f P k l). Qed.

Lemma length_product {A} (ls : list (list A)) :
  length (product ls) = foldr Nat.mul 1 (map length ls).
Proof.
  induction ls as [|l ls IH]; [done|]. cbn [product map foldr].
  rewrite <- IH. clear IH. induction l as [|x l IH]; [done|].
  cbn [flat_map]. rewrite length_app, length_map, IH. simpl. lia.
Qed.

Lemma elem_of_product {A} (ls : list (list A)) (choice : list A) :
  choice ∈ product ls ↔ Forall2 (λ c l, c ∈ l) choice ls.
Proof.
  revert choice. induction ls as [|l ls IH]; intros choice; cbn [product].
  - rewrite list_elem_of_singleton. split; [by intros ->|].
    by intros ->%Forall2_nil_inv_r.
  - rewrite list_elem_of_In, in_flat_map. split.
    + intros (x & Hx%list_elem_of_In & Hc%in_map_iff).
      destruct Hc as (rest & <- & Hrest%list_elem_of_In).
      constructor; [done|]. by apply IH.
    + intros Hall. apply Forall2_cons_inv_r in Hall
        as (x & rest & Hx & Hrest & ->).
      exists x. split; [by apply list_elem_of_In|].
      apply in_map_iff. exists rest. split; [done|].
      by apply list_elem_of_In, IH.
Qed.

(** X13. The subfeature names of a [ConjoinedFeatureExtractor] over any
    number of extractors are the joins, with [':'], of one subfeature name
    of each component in order; there are as many as the product of the
    components' counts. *)
Theorem conjoined_subfeature_names_are_product
    (self : ConjoinedFeatureExtractor.t (Part:=Part) (V:=V)
              (TrainingData:=TrainingData))
    (parts : list Part) :
  length (ConjoinedFeatureExtractor.extract_subfeature_names self parts)
  = foldr Nat.mul 1
      (map (λ e, length (FeatureExtractor.extract_subfeature_names e parts))
           (ConjoinedFeatureExtractor._extractors self))
  ∧ ∀ name,
      name ∈ ConjoinedFeatureExtractor.extract_subfeature_names self parts
      ↔ ∃ choice,
          Forall2 (λ c e, c ∈ FeatureExtractor.extract_subfeature_names
                                e parts)
                  choice (ConjoinedFeatureExtractor._extractors self)
          ∧ name = join ConjoinedFeatureExtractor.SEPARATOR choice.
Proof.
  unfold ConjoinedFeatureExtractor.extract_subfeature_names. split.
  - rewrite length_map, length_product, map_map. done.
  - intros name. rewrite list_elem_of_fmap. split.
    + intros (choice & -> & Hc%elem_of_product). exists choice.
      split; [|done].
      exact (proj1 (Forall2_map_r
                      (λ e : extractor,
                         FeatureExtractor.extract_subfeature_names e parts)
                      (λ c l, c ∈ l) choice _) Hc).
    + intros (choice & Hc & ->). exists choice. split; [done|].
      apply elem_of_product.
      exact (proj2 (Forall2_map_r
                      (λ e : extractor,
                         FeatureExtractor.extract_subfeature_names e parts)
                      (λ c l, c ∈ l) choice _) Hc).
Qed.

(** X14. If each component extractor gives, for a part, a value that is
    among its subfeature names over the parts, so does the conjoined
    extractor: what [extract] returns is one of the names
    [extract_subfeature_names] lists. *)
Theorem conjoined_extract_is_subfeature_name
    (self : ConjoinedFeatureExtractor.t (Part:=Part) (V:=V)
              (TrainingData:=TrainingData))
    (parts : list Part) (part : Part) :
  Forall (λ e, FeatureExtractor.extract e part
               ∈ FeatureExtractor.extract_subfeature_names e parts)
         (ConjoinedFeatureExtractor._extractors self) →
  ConjoinedFeatureExtractor.extract self part
  ∈ ConjoinedFeatureExtractor.extract_subfeature_names self parts.
Proof.
  intros Hall. unfold ConjoinedFeatureExtractor.extract,
    ConjoinedFeatureExtractor.extract_subfeature_names.
  apply list_elem_of_fmap. eexists. split; [done|].
  apply elem_of_product.
  induction Hall; cbn [map]; by constructor.
Qed.

End selecting_extractors.

Lemma example_names_simple :
  Forall (λ name, ConjoinedFeatureExtractor.SEPARATOR_char
                    ∉ String.list_ascii_of_string name)
         ["add1"; "identity"]%string.
Proof. apply (bool_decide_unpack _). vm_compute. exact I. Qed.

Lemma example_extractor_names_distinct :
  NoDup (map FeatureExtractor.name
             [identity_extractor; add1_extractor; size_extractor]).
Proof. apply (bool_decide_unpack _). vm_compute. exact I. Qed.

Lemma init_selects_first_extractor_of_each_name_witness :
  Forall (λ name, ConjoinedFeatureExtractor.SEPARATOR_char
                    ∉ String.list_ascii_of_string name)
         ["add1"; "identity"]%string
  ∧ (Forall (λ name, ∃ e, e ∈ [identity_extractor; add1_extractor;
                               size_extractor]
                          ∧ FeatureExtractor.name e = name)
            ["add1"; "identity"]%string →
     ∃ self,
       FeaturizedModel.init indicator_extract_all (λ _, true)
         [identity_extractor; add1_extractor; size_extractor]
         ["add1"; "identity"]%string false
       = Ok self
       ∧ FeaturizedModel.feature_name_dictionary self = NameDictionary.empty
       ∧ Forall2 (first_named [identity_extractor; add1_extractor;
                               size_extractor])
                 ["add1"; "identity"]%string
                 (FeaturizedModel.feature_extractors self))
  ∧ (Exists (λ name, ∀ e, e ∈ [identity_extractor; add1_extractor;
                               size_extractor] →
                       FeatureExtractor.name e ≠ name)
            ["add1"; "identity"]%string →
     FeaturizedModel.init indicator_extract_all (λ _, true)
       [identity_extractor; add1_extractor; size_extractor]
       ["add1"; "identity"]%string false
     = Raise UnrecognizedFlag).
Proof.
  split; [exact example_names_simple|].
  exact (init_selects_first_extractor_of_each_name indicator_extract_all
           (λ _, true) [identity_extractor; add1_extractor; size_extractor]
           ["add1"; "identity"]%string false example_names_simple).
Defined.

Lemma init_rejects_conjoined_name_witness :
  ¬ NoDup (split ConjoinedFeatureExtractor.SEPARATOR_char "add1:add1")
  ∧ FeaturizedModel.init indicator_extract_all (λ _, true)
      [identity_extractor; add1_extractor; size_extractor]
      ["add1:add1"%string] false
    = Raise UnrecognizedFlag.
Proof.
  assert (Hdup : ¬ NoDup (split ConjoinedFeatureExtractor.SEPARATOR_char
                            "add1:add1")).
  { apply (bool_decide_unpack _). vm_compute. exact I. }
  split; [exact Hdup|].
  exact (init_rejects_conjoined_name indicator_extract_all (λ _, true)
           [identity_extractor; add1_extractor; size_extractor]
           "add1:add1" false example_extractor_names_distinct
           ltac:(apply (bool_decide_unpack _); vm_compute; exact I)
           (or_introl Hdup)).
Defined.

Lemma example_components_categorical :
  Forall (λ c, ∃ e, e ∈ [identity_extractor; add1_extractor; size_extractor]
                    ∧ FeatureExtractor.name e = c
                    ∧ FeatureExtractor.feature_type e = Categorical)
         (split ConjoinedFeatureExtractor.SEPARATOR_char "add1:identity").
Proof.
  repeat constructor.
  - exists add1_extractor. split_and!; [|done..]. set_solver.
  - exists identity_extractor. split_and!; [|done..]. set_solver.
Qed.

Lemma init_conjoins_in_extractor_order_witness :
  NoDup (split ConjoinedFeatureExtractor.SEPARATOR_char "add1:identity")
  ∧ ∃ es,
      FeaturizedModel.init indicator_extract_all (λ _, true)
        [identity_extractor; add1_extractor; size_extractor]
        ["add1:identity"%string] false
      = Ok (FeaturizedModel.Make (λ _, true) NameDictionary.empty
              [ConjoinedFeatureExtractor.as_extractor indicator_extract_all
                 (ConjoinedFeatureExtractor.Make "add1:identity" Categorical
                    es)]
              None false)
      ∧ sublist es [identity_extractor; add1_extractor; size_extractor]
      ∧ map FeatureExtractor.name es
        ≡ₚ split ConjoinedFeatureExtractor.SEPARATOR_char "add1:identity".
Proof.
  assert (Hcomps : NoDup (split ConjoinedFeatureExtractor.SEPARATOR_char
                            "add1:identity")).
  { apply (bool_decide_unpack _). vm_compute. exact I. }
  split; [exact Hcomps|].
  exact (init_conjoins_in_extractor_order indicator_extract_all (λ _, true)
           [identity_extractor; add1_extractor; size_extractor]
           "add1:identity" false example_extractor_names_distinct
           ltac:(apply (bool_decide_unpack _); vm_compute; exact I)
           Hcomps example_components_categorical).
Defined.

Lemma example_components_known :
  Forall (λ c, ∃ e, e ∈ [identity_extractor; add1_extractor; size_extractor]
                    ∧ FeatureExtractor.name e = c)
         (split ConjoinedFeatureExtractor.SEPARATOR_char "identity:size").
Proof.
  repeat constructor.
  - exists identity_extractor. split; [set_solver|done].
  - exists size_extractor. split; [set_solver|done].
Qed.

Lemma size_extractor_listed :
  size_extractor ∈ [identity_extractor; add1_extractor; size_extractor].
Proof. set_solver. Qed.

Lemma init_refuses_to_conjoin_numerical_witness :
  NoDup (split ConjoinedFeatureExtractor.SEPARATOR_char "identity:size")
  ∧ FeaturizedModel.init indicator_extract_all (λ _, true)
      [identity_extractor; add1_extractor; size_extractor]
      ["identity:size"%string] false
    = Raise FeatureExtractionError.
Proof.
  assert (Hcomps : NoDup (split ConjoinedFeatureExtractor.SEPARATOR_char
                            "identity:size")).
  { apply (bool_decide_unpack _). vm_compute. exact I. }
  split; [exact Hcomps|].
  refine (init_refuses_to_conjoin_numerical indicator_extract_all (λ _, true)
            [identity_extractor; add1_extractor; size_extractor]
            "identity:size" false example_extractor_names_distinct
            ltac:(apply (bool_decide_unpack _); vm_compute; exact I)
            Hcomps example_components_known _).
  exists size_extractor. split_and!.
  - exact size_extractor_listed.
  - apply (bool_decide_unpack _). vm_compute. exact I.
  - discriminate.
Defined.

Lemma conjoined_name_component_order_irrelevant_witness :
  split ConjoinedFeatureExtractor.SEPARATOR_char "identity:add1"
  ≡ₚ split ConjoinedFeatureExtractor.SEPARATOR_char "add1:identity"
  ∧ ∃ e2,
      FeaturizedModel.resolve indicator_extract_all
        [identity_extractor; add1_extractor; size_extractor] "add1:identity"
      = Ok e2
      ∧ FeatureExtractor.name e2 = "add1:identity"%string
      ∧ FeatureExtractor.extract_subfeature_names e2
        = FeatureExtractor.extract_subfeature_names
            (ConjoinedFeatureExtractor.as_extractor indicator_extract_all
               (ConjoinedFeatureExtractor.Make "identity:add1" Categorical
                  [identity_extractor; add1_extractor]))
      ∧ FeatureExtractor.extract e2
        = FeatureExtractor.extract
            (ConjoinedFeatureExtractor.as_extractor indicator_extract_all
               (ConjoinedFeatureExtractor.Make "identity:add1" Categorical
                  [identity_extractor; add1_extractor]))
      ∧ FeatureExtractor.extract_all e2
        = FeatureExtractor.extract_all
            (ConjoinedFeatureExtractor.as_extractor indicator_extract_all
               (ConjoinedFeatureExtractor.Make "identity:add1" Categorical
                  [identity_extractor; add1_extractor])).
Proof.
  assert (Hperm :
    split ConjoinedFeatureExtractor.SEPARATOR_char "identity:add1"
    ≡ₚ split ConjoinedFeatureExtractor.SEPARATOR_char "add1:identity").
  { vm_compute. apply perm_swap. }
  split; [exact Hperm|].
  exact (conjoined_name_component_order_irrelevant indicator_extract_all
           [identity_extractor; add1_extractor; size_extractor]
           "identity:add1" "add1:identity"
           (ConjoinedFeatureExtractor.as_extractor indicator_extract_all
              (ConjoinedFeatureExtractor.Make "identity:add1" Categorical
                 [identity_extractor; add1_extractor]))
           Hperm ltac:(vm_compute; lia) eq_refl).
Defined.

Lemma conjoined_extract_is_subfeature_name_witness :
  ConjoinedFeatureExtractor.extract
    (ConjoinedFeatureExtractor.Make "identity:add1" Categorical
       [identity_extractor; add1_extractor]) 2%Z
  ∈ ConjoinedFeatureExtractor.extract_subfeature_names
      (ConjoinedFeatureExtractor.Make "identity:add1" Categorical
         [identity_extractor; add1_extractor]) [1; 2]%Z.
Proof.
  apply (conjoined_extract_is_subfeature_name
           (ConjoinedFeatureExtractor.Make "identity:add1" Categorical
              [identity_extractor; add1_extractor]) [1; 2]%Z 2%Z).
  apply (bool_decide_unpack _). vm_compute. exact I.
Defined.

(** * Featurization ([ClassifierModel._featurize]) *)

(** A loop whose body keeps an invariant or raises [e]: it returns if no
    element is [bad], and raises [e] if one is. *)
Lemma foldM_invariant_or_raise {A S} (f : S → A → res S) (Inv : S → Prop)
    (bad : A → Prop) (e : exn) (l : list A) (s : S) :
  (∀ s x, x ∈ l → Inv s →
     ((∃ s', f s x = Ok s' ∧ Inv s') ∧ ¬ bad x)
     ∨ (f s x = Raise e ∧ bad x)) →
  Inv s →
  ((∃ s', foldM f s l = Ok s' ∧ Inv s') ∧ ∀ x, x ∈ l → ¬ bad x)
  ∨ (foldM f s l = Raise e ∧ ∃ x, x ∈ l ∧ bad x).
Proof.
  revert s. induction l as [|x l IH]; intros s Hstep Hinv.
  - left. split; [by exists s|]. by intros x ?%elem_of_nil.
  - cbn [foldM].
    destruct (Hstep s x ltac:(left) Hinv) as [[(s' & -> & Hinv') Hgood]
                                             | [-> Hbad]].
    + cbn [rbind].
      destruct (IH s') as [[Hok Hall] | [Hraise (y & Hy & Hbad)]];
        [intros; apply Hstep; [by right|done]|done| |].
      * left. split; [done|].
        intros y [->|Hy]%elem_of_cons; [done|by apply Hall].
      * right. split; [done|]. exists y. split; [by right|done].
    + right. split; [done|]. exists x. split; [left|done].
Qed.

Lemma elem_of_imap_pair {A} (l : list A) (i : nat) (x : A) :
  (i, x) ∈ imap pair l ↔ l !! i = Some x.
Proof.
  rewrite list_elem_of_lookup. split.
  - intros [k Hk]. rewrite list_lookup_imap in Hk.
    destruct (l !! k) eqn:Hl; simpl in Hk; [|done]. by injection Hk as -> ->.
  - intros Hi. exists i. by rewrite list_lookup_imap, Hi.
Qed.

(** A loop whose steps keep what is established for any key and establish
    it for the keys they cover: after the loop it holds for every key some
    element covers. *)
Lemma foldM_establishes {A S K} (f : S → A → res S) (Q : K → S → Prop)
    (covers : A → K → Prop) (l : list A) (s s' : S) :
  (∀ s x s', x ∈ l → f s x = Ok s' →
     (∀ k, Q k s → Q k s') ∧ (∀ k, covers x k → Q k s')) →
  foldM f s l = Ok s' →
  (∀ k, Q k s → Q k s') ∧ (∀ x k, x ∈ l → covers x k → Q k s').
Proof.
  revert s. induction l as [|x l IH]; intros s Hstep; cbn [foldM].
  - intros [= <-]. split; [done|]. by intros x k ?%elem_of_nil.
  - destruct (f s x) as [s1|] eqn:Hx; cbn [rbind]; [|done]. intros Hrest.
    destruct (Hstep s x s1 ltac:(left) Hx) as [Hkeep Hnew].
    destruct (IH s1) as [Hkeep' Hnew'];
      [intros; apply Hstep; [by right|done]|done|].
    split; [auto|].
    intros y k [->|Hy]%elem_of_cons Hc; [auto|eauto].
Qed.

Section featurize_facts.
Context {Part V TrainingData F : Type}.
Variables (label : Part → Z) (is_zero : V → bool).
Variables (to_float32 : V → F) (float32_is_zero : F → bool).
Variables (self : FeaturizedModel.t Part V TrainingData) (parts : list Part).

Local Abbreviation dictionary := (FeaturizedModel.feature_name_dictionary self).
Local Abbreviation relevant_parts :=
  (filter (λ part, FeaturizedModel.part_type self part = true) parts).
Local Abbreviation writes := (writes_cell is_zero self parts).
Local Abbreviation Inv :=
  (featurizing is_zero to_float32 float32_is_zero self parts).
Local Abbreviation bad := (misplaced is_zero self parts).
Local Abbreviation Done :=
  (written is_zero to_float32 float32_is_zero self parts).
Local Abbreviation featurize_cell :=
  (ClassifierModel.featurize_cell is_zero to_float32 float32_is_zero self).
Local Abbreviation _featurize :=
  (ClassifierModel._featurize label is_zero to_float32 float32_is_zero self
     parts).
(** The item reaches the assignment, for the cell of the key. *)
Local Abbreviation hits i item key :=
  (key = (i, item.1) ∧ is_zero item.2 = false
   ∧ is_Some (NameDictionary.names_to_ids dictionary !! item.1)).

Hypothesis Hdictionary : bidirectional dictionary.

Lemma featurize_cell_step (e : FeatureExtractor.t Part V TrainingData)
    (mapping : list (string * V)) (i : nat) (item : string * V)
    (st : lil_matrix F * list string) :
  e ∈ FeaturizedModel.feature_extractors self →
  FeatureExtractor.extract_all e parts !! i = Some mapping →
  item ∈ mapping → Inv st →
  ((∃ st', featurize_cell i st item = Ok st' ∧ Inv st') ∧ ¬ bad i item)
  ∨ (featurize_cell i st item = Raise IndexError ∧ bad i item).
Proof.
  intros He Hmapping Hitem [Hshape Hcells].
  destruct st as [features log], item as [name v].
  cbn [fst snd] in *. unfold ClassifierModel.featurize_cell.
  destruct (is_zero v) eqn:Hzero.
  { left. split; [by eexists|].
    intros [(_ & _ & _ & _ & _ & Hnz & _) _]. simpl in Hnz. congruence. }
  unfold NameDictionary.getitem.
  destruct (NameDictionary.names_to_ids dictionary !! name) as [j|] eqn:Hname.
  2:{ left. cbn. split; [by eexists|].
      intros [(_ & _ & _ & _ & _ & _ & Hknown) _]. simpl in Hknown.
      rewrite Hname in Hknown. by destruct Hknown. }
  assert (Hwrites : writes i name v).
  { exists e, mapping. split_and!; try done; by rewrite Hname. }
  assert (Hj : j < NameDictionary.len dictionary).
  { apply Hdictionary in Hname. by eapply lookup_lt_Some. }
  cbn [rbind]. unfold lil_set. rewrite Hshape. cbn [fst snd].
  case_decide as Hin.
  - left. cbn. split.
    + eexists. split; [done|]. split; [done|]. cbn [fst lil_cells].
      intros i' j' x' Hcell.
      destruct (float32_is_zero (to_float32 v)) eqn:Hcast.
      * apply lookup_delete_Some in Hcell as [_ Hcell]. by apply Hcells.
      * destruct (decide ((i', j') = (i, j))) as [[= -> ->]|Hne].
        -- rewrite lookup_insert_eq in Hcell. injection Hcell as <-.
           split; [lia|]. split; [done|]. by exists name, v.
        -- rewrite lookup_insert_ne in Hcell by done. by apply Hcells.
    + intros [_ Hrow]. lia.
  - right. cbn. split; [done|]. split; [done|]. simpl. lia.
Qed.

(** An assignment leaves the other cells as they were, and its own cell
    with the [float32] of the value. *)
Lemma featurize_cell_written (e : FeatureExtractor.t Part V TrainingData)
    (mapping : list (string * V)) (i : nat) (item : string * V)
    (st st' : lil_matrix F * list string) :
  e ∈ FeaturizedModel.feature_extractors self →
  FeatureExtractor.extract_all e parts !! i = Some mapping →
  item ∈ mapping →
  featurize_cell i st item = Ok st' →
  (∀ key, Done key st → Done key st')
  ∧ (∀ key, hits i item key → Done key st').
Proof.
  intros He Hmapping Hitem.
  destruct st as [features log], item as [name v].
  unfold ClassifierModel.featurize_cell. cbn [fst snd].
  destruct (is_zero v) eqn:Hzero.
  { intros [= <-]. split; [done|]. intros key (_ & Hnz & _). congruence. }
  unfold NameDictionary.getitem.
  destruct (NameDictionary.names_to_ids dictionary !! name) as [j|] eqn:Hname.
  2:{ cbn. intros [= <-]. split; [done|].
      intros key (_ & _ & Hknown). by destruct Hknown. }
  assert (Hwrites : writes i name v).
  { exists e, mapping. split_and!; try done; by rewrite Hname. }
  cbn [rbind]. unfold lil_set. case_decide as Hin; [|done].
  cbn. intros [= <-].
  assert (Hcell :
    (if float32_is_zero (to_float32 v)
     then delete (i, j) (lil_cells features)
     else <[(i, j) := to_float32 v]> (lil_cells features)) !! (i, j)
    = cell_after to_float32 float32_is_zero v).
  { unfold cell_after. cbn zeta. destruct (float32_is_zero (to_float32 v)).
    - apply lookup_delete_eq.
    - apply lookup_insert_eq. }
  split.
  - intros [i0 name0] (v0 & j0 & Hw0 & Hname0 & Hcell0).
    cbn [fst snd lil_cells] in *.
    destruct (decide ((i0, j0) = (i, j))) as [[= -> ->]|Hne].
    + assert (name0 = name) as ->.
      { apply Hdictionary in Hname0. apply Hdictionary in Hname. congruence. }
      exists v, j. split_and!; done.
    + exists v0, j0. split_and!; [done..|]. cbn [fst snd lil_cells].
      rewrite <- Hcell0. destruct (float32_is_zero (to_float32 v)).
      * by apply lookup_delete_ne.
      * by apply lookup_insert_ne.
  - intros key (-> & _ & _). exists v, j. split_and!; done.
Qed.

Lemma featurize_extractor_step (e : FeatureExtractor.t Part V TrainingData)
    (st : lil_matrix F * list string) :
  e ∈ FeaturizedModel.feature_extractors self → Inv st →
  let loop :=
    foldM (λ st indexed, foldM (featurize_cell indexed.1) st indexed.2)
          st (imap pair (FeatureExtractor.extract_all e parts)) in
  ((∃ st', loop = Ok st' ∧ Inv st')
   ∧ ¬ ∃ i name v, writes i name v ∧ length relevant_parts ≤ i
                   ∧ ∃ mapping,
                       FeatureExtractor.extract_all e parts !! i = Some mapping
                       ∧ (name, v) ∈ mapping)
  ∨ (loop = Raise IndexError
     ∧ ∃ i name v, writes i name v ∧ length relevant_parts ≤ i
                   ∧ ∃ mapping,
                       FeatureExtractor.extract_all e parts !! i = Some mapping
                       ∧ (name, v) ∈ mapping).
Proof.
  intros He Hinv loop.
  destruct (foldM_invariant_or_raise
              (λ st indexed, foldM (featurize_cell indexed.1) st indexed.2)
              Inv (λ indexed, ∃ item, item ∈ indexed.2 ∧ bad indexed.1 item)
              IndexError
              (imap pair (FeatureExtractor.extract_all e parts)) st)
    as [[Hok Hall]
       | [Hraise ([i mapping] & Hi%elem_of_imap_pair & [name v] & Hitem
                  & Hw & Hrow)]];
    [|done| |].
  - intros st' [i mapping] Hi%elem_of_imap_pair Hinv'. cbn [fst snd].
    destruct (foldM_invariant_or_raise (featurize_cell i)
                Inv (bad i) IndexError mapping st')
      as [[Hok Hall] | [Hraise (item & Hitem & Hbad)]]; [|done| |].
    + intros st'' item Hitem Hinv''.
      by apply (featurize_cell_step e mapping).
    + left. split; [done|]. intros (item & Hitem & Hbad).
      by apply (Hall item).
    + right. split; [done|]. by exists item.
  - left. split; [done|].
    intros (i & name & v & Hw & Hrow & mapping & Hmapping & Hitem).
    apply (Hall (i, mapping)); [by apply elem_of_imap_pair|].
    by exists (name, v).
  - right. split; [done|]. exists i, name, v. split_and!; try done.
    by exists mapping.
Qed.

(** After the loops every cell that was assigned to is as its last
    assignment left it. *)
Lemma featurize_loops_written (st st' : lil_matrix F * list string) :
  foldM (λ st e,
           foldM (λ st indexed, foldM (featurize_cell indexed.1) st indexed.2)
                 st (imap pair (FeatureExtractor.extract_all e parts)))
        st (FeaturizedModel.feature_extractors self) = Ok st' →
  ∀ i name v, writes i name v → Done (i, name) st'.
Proof.
  intros Hloop i name v (e & mapping & He & Hmapping & Hitem & Hnz & Hknown).
  destruct (foldM_establishes
              (λ st e,
                 foldM (λ st indexed,
                          foldM (featurize_cell indexed.1) st indexed.2)
                       st (imap pair (FeatureExtractor.extract_all e parts)))
              Done
              (λ e key, ∃ i mapping item,
                 FeatureExtractor.extract_all e parts !! i = Some mapping
                 ∧ item ∈ mapping ∧ hits i item key)
              (FeaturizedModel.feature_extractors self) st st')
    as [_ Hall]; [|exact Hloop|].
  - clear dependent i name v e mapping st st'.
    intros st e st' He Hparts.
    destruct (foldM_establishes
                (λ st indexed, foldM (featurize_cell indexed.1) st indexed.2)
                Done
                (λ indexed key, ∃ item, item ∈ indexed.2
                                        ∧ hits indexed.1 item key)
                (imap pair (FeatureExtractor.extract_all e parts)) st st')
      as [Hkeep Hall]; [|exact Hparts|].
    + clear dependent st st'.
      intros st [i mapping] st' Hi%elem_of_imap_pair Hcells.
      cbn [fst snd] in *.
      destruct (foldM_establishes (featurize_cell i) Done
                  (λ item key, hits i item key) mapping st st') as [Hkeep Hall]; [|exact Hcells|].
      * intros st1 item st2 Hitem Hcell.
        by apply (featurize_cell_written e mapping).
      * split; [done|]. intros key (item & Hitem & Hhits). eauto.
    + split; [done|].
      intros key (i & mapping & item & Hmapping & Hitem & Hhits).
      apply (Hall (i, mapping)); [by apply elem_of_imap_pair|].
      by exists item.
  - apply (Hall e); [done|]. exists i, mapping, (name, v).
    split_and!; done.
Qed.

Lemma featurize_result :
  ((∃ features debug_log,
      _featurize = Ok (features, map label relevant_parts, debug_log)
      ∧ Inv (features, debug_log)
      ∧ ∀ i name v, writes i name v → Done (i, name) (features, debug_log))
   ∧ ¬ ∃ i name v, writes i name v ∧ length relevant_parts ≤ i)
  ∨ (_featurize = Raise IndexError
     ∧ ∃ i name v, writes i name v ∧ length relevant_parts ≤ i).
Proof.
  unfold ClassifierModel._featurize.
  destruct (foldM_invariant_or_raise
              (λ st e,
                 foldM (λ st indexed,
                          foldM (featurize_cell indexed.1) st indexed.2)
                       st (imap pair (FeatureExtractor.extract_all e parts)))
              Inv
              (λ e, ∃ i name v, writes i name v ∧ length relevant_parts ≤ i
                      ∧ ∃ mapping,
                          FeatureExtractor.extract_all e parts !! i
                          = Some mapping ∧ (name, v) ∈ mapping)
              IndexError (FeaturizedModel.feature_extractors self)
              (LilMatrix (length relevant_parts, NameDictionary.len dictionary)
                         ∅, []))
    as [[([features log] & Hloop & Hinv) Hall]
       | [-> (e & _ & i & name & v & Hw & Hrow & _)]].
  - intros st e He Hinv.
    destruct (featurize_extractor_step e st He Hinv)
      as [[Hok Hgood] | [Hraise Hbad]].
    + by left.
    + by right.
  - split; [done|]. intros i j v Hcell. cbn [fst lil_cells] in Hcell.
    by rewrite lookup_empty in Hcell.
  - left. pose proof (featurize_loops_written _ _ Hloop) as Hdone.
    rewrite Hloop. cbn [rbind]. split; [by exists features, log|].
    intros (i & name & v & Hw & Hrow).
    pose proof Hw as (e & mapping & He & Hmapping & Hitem & _).
    apply (Hall e He). exists i, name, v. split_and!; try done.
    by exists mapping.
  - right. split; [done|]. by exists i, name, v.
Qed.

End featurize_facts.

Section featurize_theorems.
Context {Part V TrainingData F : Type}.
Variables (label : Part → Z) (is_zero : V → bool).
Variables (to_float32 : V → F) (float32_is_zero : F → bool).

(** X15. [_featurize] returns when every assignment stays inside the
    matrix, that is, when no extractor gives a non-zero value under a known
    name for a part at a position beyond the number of relevant parts.  The
    matrix then has one row per relevant part and one column per dictionary
    entry, and the labels are those of the relevant parts in order.  Its
    cells are [float32]: every stored cell [(i, j)] holds the non-zero
    [float32] of a value that some configured extractor gave, for the part at
    position [i] of [parts], under the name of index [j]; and for every such
    value given under a known name the cell is as an assignment of such a
    value left it: its [float32], or nothing when that is zero. *)
Theorem featurize_stores_extracted_values
    (self : FeaturizedModel.t Part V TrainingData) (parts : list Part) :
  let dictionary := FeaturizedModel.feature_name_dictionary self in
  let relevant_parts :=
    filter (λ part, FeaturizedModel.part_type self part = true) parts in
  bidirectional dictionary →
  (∀ i name v, writes_cell is_zero self parts i name v →
     i < length relevant_parts) →
  ∃ features debug_log,
    ClassifierModel._featurize label is_zero to_float32 float32_is_zero
      self parts
    = Ok (features, map label relevant_parts, debug_log)
    ∧ lil_shape features
      = (length relevant_parts, NameDictionary.len dictionary)
    ∧ (∀ i j x, lil_cells features !! (i, j) = Some x →
         i < length relevant_parts
         ∧ j < NameDictionary.len dictionary
         ∧ float32_is_zero x = false
         ∧ ∃ name v, x = to_float32 v
                     ∧ writes_cell is_zero self parts i name v
                     ∧ NameDictionary.names_to_ids dictionary !! name
                       = Some j)
    ∧ (∀ i name v j,
         writes_cell is_zero self parts i name v →
         NameDictionary.names_to_ids dictionary !! name = Some j →
         ∃ v', writes_cell is_zero self parts i name v'
               ∧ lil_cells features !! (i, j)
                 = cell_after to_float32 float32_is_zero v').
Proof.
  intros dictionary relevant_parts Hdictionary Hrows.
  destruct (featurize_result label is_zero to_float32 float32_is_zero self
              parts Hdictionary)
    as [[(features & debug_log & Hrun & (Hshape & Hcells) & Hdone) _]
       | [_ (i & name & v & Hw & Hrow)]].
  - exists features, debug_log. split_and!; try done.
    + intros i j x Hcell.
      destruct (Hcells i j x Hcell) as (Hi & Hnz & name & v & -> & Hw & Hname).
      split_and!; try done.
      * apply Hdictionary in Hname. by eapply lookup_lt_Some.
      * by exists name, v.
    + intros i name v j Hw Hname.
      destruct (Hdone i name v Hw) as (v' & j' & Hw' & Hname' & Hcell).
      cbn [fst snd] in *. exists v'. split; [done|].
      fold dictionary in Hname'. rewrite Hname in Hname'.
      injection Hname' as <-. exact Hcell.
  - specialize (Hrows i name v Hw). unfold relevant_parts in Hrows. lia.
Qed.

(** X16. [_featurize] numbers the rows by the position of a part in
    [parts], while the matrix has a row per relevant part only: when some
    extractor gives a non-zero value under a known name for a part at a
    position that is not below the number of relevant parts, [_featurize]
    raises [IndexError]. *)
Theorem featurize_row_is_position_in_parts
    (self : FeaturizedModel.t Part V TrainingData) (parts : list Part) :
  bidirectional (FeaturizedModel.feature_name_dictionary self) →
  (∃ i name v,
     writes_cell is_zero self parts i name v
     ∧ length (filter (λ part, FeaturizedModel.part_type self part = true)
                      parts) ≤ i) →
  ClassifierModel._featurize label is_zero to_float32 float32_is_zero
    self parts
  = Raise IndexError.
Proof.
  intros Hdictionary Hbad.
  by destruct (featurize_result label is_zero to_float32 float32_is_zero self
                 parts Hdictionary)
    as [[_ Hgood] | [Hraise _]].
Qed.

End featurize_theorems.

Lemma trained_dictionary_bidirectional {Part V TrainingData}
    (self : FeaturizedModel.t Part V TrainingData) (parts : list Part) :
  bidirectional (FeaturizedModel.feature_name_dictionary
                   (FeaturizedModel.register_features self parts)).
Proof.
  rewrite dictionary_after_register_features.
  apply bidirectional_inserts, bidirectional_empty.
Qed.

Lemma example_writes_in_range (i : nat) (name : string) (v : Z) :
  writes_cell (λ v, Z.eqb v 0)
    (FeaturizedModel.register_features example_model [1; 2]%Z) [1; 2]%Z
    i name v →
  i < length (filter (λ part,
                        FeaturizedModel.part_type
                          (FeaturizedModel.register_features example_model
                             [1; 2]%Z) part = true) [1; 2]%Z).
Proof.
  intros (e & mapping & He & Hmapping & _).
  apply lookup_lt_Some in Hmapping.
  unfold FeaturizedModel.register_features in He.
  rewrite extractors_after_register in He. cbn in He.
  enough (i < 2) as Hi by exact Hi.
  apply elem_of_cons in He as [->|He]; [simpl in Hmapping; lia|].
  apply elem_of_cons in He as [->|He]; [simpl in Hmapping; lia|].
  apply list_elem_of_singleton in He as ->. cbn in Hmapping. lia.
Qed.

Lemma example_writes_first_part :
  writes_cell (λ v, Z.eqb v 0)
    (FeaturizedModel.register_features example_model [1; 2]%Z) [1; 2]%Z
    0 "identity=1:add1=2" 1%Z.
Proof.
  exists (ConjoinedFeatureExtractor.as_extractor indicator_extract_all
            (ConjoinedFeatureExtractor.Make "identity:add1" Categorical
               [identity_extractor; add1_extractor])),
         [("identity=1:add1=2"%string, 1%Z)].
  split_and!.
  - unfold FeaturizedModel.register_features.
    rewrite extractors_after_register. cbn. set_solver.
  - reflexivity.
  - left.
  - reflexivity.
  - vm_compute. by eexists.
Qed.

Lemma featurize_stores_extracted_values_witness :
  bidirectional (FeaturizedModel.feature_name_dictionary
                   (FeaturizedModel.register_features example_model
                      [1; 2]%Z))
  ∧ ∃ features debug_log,
      ClassifierModel._featurize (λ part : Z, part) (λ v, Z.eqb v 0)
        float32_of_int float32_is_zero
        (FeaturizedModel.register_features example_model [1; 2]%Z) [1; 2]%Z
      = Ok (features, [1; 2]%Z, debug_log)
      ∧ lil_shape features = (2, 8)
      ∧ (∀ i j x, lil_cells features !! (i, j) = Some x →
           i < 2 ∧ j < 8 ∧ float32_is_zero x = false)
      ∧ ∃ v, lil_cells features !! (0, 4)
             = cell_after float32_of_int float32_is_zero v.
Proof.
  split; [apply trained_dictionary_bidirectional|].
  destruct (featurize_stores_extracted_values (λ part : Z, part)
              (λ v, Z.eqb v 0) float32_of_int float32_is_zero
              (FeaturizedModel.register_features example_model [1; 2]%Z)
              [1; 2]%Z (trained_dictionary_bidirectional _ _)
              example_writes_in_range)
    as (features & debug_log & Hrun & Hshape & Hcells & Hdone).
  exists features, debug_log. split; [exact Hrun|]. split; [exact Hshape|].
  split.
  - intros i j x Hcell.
    destruct (Hcells i j x Hcell) as (Hi & Hj & Hnz & _).
    split; [exact Hi|]. split; [exact Hj|exact Hnz].
  - destruct (Hdone 0 "identity=1:add1=2"%string 1%Z 4
                example_writes_first_part eq_refl) as (v & _ & Hcell).
    exists v. exact Hcell.
Defined.

Lemma ones_only_model_misplaces :
  writes_cell (λ v, Z.eqb v 0) ones_only_model [1; 2]%Z 1
    "identity=2:add1=3" 1%Z.
Proof.
  exists (ConjoinedFeatureExtractor.as_extractor indicator_extract_all
            (ConjoinedFeatureExtractor.Make "identity:add1" Categorical
               [identity_extractor; add1_extractor])),
         [("identity=2:add1=3"%string, 1%Z)].
  split_and!.
  - unfold ones_only_model, FeaturizedModel.register_features.
    rewrite extractors_after_register. cbn. set_solver.
  - reflexivity.
  - left.
  - reflexivity.
  - vm_compute. by eexists.
Qed.

Lemma featurize_row_is_position_in_parts_witness :
  bidirectional (FeaturizedModel.feature_name_dictionary ones_only_model)
  ∧ ClassifierModel._featurize (λ part : Z, part) (λ v, Z.eqb v 0)
      float32_of_int float32_is_zero ones_only_model [1; 2]%Z
    = Raise IndexError.
Proof.
  split; [apply trained_dictionary_bidirectional|].
  refine (featurize_row_is_position_in_parts (λ part : Z, part)
            (λ v, Z.eqb v 0) float32_of_int float32_is_zero
            ones_only_model [1; 2]%Z
            (trained_dictionary_bidirectional _ _) _).
  exists 1, "identity=2:add1=3"%string, 1%Z.
  split; [exact ones_only_model_misplaces|].
  vm_compute. lia.
Defined.

(** * Class balancing: what [rebalance] guarantees *)

Lemma max_of_elem_of (l : list nat) (m : nat) : max_of l = Ok m → m ∈ l.
Proof.
  destruct l as [|x l]; [done|]. simpl. intros [= <-].
  revert x. induction l as [|y l IH]; intros x; simpl; [left|].
  destruct (proj1 (elem_of_cons _ _ _) (IH (x `max` y))) as [Hhead | Htail].
  - rewrite Hhead. destruct (Nat.max_spec x y) as [[_ ->] | [_ ->]].
    + right. left.
    + left.
  - right. by right.
Qed.

Lemma Ok_inj {A} (x y : A) : Ok x = Ok y → x = y.
Proof. by intros [= ->]. Qed.

Lemma count_label_le_length (label : Z) (labels : list Z) :
  count_label label labels ≤ length labels.
Proof. apply length_filter. Qed.

Section rebalance_guarantees.
Context {V : Type}.
Variables (zero : V) (garbage : Z) (rebalance_stochastically : bool).
Variable random_choice : list nat → Z → list nat.

Local Abbreviation rebalance :=
  (ClassBalancingModelWrapper.rebalance zero garbage rebalance_stochastically
     random_choice).

Lemma count_label_absent (label : Z) (labels : list Z) :
  label ∉ labels → count_label label labels = 0.
Proof.
  unfold count_label. induction labels as [|l labels IH]; [done|].
  intros [Hne Hrest]%not_elem_of_cons.
  rewrite filter_cons_False by (intros ->; done). by apply IH.
Qed.

Lemma copies_carry_known_labels (data : array2 V) (labels : list Z)
    (extra_rows : list (list V)) (extra_labels : list Z) (label : Z) :
  Forall2 (copy_of data labels) extra_rows extra_labels →
  label ∉ labels → count_label label extra_labels = 0.
Proof.
  intros Hcopies Habsent. apply count_label_absent. intros Hin.
  apply list_elem_of_lookup in Hin as [k Hk].
  destruct (Forall2_lookup_r _ _ _ _ _ Hcopies Hk)
    as (row & _ & i & _ & Hlabel).
  apply Habsent. by eapply list_elem_of_lookup_2.
Qed.

Lemma majority_is_a_class_count (labels : list Z) (max_count : nat) :
  max_of (np_unique labels).2 = Ok max_count →
  (∃ label, label ∈ labels ∧ count_label label labels = max_count)
  ∧ ∀ label, label ∈ labels → count_label label labels ≤ max_count.
Proof.
  intros Hmax. split.
  - apply max_of_elem_of in Hmax.
    change (np_unique labels).2
      with (map (λ label, count_label label labels) (np_unique labels).1.1)
      in Hmax.
    apply list_elem_of_fmap in Hmax as (label & -> & Hin).
    exists label. split; [|done]. by apply elem_of_label_set.
  - intros label Hin%elem_of_label_set.
    apply max_of_bound in Hmax.
    apply (proj1 (Forall_forall _ _) Hmax).
    change (np_unique labels).2
      with (map (λ label, count_label label labels) (np_unique labels).1.1).
    apply list_elem_of_fmap. by exists label.
Qed.

(** X17. With the default ratio (infinity), [rebalance] brings every class
    to the size of the largest one: each label of the input occurs in the
    returned labels as often as the most frequent label occurred, no other
    label appears, and the returned data has a row for every label.  (With
    [FLAGS.rebalance_stochastically] this rests on [np.random.choice]
    returning as many draws as asked for, each from the rows of the
    class.) *)
Theorem rebalance_unlimited_equalises_classes (data : array2 V)
    (labels : list Z) :
  (rebalance_stochastically = true → draws_from_population random_choice) →
  length (rows data) = length labels →
  labels ≠ [] →
  ∃ data' labels' majority,
    rebalance data labels infinity = Ok (data', labels')
    ∧ (∃ label, label ∈ labels ∧ count_label label labels = majority)
    ∧ (∀ label, label ∈ labels →
         count_label label labels ≤ majority
         ∧ count_label label labels' = majority)
    ∧ (∀ label, label ∉ labels → count_label label labels' = 0)
    ∧ length (rows data') = length labels'.
Proof.
  intros Hchoice Hrows Hne.
  destruct (rebalance_result zero garbage rebalance_stochastically
              random_choice data labels infinity Hchoice Hrows Hne eq_refl)
    as (max_count & counts & extra_rows & Hmax & _ & Hrun & Hcopies
        & Hcounts).
  destruct (majority_is_a_class_count labels max_count Hmax)
    as [Hmajority Hbound].
  eexists _, _, max_count. split; [exact Hrun|]. split_and!; [done| | |].
  - intros label Hlabel. specialize (Hbound label Hlabel).
    split; [done|]. specialize (Hcounts label Hlabel).
    rewrite count_to_add_unlimited in Hcounts. apply Ok_inj in Hcounts.
    rewrite count_label_app. lia.
  - intros label Hlabel. rewrite count_label_app.
    rewrite (count_label_absent label labels Hlabel).
    by rewrite (copies_carry_known_labels data labels extra_rows
                  _ label Hcopies Hlabel).
  - cbn [rows]. rewrite !length_app, Hrows.
    by rewrite (Forall2_length _ _ _ Hcopies).
Qed.

(** X18. With a ratio that is not at most 1, on fewer than [2^53] rows,
    [rebalance] lets no class grow beyond the count of the largest class,
    and no class shrinks; so the largest class keeps its count.  (The rows a
    class gains are the truncated binary64 product [(ratio - 1) * count]
    where that is below the room left: for ten rows at the ratio 1.7 that is
    7 rows, the product being rounded up to 7.0.) *)
Theorem rebalance_respects_majority (data : array2 V) (labels : list Z)
    (ratio : float) :
  (rebalance_stochastically = true → draws_from_population random_choice) →
  length (rows data) = length labels →
  labels ≠ [] →
  (Z.of_nat (length labels) < 2 ^ 53)%Z →
  above_one ratio →
  ∃ data' labels' majority,
    rebalance data labels ratio = Ok (data', labels')
    ∧ (∃ label, label ∈ labels ∧ count_label label labels = majority
                ∧ count_label label labels' = majority)
    ∧ (∀ label, label ∈ labels →
         count_label label labels ≤ count_label label labels'
         ∧ count_label label labels' ≤ majority)
    ∧ ClassBalancingModelWrapper.count_to_add 0x1.b333333333333p+0 20 10
      = Ok 7%Z.
Proof.
  intros Hchoice Hrows Hne Hsize Hratio.
  destruct (rebalance_result zero garbage rebalance_stochastically
              random_choice data labels ratio Hchoice Hrows Hne Hratio)
    as (max_count & counts & extra_rows & Hmax & _ & Hrun & Hcopies
        & Hcounts).
  destruct (majority_is_a_class_count labels max_count Hmax)
    as [(top & Htop & Htop_count) Hbound].
  assert (Hmajority : (Z.of_nat max_count < 2 ^ 53)%Z).
  { pose proof (count_label_le_length top labels). lia. }
  assert (Hall : ∀ label, label ∈ labels →
    count_label label labels
    ≤ count_label label (labels ++ added_labels (np_unique labels).1.1 counts)
    ∧ count_label label (labels ++ added_labels (np_unique labels).1.1 counts)
      ≤ max_count).
  { intros label Hlabel. rewrite count_label_app.
    destruct (count_to_add_within_room ratio max_count
                (count_label label labels) Hratio (Hbound label Hlabel)
                Hmajority) as (a & Ha & Hroom).
    rewrite (Hcounts label Hlabel) in Ha. apply Ok_inj in Ha. lia. }
  eexists _, _, max_count. split; [exact Hrun|]. split_and!; [|done|done].
  exists top. split_and!; [done..|].
  destruct (Hall top Htop) as [? ?]. lia.
Qed.

(** X19. With no label at all and a ratio above 1, [rebalance] raises
    [ValueError]: [label_counts.max()] has nothing to take the maximum
    of. *)
Theorem rebalance_without_labels_raises (data : array2 V) (ratio : float) :
  above_one ratio →
  rebalance data [] ratio = Raise ValueError.
Proof.
  intros Hratio. unfold ClassBalancingModelWrapper.rebalance.
  by rewrite Hratio.
Qed.

Lemma lookup_mjoin_replicate {A} (l : list A) (m k : nat) :
  k < m * length l →
  mjoin (replicate m l) !! k = l !! (k mod length l).
Proof.
  revert k. induction m as [|m IH]; intros k Hk; [lia|].
  change (mjoin (replicate (S m) l)) with (l ++ mjoin (replicate m l)).
  destruct (decide (k < length l)) as [Hlt|Hge].
  - rewrite lookup_app_l by done. by rewrite Nat.mod_small.
  - rewrite lookup_app_r by lia. rewrite IH by lia. f_equal.
    replace k with ((k - length l) + 1 * length l) at 2 by lia.
    by rewrite Nat.Div0.mod_add.
Qed.

(** X20. Without [FLAGS.rebalance_stochastically], the rows [rebalance]
    copies for a class are its rows in order, over and over: the [k]-th row
    picked is row [k mod n] of the class, [n] being the number of rows of
    the class. *)
Theorem deterministic_pick_cycles_through_class (label_indices : list nat)
    (count j : nat) :
  let class_rows :=
    omap (λ ij : nat * nat, if decide (ij.2 = j) then Some ij.1 else None)
         (imap pair label_indices) in
  rebalance_stochastically = false →
  1 ≤ length class_rows →
  ∃ indices,
    ClassBalancingModelWrapper.pick_indices rebalance_stochastically
      random_choice label_indices (Z.of_nat count) j = Ok indices
    ∧ length indices = count
    ∧ ∀ k, k < count →
        indices !! k = class_rows !! (k mod length class_rows).
Proof.
  intros class_rows -> Hrows.
  unfold ClassBalancingModelWrapper.pick_indices. fold class_rows.
  rewrite decide_False by lia. cbn [rbind].
  set (n := length class_rows) in *.
  assert (Hfull : (Z.of_nat count `div` Z.of_nat n)%Z
                  = Z.of_nat (count / n)) by (by rewrite Nat2Z.inj_div).
  rewrite Hfull. unfold np_tile. rewrite decide_True by lia. cbn [rbind].
  rewrite Nat2Z.id, length_mjoin_replicate. fold n.
  pose proof (Nat.div_mod_eq count n) as Hdiv.
  pose proof (Nat.mod_upper_bound count n ltac:(lia)) as Hmod.
  assert (Hstill : (Z.of_nat count - Z.of_nat (count / n * n))%Z
                   = Z.of_nat (count mod n)) by lia.
  rewrite Hstill.
  assert (Hlookup : ∀ k, k < count →
    (mjoin (replicate (count / n) class_rows)
     ++ take (count mod n) class_rows) !! k
    = class_rows !! (k mod n)).
  { intros k Hk. destruct (decide (k < count / n * n)) as [Hlt|Hge].
    - rewrite lookup_app_l by (rewrite length_mjoin_replicate; by fold n).
      by apply lookup_mjoin_replicate.
    - rewrite lookup_app_r by (rewrite length_mjoin_replicate; fold n; lia).
      rewrite length_mjoin_replicate. fold n.
      rewrite lookup_take_lt by lia. f_equal.
      replace k with ((k - count / n * n) + count / n * n) at 2 by lia.
      rewrite Nat.Div0.mod_add. symmetry. apply Nat.mod_small. lia. }
  case_decide as Hzero.
  - eexists. split; [done|]. unfold py_prefix.
    rewrite decide_True by lia. rewrite Nat2Z.id. split; [|done].
    rewrite length_app, length_mjoin_replicate, length_take. fold n. lia.
  - eexists. split; [done|].
    assert (Hr : count mod n = 0) by lia.
    rewrite Hr in Hlookup. cbn [take] in Hlookup.
    rewrite app_nil_r in Hlookup. split; [|done].
    rewrite length_mjoin_replicate. fold n. lia.
Qed.

End rebalance_guarantees.

Lemma rebalance_unlimited_equalises_classes_witness :
  (draws_from_population first_member_choice
   ∧ length (rows example_data) = length example_labels)
  ∧ ∃ data' labels' majority,
      ClassBalancingModelWrapper.rebalance 0%Z 0%Z true first_member_choice
        example_data example_labels infinity
      = Ok (data', labels')
      ∧ (∃ label, label ∈ example_labels
                  ∧ count_label label example_labels = majority)
      ∧ (∀ label, label ∈ example_labels →
           count_label label example_labels ≤ majority
           ∧ count_label label labels' = majority)
      ∧ (∀ label, label ∉ example_labels → count_label label labels' = 0)
      ∧ length (rows data') = length labels'.
Proof.
  split; [split; [exact first_member_choice_draws|reflexivity]|].
  exact (rebalance_unlimited_equalises_classes 0%Z 0%Z true
           first_member_choice example_data example_labels
           (λ _, first_member_choice_draws) eq_refl ltac:(discriminate)).
Defined.

Lemma rebalance_respects_majority_witness :
  (draws_from_population first_member_choice
   ∧ length (rows example_data) = length example_labels
   ∧ (Z.of_nat (length example_labels) < 2 ^ 53)%Z
   ∧ above_one 0x1.199999999999ap+1)
  ∧ ∃ data' labels' majority,
      ClassBalancingModelWrapper.rebalance 0%Z 0%Z true first_member_choice
        example_data example_labels 0x1.199999999999ap+1
      = Ok (data', labels')
      ∧ (∃ label, label ∈ example_labels
                  ∧ count_label label example_labels = majority
                  ∧ count_label label labels' = majority)
      ∧ (∀ label, label ∈ example_labels →
           count_label label example_labels ≤ count_label label labels'
           ∧ count_label label labels' ≤ majority)
      ∧ ClassBalancingModelWrapper.count_to_add 0x1.b333333333333p+0 20 10
        = Ok 7%Z.
Proof.
  assert (Hsize : (Z.of_nat (length example_labels) < 2 ^ 53)%Z)
    by reflexivity.
  split; [split_and!; [exact first_member_choice_draws|reflexivity
                      |exact Hsize|reflexivity]|].
  exact (rebalance_respects_majority 0%Z 0%Z true
           first_member_choice example_data example_labels
           0x1.199999999999ap+1
           (λ _, first_member_choice_draws) eq_refl ltac:(discriminate)
           Hsize eq_refl).
Defined.

Lemma rebalance_without_labels_raises_witness :
  above_one 2
  ∧ ClassBalancingModelWrapper.rebalance 0%Z 0%Z false first_member_choice
      (np_empty 0%Z 0 3) [] 2
    = Raise ValueError.
Proof.
  split; [reflexivity|].
  exact (rebalance_without_labels_raises 0%Z 0%Z false first_member_choice
           (np_empty 0%Z 0 3) 2%float eq_refl).
Defined.

Lemma deterministic_pick_cycles_through_class_witness :
  ∃ indices,
    ClassBalancingModelWrapper.pick_indices false first_member_choice
      [1; 1; 0; 1] 5%Z 1 = Ok indices
    ∧ length indices = 5
    ∧ ∀ k, k < 5 → indices !! k = [0; 1; 3] !! (k mod 3).
Proof.
  exact (deterministic_pick_cycles_through_class false first_member_choice
           [1; 1; 0; 1] 5 1 eq_refl ltac:(simpl; lia)).
Defined.

(** * Matching cause/effect pairs ([causality/stages/__init__.py]) *)

Section list_remove_facts.
Context {A : Type} `{EqDecision A}.

Lemma list_remove_Permutation (x : A) (l l' : list A) :
  list_remove x l = Ok l' → l ≡ₚ x :: l'.
Proof.
  revert l'. induction l as [|y l IH]; intros l'; simpl; [done|].
  case_decide as Hy; [intros [= <-]; by subst|].
  destruct (list_remove x l) as [l''|]; simpl; [|done].
  intros [= <-]. rewrite (IH l'' eq_refl). apply perm_swap.
Qed.

Lemma list_remove_elem_of (x : A) (l : list A) :
  x ∈ l → ∃ l', list_remove x l = Ok l'.
Proof.
  induction l as [|y l IH]; [by intros ?%elem_of_nil|].
  intros Hx. simpl. case_decide as Hy; [by eexists|].
  apply elem_of_cons in Hx as [->|Hx]; [done|].
  destruct (IH Hx) as [l' ->]. by eexists.
Qed.

Lemma list_remove_absent (x : A) (l : list A) (e : exn) :
  list_remove x l = Raise e → (x ∉ l) ∧ e = ValueError.
Proof.
  induction l as [|y l IH]; simpl.
  - intros [= <-]. split; [apply not_elem_of_nil|done].
  - case_decide as Hy; [done|].
    destruct (list_remove x l) as [l''|e'] eqn:Hl; simpl; [done|].
    intros [= <-]. destruct (IH eq_refl) as [Hx ->]. split; [|done].
    apply not_elem_of_cons. split; [congruence|done].
Qed.

End list_remove_facts.

Section matching.
Context {Token : Type} `{EqDecision Token}.
Variable start_offset : Token → Z.

Local Abbreviation pair_t := (token_pair (Token:=Token)).
Local Abbreviation normalize := (normalize_order start_offset).
Local Abbreviation step := (match_found (Token:=Token)).

Lemma match_loop_counts (found expected : list pair_t) (tp fp : nat)
    (tp_pairs fp_pairs : list pair_t) :
  ∃ rest tp' fp' tp_pairs' fp_pairs',
    foldl step (expected, tp, fp, tp_pairs, fp_pairs) found
    = (rest, tp', fp', tp_pairs', fp_pairs')
    ∧ tp' + fp' = tp + fp + length found
    ∧ tp' + length rest = tp + length expected
    ∧ length tp_pairs' + tp = length tp_pairs + tp'
    ∧ length fp_pairs' + fp = length fp_pairs + fp'
    ∧ fp ≤ fp'
    ∧ (fp' = fp → expected ≡ₚ found ++ rest)
    ∧ (found ≡ₚ expected → fp' = fp ∧ rest = []).
Proof.
  revert expected tp fp tp_pairs fp_pairs.
  induction found as [|x found IH]; intros expected tp fp tp_pairs fp_pairs.
  - exists expected, tp, fp, tp_pairs, fp_pairs. simpl.
    split_and!; try done; try lia.
    intros Hnil%Permutation_nil_l. by subst.
  - cbn [foldl]. unfold match_found at 2.
    destruct (list_remove x expected) as [expected'|e] eqn:Hremove.
    + apply list_remove_Permutation in Hremove.
      destruct (IH expected' (tp + 1) fp (tp_pairs ++ [x]) fp_pairs)
        as (rest & tp' & fp' & tps & fps & -> & H1 & H2 & H3 & H4 & H5
            & Hsub & Hperm).
      exists rest, tp', fp', tps, fps.
      pose proof (Permutation_length Hremove) as Hlen.
      rewrite length_app in H3. simpl in *.
      split_and!; try done; try lia.
      * intros Hfp. rewrite Hremove. by rewrite (Hsub Hfp).
      * intros Hfound. apply Hperm.
        rewrite Hremove in Hfound. by apply Permutation_cons_inv in Hfound.
    + apply list_remove_absent in Hremove as [Habsent _].
      destruct (IH expected tp (fp + 1) tp_pairs (fp_pairs ++ [x]))
        as (rest & tp' & fp' & tps & fps & -> & H1 & H2 & H3 & H4 & H5
            & Hsub & Hperm).
      exists rest, tp', fp', tps, fps.
      rewrite length_app in H4. simpl in *.
      split_and!; try done; try lia.
      intros Hfound. destruct Habsent. rewrite <- Hfound. left.
Qed.

(** X21. [match_causation_pairs] accounts for every pair once: true and
    false positives add up to the number of found pairs, true positives and
    false negatives to the number of expected pairs, and it records as many
    pairs of each sort as it counts. *)
Theorem match_causation_pairs_accounts_for_every_pair
    (expected_pairs found_pairs : list pair_t) :
  ∃ tp fp fn tp_pairs fp_pairs fn_pairs,
    match_causation_pairs start_offset expected_pairs found_pairs
    = ((tp, fp, fn), (tp_pairs, fp_pairs, fn_pairs))
    ∧ tp + fp = length found_pairs
    ∧ tp + fn = length expected_pairs
    ∧ length tp_pairs = tp
    ∧ length fp_pairs = fp
    ∧ length fn_pairs = fn.
Proof.
  unfold match_causation_pairs.
  destruct (match_loop_counts (map normalize found_pairs)
              (map normalize expected_pairs) 0 0 [] [])
    as (rest & tp & fp & tps & fps & -> & H1 & H2 & H3 & H4 & _).
  rewrite !length_map in *. simpl in *.
  exists tp, fp, (length rest), tps, fps, rest.
  split_and!; try done; lia.
Qed.

(** X22. [match_causation_pairs] reports neither a false positive nor a
    false negative exactly when the found pairs, each put in order, are a
    rearrangement of the expected pairs, each put in order. *)
Theorem match_causation_pairs_perfect_iff_rearrangement
    (expected_pairs found_pairs : list pair_t) :
  (∃ tp recorded,
     match_causation_pairs start_offset expected_pairs found_pairs
     = ((tp, 0, 0), recorded))
  ↔ map normalize found_pairs ≡ₚ map normalize expected_pairs.
Proof.
  unfold match_causation_pairs.
  destruct (match_loop_counts (map normalize found_pairs)
              (map normalize expected_pairs) 0 0 [] [])
    as (rest & tp & fp & tps & fps & -> & _ & _ & _ & _ & _ & Hsub & Hperm).
  split.
  - intros (tp' & recorded & [= -> -> Hrest%nil_length_inv _]).
    subst rest. rewrite (Hsub eq_refl). by rewrite app_nil_r.
  - intros Hfound. destruct (Hperm Hfound) as [-> ->]. by eexists _, _.
Qed.

(** X23. [normalize_order] returns the pair or the pair swapped, with an
    absent token second and otherwise the first token starting no later
    than the second. *)
Theorem normalize_order_puts_earlier_first (tokens : pair_t) :
  (normalize tokens = tokens
   ∨ normalize tokens = (tokens.2, tokens.1))
  ∧ first_starts_first start_offset (normalize tokens).
Proof.
  destruct tokens as [[a|] [b|]]; unfold normalize_order; simpl;
    try (split; [by left|done]).
  - destruct (Z.gtb_spec (start_offset b) (start_offset a)); simpl.
    + split; [by left|lia].
    + split; [by right|lia].
  - split; [by right|done].
Qed.

(** X24. [normalize_order] leaves its own result unchanged, and gives one
    result for a pair and for the pair swapped, except for two distinct
    tokens that start at the same offset: those it swaps each time. *)
Theorem normalize_order_canonical_unless_tied (tokens : pair_t) :
  (tied_start start_offset tokens →
     normalize tokens = (tokens.2, tokens.1)
     ∧ normalize (normalize tokens) = tokens
     ∧ normalize tokens ≠ tokens)
  ∧ (¬ tied_start start_offset tokens →
     normalize (normalize tokens) = normalize tokens
     ∧ normalize (tokens.2, tokens.1) = normalize tokens).
Proof.
  destruct tokens as [[a|] [b|]]; unfold normalize_order; simpl;
    try (split; [done|by intros _]).
  split.
  - intros [Heq Hne]. rewrite Heq, Z.gtb_ltb, Z.ltb_irrefl. simpl.
    rewrite Heq, Z.gtb_ltb, Z.ltb_irrefl. simpl.
    split_and!; [done..|]. congruence.
  - intros Htied.
    destruct (Z.gtb_spec (start_offset b) (start_offset a)) as [Hlt|Hge];
      simpl.
    + destruct (Z.gtb_spec (start_offset b) (start_offset a)); [|lia].
      destruct (Z.gtb_spec (start_offset a) (start_offset b)); [lia|].
      done.
    + destruct (Z.gtb_spec (start_offset a) (start_offset b)) as [Hlt|Hge'];
        simpl.
      * destruct (Z.gtb_spec (start_offset a) (start_offset b)); [|lia].
        done.
      * assert (Heq : start_offset a = start_offset b) by lia.
        destruct (decide (a = b)) as [->|Hne]; [|by destruct Htied].
        by destruct (Z.gtb_spec (start_offset b) (start_offset b)).
Qed.

End matching.

(** * Structured models: testing *)

Lemma mapM_first_raise {A B} (g : A → res B) (before after : list A) (x : A)
    (e : exn) :
  Forall (λ y, is_ok (g y)) before → g x = Raise e →
  mapM g (before ++ x :: after) = Raise e.
Proof.
  intros Hbefore Hx. induction Hbefore as [|y before [b Hy] _ IH]; simpl.
  - by rewrite Hx.
  - by rewrite Hy; simpl; rewrite IH.
Qed.

Section structured_test.
Context {Instance Part Scores Output : Type}.
Implicit Types (self : StructuredModel.t Instance Part Scores Output).

Lemma structured_test_outputs self (P : Instance → Output → Prop)
    (instances : list Instance) :
  Forall (λ instance,
            ∃ parts scores output,
              StructuredModel._make_parts self instance = Ok parts
              ∧ StructuredModel._score_parts self instance parts = Ok scores
              ∧ StructuredModel.decoder self instance parts scores = Ok output
              ∧ P instance output) instances →
  ∃ outputs, StructuredModel.test self instances = Ok outputs
             ∧ Forall2 P instances outputs.
Proof.
  intros Hall. unfold StructuredModel.test.
  enough (∃ parts_by_instance outputs,
            mapM (StructuredModel._make_parts self) instances
            = Ok parts_by_instance
            ∧ (∀ acc,
                 foldM (λ outputs_by_instance (item : Instance * list Part),
                          let '(instance, instance_parts) := item in
                          part_scores ← StructuredModel._score_parts self
                                          instance instance_parts;
                          output ← StructuredModel.decoder self instance
                                     instance_parts part_scores;
                          Ok (outputs_by_instance ++ [output]))
                       acc (zip instances parts_by_instance)
                 = Ok (acc ++ outputs))
            ∧ Forall2 P instances outputs)
    as (parts_by_instance & outputs & -> & Hloop & HP).
  { exists outputs. cbn [rbind]. by rewrite Hloop. }
  induction Hall as [|instance instances
                      (parts & scores & output & Hmake & Hscore & Hdecode & HP)
                      _ (parts_by_instance & outputs & Hparts & Hloop & Hrest)].
  - exists [], []. split_and!; [done| |done]. intros acc. simpl.
    by rewrite app_nil_r.
  - exists (parts :: parts_by_instance), (output :: outputs).
    split_and!.
    + cbn [mapM]. rewrite Hmake. cbn [rbind]. by rewrite Hparts.
    + intros acc. cbn [zip zip_with foldM]. rewrite Hscore. cbn [rbind].
      rewrite Hdecode. cbn [rbind]. rewrite Hloop.
      by rewrite <- app_assoc.
    + by constructor.
Qed.

(** X25. [StructuredModel.test] makes the parts of every instance before
    it scores or decodes any: if [_make_parts] raises for an instance (and
    returns for those before it), [test] raises that exception, whatever
    [_score_parts] and the decoder would do on the earlier instances. *)
Theorem structured_test_makes_all_parts_first self
    (before after : list Instance) (instance : Instance) (e : exn) :
  Forall (λ i, is_ok (StructuredModel._make_parts self i)) before →
  StructuredModel._make_parts self instance = Raise e →
  StructuredModel.test self (before ++ instance :: after) = Raise e.
Proof.
  intros Hbefore Hraise. unfold StructuredModel.test.
  by rewrite (mapM_first_raise _ before after instance e).
Qed.

End structured_test.

Section structured_viterbi.
Context {R : Type} `{Scalar R} {Instance Part : Type}.
Variables (nan_as_int32 : Z) (garbage : R) (garbage32 : Z).

(** X26. A structured model whose decoder is a [ViterbiDecoder] without
    state labels and with [np.argmax] for [arg_sum], and whose hooks return
    trellises of the documented shapes with at least one state, returns
    from [test] one index path per instance, in the order of the instances,
    each with one state of the instance's trellis per sequence item. *)
Theorem structured_test_with_viterbi_decoder
    (decoder : ViterbiDecoder.t R unit)
    (_make_parts : Instance → res (list Part))
    (_score_parts : Instance → list Part → res (SequenceScores R))
    (instances : list Instance) :
  Semiring.arg_sum (ViterbiDecoder.semiring decoder) = Some np_argmax →
  ViterbiDecoder.possible_states decoder = None →
  Forall (λ instance,
            ∃ parts scores,
              _make_parts instance = Ok parts
              ∧ _score_parts instance parts = Ok scores
              ∧ valid_trellis (node_scores scores) (transition_weights scores)
              ∧ 1 ≤ shape0 (node_scores scores)) instances →
  ∃ outputs,
    StructuredModel.test
      (StructuredModel.Make
         (viterbi_decoder nan_as_int32 garbage garbage32 decoder)
         _make_parts _score_parts)
      instances
    = Ok outputs
    ∧ Forall2 (λ instance output,
                 ∃ parts scores path,
                   _make_parts instance = Ok parts
                   ∧ _score_parts instance parts = Ok scores
                   ∧ output = ViterbiDecoder.StateIndices (map Z.of_nat path)
                   ∧ length path = shape1 (node_scores scores)
                   ∧ Forall (λ s, s < shape0 (node_scores scores)) path)
              instances outputs.
Proof.
  intros Harg Hnone Hall. apply structured_test_outputs.
  eapply Forall_impl; [exact Hall|]. cbn [StructuredModel._make_parts
    StructuredModel._score_parts StructuredModel.decoder].
  intros instance (parts & scores & Hmake & Hscore & Hvalid & Hstates).
  set (path := best_path (ViterbiDecoder.semiring decoder)
                 (node_scores scores) (transition_weights scores)).
  exists parts, scores, (ViterbiDecoder.StateIndices (map Z.of_nat path)).
  split_and!; [done|done| |].
  - unfold viterbi_decoder, ViterbiDecoder.decode.
    rewrite (run_viterbi_best_path_spec _ _ _ Hvalid Harg Hstates
               nan_as_int32 garbage garbage32 decoder eq_refl).
    unfold returned_path. by rewrite Hnone.
  - exists parts, scores, path. split_and!; try done.
    + unfold path. rewrite length_best_path by done.
      destruct Hvalid as (_ & Hpos & _). lia.
    + by apply best_path_states.
Qed.

End structured_viterbi.

(** * Training, then testing ([FeaturizedModel]) *)

Lemma first_seen_nil (names : list string) :
  first_seen names = [] ↔ names = [].
Proof. by destruct names. Qed.

Section train_then_test.
Context {Part V TrainingData : Type}.
Local Abbreviation model := (FeaturizedModel.t Part V TrainingData).
Variables (_featurized_train _featurized_test : model → list Part → res model).

(** X27. After a [train] that returns (with a [_featurized_train] that
    leaves the dictionary alone), the assertion of [test] passes exactly
    when the configured extractors gave at least one subfeature name over
    the training parts; a model trained on parts that yield no subfeature
    name (no part, or no extractor) still fails [test] with
    [AssertionError]. *)
Theorem train_then_test (self self' : model) (parts parts' : list Part) :
  (∀ m ps m', _featurized_train m ps = Ok m' →
     FeaturizedModel.feature_name_dictionary m'
     = FeaturizedModel.feature_name_dictionary m) →
  FeaturizedModel.train _featurized_train self parts = Ok self' →
  FeaturizedModel.test _featurized_test self' parts'
  = if decide (all_subfeature_names self parts = [])
    then Raise AssertionError
    else _featurized_test self' parts'.
Proof.
  intros Hkeeps Htrain. unfold FeaturizedModel.train in Htrain.
  apply Hkeeps in Htrain. unfold FeaturizedModel.test.
  rewrite Htrain, dictionary_after_register_features.
  unfold NameDictionary.truth, NameDictionary.len.
  rewrite ids_to_names_from_empty.
  case_decide as Hnames.
  - by rewrite Hnames.
  - destruct (first_seen (all_subfeature_names self parts)) eqn:Hseen.
    + apply (proj1 (first_seen_nil _)) in Hseen. by destruct Hnames.
    + done.
Qed.

End train_then_test.

(** * CRF features ([CRFModel.__featurize_observation_sequence]) *)

Section crf_features.
Context {Observation Part V : Type}.
Local Abbreviation crf_extractor := (CRFModel.extractor Observation Part V).

Lemma updates_lookup (g : crf_extractor → gmap string V)
    (es : list crf_extractor) (key : string) (v : V) :
  foldl (λ feature_values e, CRFModel.dict_update feature_values (g e)) ∅ es
    !! key = Some v
  ↔ ∃ es1 e es2, es = es1 ++ e :: es2 ∧ g e !! key = Some v
                 ∧ Forall (λ e', g e' !! key = None) es2.
Proof.
  induction es as [|e es IH] using rev_ind.
  - simpl. rewrite lookup_empty. split; [done|].
    intros (es1 & e & es2 & Hnil & _). by destruct es1.
  - rewrite foldl_app. cbn [foldl]. unfold CRFModel.dict_update at 1.
    rewrite lookup_union_Some_raw, IH. split.
    + intros [He | (Hnone & es1 & e' & es2 & -> & He' & Hes2)].
      * exists es, e, []. by split_and!.
      * exists es1, e', (es2 ++ [e]). split_and!; [|done|].
        -- by rewrite <- app_assoc.
        -- apply Forall_app. split; [done|]. by constructor.
    + intros (es1 & e' & es2 & Heq & He' & Hes2).
      destruct es2 as [|e2 es2 _] using rev_ind.
      * apply app_inj_tail in Heq as [-> ->]. by left.
      * rewrite app_comm_cons, app_assoc in Heq.
        apply app_inj_tail in Heq as [-> ->].
        apply Forall_app in Hes2 as [Hes2 Hlast%Forall_inv].
        right. split; [done|]. by exists es1, e', es2.
Qed.

(** X28. [CRFModel] gives one feature dictionary per observation, and when
    several extractors give a value under one feature name the last of them
    in [feature_extractors] wins: the dictionary of observation [i] maps a
    name to [v] exactly when some extractor gives [v] under the name for
    that observation in its context and no later extractor gives the
    name. *)
Theorem crf_features_last_extractor_wins
    (self : CRFModel.t Observation Part V)
    (observation_sequence : list Observation) (part : Part) :
  let features :=
    CRFModel.featurize_observation_sequence self observation_sequence part in
  length features = length observation_sequence
  ∧ ∀ i observation name v,
      observation_sequence !! i = Some observation →
      let extractor_arg :=
        CRFModel.MakeObservationWithContext observation observation_sequence
          i part in
      (∃ feature_values,
         features !! i = Some feature_values
         ∧ feature_values !! name = Some v)
      ↔ ∃ es1 e es2,
          CRFModel.feature_extractors self = es1 ++ e :: es2
          ∧ CRFModel.extract e extractor_arg !! name = Some v
          ∧ Forall (λ e', CRFModel.extract e' extractor_arg !! name = None)
                   es2.
Proof.
  intros features. split.
  - unfold features, CRFModel.featurize_observation_sequence.
    by rewrite length_imap.
  - intros i observation name v Hi extractor_arg.
    unfold features, CRFModel.featurize_observation_sequence.
    rewrite list_lookup_imap, Hi. cbn [fmap option_fmap option_map].
    rewrite <- (updates_lookup (λ e, CRFModel.extract e extractor_arg)).
    split.
    + by intros (feature_values & [= <-] & Hv).
    + intros Hv. by eexists.
Qed.

End crf_features.

Lemma structured_test_makes_all_parts_first_witness :
  Forall (λ i, is_ok (StructuredModel._make_parts unscorable_model i)) [1%Z]
  ∧ StructuredModel.test unscorable_model ([1%Z] ++ 2%Z :: [3%Z])
    = Raise NotImplementedError.
Proof.
  assert (Hbefore : Forall (λ i, is_ok (StructuredModel._make_parts
                                          unscorable_model i)) [1%Z]).
  { constructor; [by eexists|constructor]. }
  split; [exact Hbefore|].
  exact (structured_test_makes_all_parts_first unscorable_model [1%Z] [3%Z]
           2%Z NotImplementedError Hbefore eq_refl).
Defined.

Lemma example_instances_scored :
  Forall (λ instance : Z,
            ∃ parts scores,
              Ok [instance] = Ok parts
              ∧ Ok (MakeSequenceScores example_nodes example_transitions)
                = Ok scores
              ∧ valid_trellis (node_scores scores) (transition_weights scores)
              ∧ 1 ≤ shape0 (node_scores scores)) [1%Z; 2%Z].
Proof.
  apply Forall_forall. intros instance _.
  exists [instance], (MakeSequenceScores example_nodes example_transitions).
  split_and!; [done|done|exact example_trellis_valid|simpl; lia].
Qed.

Lemma structured_test_with_viterbi_decoder_witness :
  ∃ outputs,
    StructuredModel.test
      (StructuredModel.Make
         (viterbi_decoder (-2147483648) 0%Z 0%Z
            (ViterbiDecoder.Make None Semiring.MAX_PLUS
               : ViterbiDecoder.t Z unit))
         (λ instance : Z, Ok [instance])
         (λ _ _, Ok (MakeSequenceScores example_nodes example_transitions)))
      [1%Z; 2%Z]
    = Ok outputs
    ∧ Forall2 (λ instance output,
                 ∃ parts scores path,
                   Ok [instance] = Ok parts
                   ∧ Ok (MakeSequenceScores example_nodes example_transitions)
                     = Ok scores
                   ∧ output = ViterbiDecoder.StateIndices (map Z.of_nat path)
                   ∧ length path = shape1 (node_scores scores)
                   ∧ Forall (λ s, s < shape0 (node_scores scores)) path)
              [1%Z; 2%Z] outputs.
Proof.
  exact (structured_test_with_viterbi_decoder (-2147483648) 0%Z 0%Z
           (ViterbiDecoder.Make None Semiring.MAX_PLUS)
           (λ instance : Z, Ok [instance])
           (λ _ _, Ok (MakeSequenceScores example_nodes example_transitions))
           [1%Z; 2%Z] eq_refl eq_refl example_instances_scored).
Defined.

Lemma no_hook_keeps_dictionary (m : FeaturizedModel.t Z Z unit)
    (ps : list Z) (m' : FeaturizedModel.t Z Z unit) :
  no_hook m ps = Ok m' →
  FeaturizedModel.feature_name_dictionary m'
  = FeaturizedModel.feature_name_dictionary m.
Proof. by intros [= <-]. Qed.

Lemma train_then_test_witness :
  FeaturizedModel.train no_hook example_model [1; 2]%Z
  = Ok (FeaturizedModel.register_features example_model [1; 2]%Z)
  ∧ FeaturizedModel.test no_hook
      (FeaturizedModel.register_features example_model [1; 2]%Z) [3%Z]
    = if decide (all_subfeature_names example_model [1; 2]%Z = [])
      then Raise AssertionError
      else no_hook (FeaturizedModel.register_features example_model [1; 2]%Z)
                   [3%Z].
Proof.
  split; [reflexivity|].
  exact (train_then_test no_hook no_hook example_model
           (FeaturizedModel.register_features example_model [1; 2]%Z)
           [1; 2]%Z [3%Z] no_hook_keeps_dictionary eq_refl).
Defined.
